(** * Percy: the incremental SEARCH/REPLACE diff applicator

    A shallow embedding of the diff engine of the Percy extension:

    - [src/utils/string.ts]            ([boyerMooreSearch],
                                        [fixModelHtmlEscaping],
                                        [removeInvalidChars]),
    - [src/utils/string-builder.ts]    ([StringBuilder]),
    - [src/core/assistant-message/diff/types.ts]
                                       ([ChangeRegion], [FileChangeResult],
                                        [getLineNumberFromOffset]),
    - [src/core/assistant-message/diff/line-index.ts]   ([LineIndex]),
    - [src/core/assistant-message/diff/matching-strategies.ts]
                                       ([lineTrimmedFallbackMatch],
                                        [blockAnchorFallbackMatch]),
    - [src/core/assistant-message/diff/processor.ts]
                                       ([constructNewFileContent]).

    JavaScript strings are sequences of UTF-16 code units; they are modelled
    as lists of code units ([N]).  JavaScript numbers only ever hold integers
    here (lengths, offsets, line numbers, the sentinel -1) and are modelled
    as [Z].  [Map] objects are [gmap]s, arrays are lists.

    The file first embeds the code, then defines the notions the properties
    are stated with, then proves the properties:

    - C1  [final_content_splices_applied_blocks]: without malformed blocks
          and with matched ranges in order, the result is the original with
          the applied blocks spliced in ([abandoned_block_output_is_kept],
          [ranges_out_of_order_are_not_spliced]: not otherwise);
    - C2  [boyerMooreSearch_skips_occurrence]: the exact search can miss an
          occurrence ([boyerMooreSearch_sound]: it never invents one);
    - C3  [indexed_match_starts_below_cursor]: the indexed matchers can start
          below the cursor ([direct_match_not_below_cursor]: the direct ones
          cannot);
    - C4  [replace_marker_in_search_state_moves_cursor];
    - C5  [unmatched_search_block_error]: the error reports the search body
          without any trailing white space;
    - C6  [empty_search_block_replaces_whole_file];
    - C7  [blockAnchorFallbackMatch_accepts_two_lines]
          ([blockAnchorFallbackMatch_guard]: the guard as written);
    - C8  [buildIndex_offsets]: the offsets of the line index;
    - C9  [indexed_and_direct_paths_differ];
    - C10 [nonfinal_chunk_without_markers].

    Further properties of the code follow (X1 to X23): the bookkeeping of
    [StringBuilder]; the two string repairs; line numbers against offsets;
    the line index (positions, candidates, [findExactMatch]) and the two
    line matchers against a reference search, with and without the index;
    the change regions of a run; the patterns for which the exact search is
    complete; and the one way in which a call fails. *)

From stdpp Require Import base option list gmap strings sorting.
From Stdlib Require Import ZArith NArith Lia.

Local Open Scope Z_scope.

(* ================================================================= *)
(** ** JavaScript string primitives used by the engine *)
(* ================================================================= *)

(** A string is a list of UTF-16 code units. *)
Abbreviation jsstring := (list N).

Module Js.

(** String literals of the source are written [str "..."]. *)
Definition str (s : string) : jsstring :=
  map Ascii.N_of_ascii (String.list_ascii_of_string s).

(** [s.length] *)
Definition len {A} (s : list A) : Z := Z.of_nat (length s).

(** The line feed, ["\n"]. *)
Definition LF : N := 10%N.

(** [a === b] on strings. *)
Fixpoint streq (a b : jsstring) : bool :=
  match a, b with
  | [], [] => true
  | x :: a', y :: b' => N.eqb x y && streq a' b'
  | _, _ => false
  end.

(** [s[i]]: [None] stands for [undefined] (index out of range). *)
Definition char_at (s : jsstring) (i : Z) : option N :=
  if i <? 0 then None else s !! Z.to_nat i.

(** [arr[i]] on an array of lines.  Out of range it is the empty string:
    that is [this.lines[i] || ""] in [LineIndex.getLineAt]; every other
    access of the source is in range by its loop bounds (see
    [buildLineHashMap_positions] for the positions of the direct scan). *)
Definition line_at (ls : list jsstring) (i : Z) : jsstring :=
  if i <? 0 then [] else default [] (ls !! Z.to_nat i).

(** Relative index of [String.prototype.slice]: negative indices count
    from the end, everything is clamped to [0, len]. *)
Definition rel_index (n i : Z) : Z :=
  if i <? 0 then Z.max (n + i) 0 else Z.min i n.

(** [s.slice(a, b)] *)
Definition slice (s : jsstring) (a b : Z) : jsstring :=
  let from := rel_index (len s) a in
  let to := rel_index (len s) b in
  take (Z.to_nat (to - from)) (drop (Z.to_nat from) s).

(** [s.slice(a)] *)
Definition slice_from (s : jsstring) (a : Z) : jsstring :=
  slice s a (len s).

(** [s.split("\n")]: never empty, [""] splits into [[""]]. *)
Fixpoint split_lines (s : jsstring) : list jsstring :=
  match s with
  | [] => [[]]
  | c :: s' =>
      if N.eqb c LF then [] :: split_lines s'
      else match split_lines s' with
           | l :: ls => (c :: l) :: ls
           | [] => [[c]]
           end
  end.

(** [ls.join("\n")] *)
Fixpoint join_lines (ls : list jsstring) : jsstring :=
  match ls with
  | [] => []
  | [l] => l
  | l :: ls' => l ++ LF :: join_lines ls'
  end.

(** The code units [trim], [trimEnd] strip: ECMAScript WhiteSpace and
    LineTerminator. *)
Definition is_ws (c : N) : bool :=
  let c := Z.of_N c in
  (c =? 9) || (c =? 10) || (c =? 11) || (c =? 12) || (c =? 13) ||
  (c =? 32) || (c =? 160) || (c =? 5760) ||
  ((8192 <=? c) && (c <=? 8202)) ||
  (c =? 8232) || (c =? 8233) || (c =? 8239) || (c =? 8287) ||
  (c =? 12288) || (c =? 65279).

(** [s.trimStart()] *)
Fixpoint trimStart (s : jsstring) : jsstring :=
  match s with
  | [] => []
  | c :: s' => if is_ws c then trimStart s' else s
  end.

(** [s.trimEnd()] *)
Fixpoint trimEnd (s : jsstring) : jsstring :=
  match s with
  | [] => []
  | c :: s' =>
      match trimEnd s' with
      | [] => if is_ws c then [] else [c]
      | t => c :: t
      end
  end.

(** [s.trim()] *)
Definition trim (s : jsstring) : jsstring := trimEnd (trimStart s).

(** [s.startsWith(p)] *)
Fixpoint startsWith (s p : jsstring) {struct p} : bool :=
  match p, s with
  | [], _ => true
  | x :: p', y :: s' => N.eqb x y && startsWith s' p'
  | _ :: _, [] => false
  end.

(** [s.indexOf(p)], scanning from position [i]. *)
Fixpoint indexOf_from (s p : jsstring) (i : Z) : Z :=
  if startsWith s p then i
  else match s with
       | [] => -1
       | _ :: s' => indexOf_from s' p (i + 1)
       end.

(** [s.indexOf(p)] *)
Definition indexOf (s p : jsstring) : Z := indexOf_from s p 0.

(** [s.includes(p)] *)
Definition includes (s p : jsstring) : bool := negb (indexOf s p =? -1).

(** [(s.match(/\n/g) || []).length]: the number of line feeds in [s]. *)
Definition count_newlines (s : jsstring) : Z :=
  len (filter (λ c, c = LF) s).

(** [xs.pop()] (the popped element is not used by the engine). *)
Definition pop {A} (xs : list A) : list A := removelast xs.

End Js.
Import Js.

(** The three marker lines of the wire format. *)
Definition SEARCH_MARKER : jsstring := str "<<<<<<< SEARCH".
Definition SEPARATOR_MARKER : jsstring := str "=======".
Definition REPLACE_MARKER : jsstring := str ">>>>>>> REPLACE".

(* ================================================================= *)
(** ** [src/utils/string.ts]: Boyer-Moore search *)
(* ================================================================= *)

(** The preprocessing loop
    [for (i = 0; i < pattern.length - 1; i++) table.set(pattern[i], m - 1 - i)]. *)
Fixpoint buildBadCharTable (pattern : jsstring) (m i : Z)
    (table : gmap N Z) : gmap N Z :=
  match pattern with
  | [] => table
  | c :: rest =>
      if i <? m - 1
      then buildBadCharTable rest m (i + 1) (<[c := m - 1 - i]> table)
      else table
  end.

(** [a === b] on the results of indexing a string ([None] is [undefined]). *)
Definition codeUnitEq (a b : option N) : bool :=
  match a, b with
  | Some x, Some y => N.eqb x y
  | None, None => true
  | _, _ => false
  end.

(** The inner loop [while (j >= 0 && pattern[j] === text[offset + j]) j--],
    started at [j = jp1 - 1]; the result is the final value of [j]. *)
Fixpoint matchRightToLeft (text pattern : jsstring) (offset : Z) (jp1 : nat) : Z :=
  match jp1 with
  | O => -1
  | S j =>
      if codeUnitEq (pattern !! j) (char_at text (offset + Z.of_nat j))
      then matchRightToLeft text pattern offset j
      else Z.of_nat j
  end.

(** [badCharTable.get(text[offset + j]) || pattern.length] *)
Definition badCharShift (table : gmap N Z) (text : jsstring) (pos m : Z) : Z :=
  match char_at text pos with
  | Some c =>
      match table !! c with
      | Some v => if v =? 0 then m else v
      | None => m
      end
  | None => m
  end.

(** The main loop [while (offset <= text.length - pattern.length)].  Every
    iteration advances [offset] by at least one, so [fuel] iterations are
    enough as soon as [fuel > text.length - pattern.length - offset]. *)
Fixpoint bmLoop (fuel : nat) (text pattern : jsstring) (table : gmap N Z)
    (offset : Z) : Z :=
  match fuel with
  | O => -1
  | S fuel' =>
      if offset <=? len text - len pattern then
        let j := matchRightToLeft text pattern offset (length pattern) in
        if j <? 0 then offset
        else
          let shift := badCharShift table text (offset + j) (len pattern) in
          bmLoop fuel' text pattern table (offset + Z.max 1 shift)
      else -1
  end.

Definition boyerMooreSearch (text pattern : jsstring) (startPos : Z) : Z :=
  if len pattern =? 0 then startPos
  else if len pattern >? len text - startPos then -1
  else
    let table := buildBadCharTable pattern (len pattern) 0 ∅ in
    bmLoop (Z.to_nat (len text - len pattern - startPos + 1))
      text pattern table startPos.

(* ================================================================= *)
(** ** [src/utils/string-builder.ts] *)
(* ================================================================= *)

Module StringBuilder.

Record t := mk { chunks : list jsstring; length : Z }.

Definition empty : t := {| chunks := []; length := 0 |}.

Definition append (sb : t) (s : jsstring) : t :=
  if len s >? 0
  then {| chunks := chunks sb ++ [s]; length := length sb + len s |}
  else sb.

Definition appendSlice (sb : t) (source : jsstring) (start end_ : Z) : t :=
  if start <? end_
  then {| chunks := chunks sb ++ [slice source start end_];
          length := length sb + (end_ - start) |}
  else sb.

Definition appendLine (sb : t) (s : jsstring) : t :=
  append (append sb s) [LF].

(** [this.chunks.join("")] *)
Definition toString (sb : t) : jsstring := concat (chunks sb).

(** [clear()] *)
Definition clear (sb : t) : t := {| chunks := []; length := 0 |}.

(** [getLength()] *)
Definition getLength (sb : t) : Z := length sb.

End StringBuilder.

(* ================================================================= *)
(** ** [src/utils/string.ts]: repairs of model output *)
(* ================================================================= *)

(** [s.replace(/pat/g, rep)] for a pattern that is a literal, non-empty
    string: every occurrence is replaced, leftmost first, occurrences do not
    overlap.  [skip] counts the code units of the occurrence just replaced
    that are still to be passed over. *)
Fixpoint replaceAllFrom (s pat rep : jsstring) (skip : nat) : jsstring :=
  match s with
  | [] => []
  | c :: s' =>
      match skip with
      | S skip' => replaceAllFrom s' pat rep skip'
      | O =>
          if startsWith s pat
          then rep ++ replaceAllFrom s' pat rep (List.length pat - 1)
          else c :: replaceAllFrom s' pat rep 0
      end
  end.

Definition replaceAll (s pat rep : jsstring) : jsstring :=
  replaceAllFrom s pat rep 0.

(** The double quote and the replacement character U+FFFD. *)
Definition QUOTE : N := 34%N.
Definition REPLACEMENT_CHARACTER : N := 65533%N.

Definition fixModelHtmlEscaping (text : jsstring) : jsstring :=
  let text := replaceAll text (str "&gt;") (str ">") in
  let text := replaceAll text (str "&lt;") (str "<") in
  let text := replaceAll text (str "&quot;") [QUOTE] in
  let text := replaceAll text (str "&amp;") (str "&") in
  replaceAll text (str "&apos;") (str "'").

Definition removeInvalidChars (text : jsstring) : jsstring :=
  replaceAll text [REPLACEMENT_CHARACTER] [].

(* ================================================================= *)
(** ** [diff/types.ts] *)
(* ================================================================= *)

Record ChangeRegion := {
  startLine : Z;
  endLine : Z;
  startOffset : Z;
  endOffset : Z
}.

Record FileChangeResult := {
  content : jsstring;
  changedRegions : list ChangeRegion
}.

Definition getLineNumberFromOffset (content : jsstring) (offset : Z) : Z :=
  let textUpToOffset := slice content 0 offset in
  count_newlines textUpToOffset.

(* ================================================================= *)
(** ** [diff/line-index.ts] *)
(* ================================================================= *)

Module LineIndex.

Record t := mk {
  contentToPositions : gmap jsstring (list Z);
  lineToOffset : list Z;
  lines : list jsstring
}.

Definition SIZE_THRESHOLD : Z := 1024 * 1024.

(** [map.get(key)!.push(i)], after [map.set(key, [])] when the key is new. *)
Definition pushPosition (m : gmap jsstring (list Z)) (key : jsstring) (i : Z)
    : gmap jsstring (list Z) :=
  let m := match m !! key with
           | None => <[key := []]> m
           | Some _ => m
           end in
  <[key := default [] (m !! key) ++ [i]]> m.

(** [arr[i] = v] on a JavaScript array: writing past the end extends the
    array.  The holes this would leave read as [undefined], which the only
    reader, [getOffsetForLine], turns into [0]; they are stored as [0]. *)
Definition arraySet (arr : list Z) (i v : Z) : list Z :=
  if i <? len arr then <[Z.to_nat i := v]> arr
  else arr ++ replicate (Z.to_nat (i - len arr)) 0 ++ [v].

(** The loop of [buildIndex], over the lines still to visit; [i] is the
    loop counter and [offset] the running offset. *)
Fixpoint buildIndexLoop (rest : list jsstring) (i offset : Z)
    (positions : gmap jsstring (list Z)) (offsets : list Z)
    : gmap jsstring (list Z) * list Z * Z :=
  match rest with
  | [] => (positions, offsets, offset)
  | line :: rest' =>
      let offsets := arraySet offsets i offset in
      let key := trim line in
      let positions := pushPosition positions key i in
      buildIndexLoop rest' (i + 1) (offset + (len line + 1)) positions offsets
  end.

(** [new LineIndex(content)], that is [buildIndex(content)]. *)
Definition buildIndex (content : jsstring) : t :=
  let lines := split_lines content in
  let '(positions, offsets, offset) := buildIndexLoop lines 0 0 ∅ [] in
  {| contentToPositions := positions;
     lineToOffset := arraySet offsets (len lines) offset;
     lines := lines |}.

Definition getPositionsForLine (idx : t) (lineContent : jsstring) : list Z :=
  let key := trim lineContent in
  default [] (contentToPositions idx !! key).

(** [this.lineToOffset[lineNumber] || 0] *)
Definition getOffsetForLine (idx : t) (lineNumber : Z) : Z :=
  if lineNumber <? 0 then 0
  else default 0 (lineToOffset idx !! Z.to_nat lineNumber).

(** [this.lines[lineNumber] || ""] *)
Definition getLineAt (idx : t) (lineNumber : Z) : jsstring :=
  line_at (lines idx) lineNumber.

Definition getLineCount (idx : t) : Z := len (lines idx).

Definition findPotentialMatches (idx : t) (searchLines : list jsstring)
    (startLinePos : Z) : list Z :=
  if len searchLines =? 0 then [0]
  else if len searchLines =? 1 then
    filter (λ pos, startLinePos ≤ pos)
      (getPositionsForLine idx (line_at searchLines 0))
  else
    let firstLine := trim (line_at searchLines 0) in
    let lastLine := trim (line_at searchLines (len searchLines - 1)) in
    let firstLinePositions :=
      filter (λ pos, startLinePos ≤ pos) (getPositionsForLine idx firstLine) in
    if len firstLinePositions =? 0 then []
    else
      filter (λ pos,
                let expectedLastLinePos := pos + len searchLines - 1 in
                expectedLastLinePos < len (lines idx) ∧
                trim (line_at (lines idx) expectedLastLinePos) = lastLine)
        firstLinePositions.

(** The inner loop of [findExactMatch] over the search lines still to
    compare ([i] is the loop counter); [false] is the [break]. *)
Fixpoint blockMatchesAt (idx : t) (rest : list jsstring) (pos i : Z) : bool :=
  match rest with
  | [] => true
  | s :: rest' =>
      if (pos + i >=? len (lines idx))
         || negb (streq (trim (line_at (lines idx) (pos + i))) (trim s))
      then false
      else blockMatchesAt idx rest' pos (i + 1)
  end.

(** The loop [for (const pos of potentialPositions)] of [findExactMatch]. *)
Fixpoint findExactMatchLoop (idx : t) (searchLines : list jsstring)
    (positions : list Z) : option (Z * Z) :=
  match positions with
  | [] => None
  | pos :: positions' =>
      if blockMatchesAt idx searchLines pos 0 then
        let startOffset := getOffsetForLine idx pos in
        let endOffset :=
          if pos + len searchLines <? len (lines idx)
          then getOffsetForLine idx (pos + len searchLines)
          else getOffsetForLine idx (len (lines idx) - 1)
               + len (line_at (lines idx) (len (lines idx) - 1)) + 1 in
        Some (startOffset, endOffset)
      else findExactMatchLoop idx searchLines positions'
  end.

Definition findExactMatch (idx : t) (searchLines : list jsstring)
    (startLinePos : Z) : option (Z * Z) :=
  let potentialPositions := findPotentialMatches idx searchLines startLinePos in
  findExactMatchLoop idx searchLines potentialPositions.

Definition shouldUseIndex (content : jsstring) : bool :=
  len content >? SIZE_THRESHOLD.

End LineIndex.

(* ================================================================= *)
(** ** [diff/matching-strategies.ts] *)
(* ================================================================= *)

(** [if (searchLines[searchLines.length - 1] === "") searchLines.pop()] *)
Definition popTrailingEmptyLine (searchLines : list jsstring) : list jsstring :=
  match last searchLines with
  | Some [] => pop searchLines
  | _ => searchLines
  end.

(** The indexed variant of "find the line number where startIndex falls":
    [for (i = 0; i < lineIndex.getLineCount(); i++)
       if (lineIndex.getOffsetForLine(i) >= startIndex)
         { startLineNum = i > 0 ? i - 1 : 0; break }],
    over the line numbers [todo] still to visit. *)
Fixpoint indexedStartLine (idx : LineIndex.t) (startIndex : Z) (todo : list Z) : Z :=
  match todo with
  | [] => 0
  | i :: todo' =>
      if LineIndex.getOffsetForLine idx i >=? startIndex
      then (if i >? 0 then i - 1 else 0)
      else indexedStartLine idx startIndex todo'
  end.

(** The direct variant:
    [while (currentIndex < startIndex && startLineNum < originalLines.length)
       { currentIndex += originalLines[startLineNum].length + 1; startLineNum++ }],
    over the lines from [startLineNum] on. *)
Fixpoint directStartLine (rest : list jsstring)
    (startIndex currentIndex startLineNum : Z) : Z :=
  match rest with
  | [] => startLineNum
  | line :: rest' =>
      if currentIndex <? startIndex
      then directStartLine rest' startIndex
             (currentIndex + (len line + 1)) (startLineNum + 1)
      else startLineNum
  end.

(** [for (k = from; k < from + count; k++) acc += originalLines[k].length + 1] *)
Definition addLineLengths (originalLines : list jsstring) (from count acc : Z) : Z :=
  fold_left (λ acc k, acc + (len (line_at originalLines k) + 1))
    (seqZ from count) acc.

(** The loop [for (j = 0; j < searchLines.length; j++)] comparing trimmed
    lines, over the search lines still to compare; [false] is the [break]. *)
Fixpoint linesMatchAt (originalLines rest : list jsstring) (pos j : Z) : bool :=
  match rest with
  | [] => true
  | s :: rest' =>
      if negb (streq (trim (line_at originalLines (pos + j))) (trim s))
      then false
      else linesMatchAt originalLines rest' pos (j + 1)
  end.

(** The loop [for (const pos of potentialStartPositions)] of the direct
    line-trimmed match. *)
Fixpoint lineTrimmedVerify (originalLines searchLines : list jsstring)
    (positions : list Z) : option (Z * Z) :=
  match positions with
  | [] => None
  | pos :: positions' =>
      if linesMatchAt originalLines searchLines pos 0 then
        let matchStartIndex := addLineLengths originalLines 0 pos 0 in
        let matchEndIndex :=
          addLineLengths originalLines pos (len searchLines) matchStartIndex in
        Some (matchStartIndex, matchEndIndex)
      else lineTrimmedVerify originalLines searchLines positions'
  end.

(** The body of [lineTrimmedFallbackMatch] under
    [if (lineIndex && LineIndex.shouldUseIndex(originalContent))]. *)
Definition lineTrimmedIndexed (idx : LineIndex.t) (searchContent : jsstring)
    (startIndex : Z) : option (Z * Z) :=
  let searchLines := split_lines searchContent in
  let searchLines :=
    if len searchLines >? 0 then popTrailingEmptyLine searchLines
    else searchLines in
  if len searchLines =? 0 then None
  else
    let startLineNum :=
      indexedStartLine idx startIndex (seqZ 0 (LineIndex.getLineCount idx)) in
    LineIndex.findExactMatch idx searchLines startLineNum.

(** [for (i = startLineNum; i <= originalLines.length - searchLines.length; i++)]
    filling the map from trimmed line to line numbers. *)
Definition buildLineHashMap (originalLines : list jsstring)
    (startLineNum searchLen : Z) : gmap jsstring (list Z) :=
  fold_left
    (λ m i, LineIndex.pushPosition m (trim (line_at originalLines i)) i)
    (seqZ startLineNum (len originalLines - searchLen - startLineNum + 1))
    ∅.

(** The rest of [lineTrimmedFallbackMatch]: the direct scan. *)
Definition lineTrimmedDirect (originalContent searchContent : jsstring)
    (startIndex : Z) : option (Z * Z) :=
  let originalLines := split_lines originalContent in
  let searchLines := split_lines searchContent in
  if (len searchLines =? 0) || (len originalLines =? 0) then None
  else
    let searchLines := popTrailingEmptyLine searchLines in
    if len searchLines =? 0 then None
    else
      let startLineNum := directStartLine originalLines startIndex 0 0 in
      let lineHashMap :=
        buildLineHashMap originalLines startLineNum (len searchLines) in
      let firstLineTrimmed := trim (line_at searchLines 0) in
      let earlyExit :=
        if len searchLines >? 1 then
          let lastLineTrimmed :=
            trim (line_at searchLines (len searchLines - 1)) in
          let firstLinePositions :=
            default [] (lineHashMap !! firstLineTrimmed) in
          if len firstLinePositions =? 0 then true
          else
            let validPatternExists :=
              existsb
                (λ firstPos,
                   let expectedLastPos := firstPos + len searchLines - 1 in
                   (expectedLastPos <? len originalLines)
                   && streq (trim (line_at originalLines expectedLastPos))
                        lastLineTrimmed)
                firstLinePositions in
            negb validPatternExists
        else false in
      if earlyExit then None
      else
        let potentialStartPositions :=
          default [] (lineHashMap !! firstLineTrimmed) in
        lineTrimmedVerify originalLines searchLines potentialStartPositions.

Definition lineTrimmedFallbackMatch (originalContent searchContent : jsstring)
    (startIndex : Z) (lineIndex : option LineIndex.t) : option (Z * Z) :=
  match lineIndex with
  | Some idx =>
      if LineIndex.shouldUseIndex originalContent
      then lineTrimmedIndexed idx searchContent startIndex
      else lineTrimmedDirect originalContent searchContent startIndex
  | None => lineTrimmedDirect originalContent searchContent startIndex
  end.

(** The loop [for (const pos of firstLinePositions)] of the indexed
    block-anchor match. *)
Fixpoint blockAnchorIndexedLoop (idx : LineIndex.t) (searchLen : Z)
    (lastLine : jsstring) (positions : list Z) : option (Z * Z) :=
  match positions with
  | [] => None
  | pos :: positions' =>
      let expectedLastLinePos := pos + searchLen - 1 in
      if (expectedLastLinePos <? LineIndex.getLineCount idx)
         && streq (trim (LineIndex.getLineAt idx expectedLastLinePos)) lastLine
      then
        let startOffset := LineIndex.getOffsetForLine idx pos in
        let endOffset := LineIndex.getOffsetForLine idx (expectedLastLinePos + 1) in
        Some (startOffset, endOffset)
      else blockAnchorIndexedLoop idx searchLen lastLine positions'
  end.

(** The body of [blockAnchorFallbackMatch] under
    [if (lineIndex && LineIndex.shouldUseIndex(originalContent))]. *)
Definition blockAnchorIndexed (idx : LineIndex.t) (searchContent : jsstring)
    (startIndex : Z) : option (Z * Z) :=
  let searchLines := split_lines searchContent in
  if len searchLines <? 3 then None
  else
    let searchLines :=
      if len searchLines >? 0 then popTrailingEmptyLine searchLines
      else searchLines in
    let startLineNum :=
      indexedStartLine idx startIndex (seqZ 0 (LineIndex.getLineCount idx)) in
    let firstLine := trim (line_at searchLines 0) in
    let lastLine := trim (line_at searchLines (len searchLines - 1)) in
    let firstLinePositions :=
      filter (λ pos, startLineNum ≤ pos)
        (LineIndex.getPositionsForLine idx firstLine) in
    blockAnchorIndexedLoop idx (len searchLines) lastLine firstLinePositions.

(** The loop [for (i = startLineNum; i <= originalLines.length - searchBlockSize; i++)]
    of the direct block-anchor match, over the line numbers still to visit. *)
Fixpoint blockAnchorDirectLoop (originalLines : list jsstring)
    (firstLineSearch lastLineSearch : jsstring) (searchBlockSize : Z)
    (todo : list Z) : option (Z * Z) :=
  match todo with
  | [] => None
  | i :: todo' =>
      if negb (streq (trim (line_at originalLines i)) firstLineSearch) then
        blockAnchorDirectLoop originalLines firstLineSearch lastLineSearch
          searchBlockSize todo'
      else if negb (streq (trim (line_at originalLines (i + searchBlockSize - 1)))
                      lastLineSearch) then
        blockAnchorDirectLoop originalLines firstLineSearch lastLineSearch
          searchBlockSize todo'
      else
        let matchStartIndex := addLineLengths originalLines 0 i 0 in
        let matchEndIndex :=
          addLineLengths originalLines i searchBlockSize matchStartIndex in
        Some (matchStartIndex, matchEndIndex)
  end.

(** The rest of [blockAnchorFallbackMatch]: the direct scan. *)
Definition blockAnchorDirect (originalContent searchContent : jsstring)
    (startIndex : Z) : option (Z * Z) :=
  let originalLines := split_lines originalContent in
  let searchLines := split_lines searchContent in
  if len searchLines <? 3 then None
  else
    let searchLines := popTrailingEmptyLine searchLines in
    let firstLineSearch := trim (line_at searchLines 0) in
    let lastLineSearch := trim (line_at searchLines (len searchLines - 1)) in
    let searchBlockSize := len searchLines in
    let startLineNum := directStartLine originalLines startIndex 0 0 in
    blockAnchorDirectLoop originalLines firstLineSearch lastLineSearch
      searchBlockSize
      (seqZ startLineNum (len originalLines - searchBlockSize - startLineNum + 1)).

Definition blockAnchorFallbackMatch (originalContent searchContent : jsstring)
    (startIndex : Z) (lineIndex : option LineIndex.t) : option (Z * Z) :=
  match lineIndex with
  | Some idx =>
      if LineIndex.shouldUseIndex originalContent
      then blockAnchorIndexed idx searchContent startIndex
      else blockAnchorDirect originalContent searchContent startIndex
  | None => blockAnchorDirect originalContent searchContent startIndex
  end.

(* ================================================================= *)
(** ** [diff/processor.ts] *)
(* ================================================================= *)

(** The local variables of [constructNewFileContent] that the line loop
    reads and writes ([regions] is the local [changedRegions], whose name is
    taken by the field of [FileChangeResult]). *)
Record state := mkState {
  result : StringBuilder.t;
  lastProcessedIndex : Z;
  regions : list ChangeRegion;
  resultLength : Z;
  searchSegments : list jsstring;
  replaceSegments : list jsstring;
  inSearch : bool;
  inReplace : bool;
  searchMatchIndex : Z;
  searchEndIndex : Z;
  replacementStartOffset : Z
}.

Definition initialState : state :=
  {| result := StringBuilder.empty;
     lastProcessedIndex := 0;
     regions := [];
     resultLength := 0;
     searchSegments := [];
     replaceSegments := [];
     inSearch := false;
     inReplace := false;
     searchMatchIndex := -1;
     searchEndIndex := -1;
     replacementStartOffset := -1 |}.

(** What one iteration of the line loop does: go on with the next line
    ([continue]), [return] from the function, or [throw]. *)
Inductive outcome :=
| Continue (st : state)
| Return (r : FileChangeResult)
| Throw (message : jsstring).

(** The template literal of the error message, around the search content
    it reports. *)
Definition noMatchMessageFor (reported : jsstring) : jsstring :=
  str "The SEARCH block:" ++ [LF] ++ reported ++ [LF]
  ++ str "...does not match anything in the file.".

(** The message of the error thrown when no strategy matches: it reports
    [currentSearchContent.trimEnd()]. *)
Definition noMatchMessage (currentSearchContent : jsstring) : jsstring :=
  noMatchMessageFor (trimEnd currentSearchContent).

(** [searchSegments.join("\n")], plus ["\n"] when there are segments. *)
Definition searchContentOf (searchSegments : list jsstring) : jsstring :=
  let currentSearchContent := join_lines searchSegments in
  if len searchSegments >? 0 then currentSearchContent ++ [LF]
  else currentSearchContent.

(** The ladder of matching strategies of the [=======] branch:
    [Some (searchMatchIndex, searchEndIndex)], or [None] where the source
    throws. *)
Definition locateSearchBlock (originalContent : jsstring)
    (lineIndex : option LineIndex.t) (currentSearchContent : jsstring)
    (lastProcessedIndex : Z) : option (Z * Z) :=
  if len currentSearchContent =? 0 then
    if len originalContent =? 0 then Some (0, 0)
    else Some (0, len originalContent)
  else
    let exactIndex :=
      boyerMooreSearch originalContent currentSearchContent lastProcessedIndex in
    if negb (exactIndex =? -1) then
      Some (exactIndex, exactIndex + len currentSearchContent)
    else
      match lineTrimmedFallbackMatch originalContent currentSearchContent
              lastProcessedIndex lineIndex with
      | Some lineMatch => Some lineMatch
      | None =>
          blockAnchorFallbackMatch originalContent currentSearchContent
            lastProcessedIndex lineIndex
      end.

(** [{ content: result.toString(), changedRegions }], after appending what
    is left of the original when [lastProcessedIndex < originalContent.length]. *)
Definition finish (originalContent : jsstring) (appendRest : bool) (st : state)
    : FileChangeResult :=
  let result :=
    if appendRest && (lastProcessedIndex st <? len originalContent)
    then StringBuilder.appendSlice (result st) originalContent
           (lastProcessedIndex st) (len originalContent)
    else result st in
  {| content := StringBuilder.toString result;
     changedRegions := regions st |}.

(** The branch [if (line === "<<<<<<< SEARCH")]. *)
Definition onSearchMarker (st : state) : outcome :=
  let malformed := inSearch st || inReplace st in
  Continue
    {| result := result st;
       lastProcessedIndex := lastProcessedIndex st;
       regions := regions st;
       resultLength := resultLength st;
       searchSegments := if malformed then [] else searchSegments st;
       replaceSegments := if malformed then [] else replaceSegments st;
       inSearch := true;
       inReplace := if malformed then false else inReplace st;
       searchMatchIndex := searchMatchIndex st;
       searchEndIndex := searchEndIndex st;
       replacementStartOffset := replacementStartOffset st |}.

(** The branch [if (line === "=======")]. *)
Definition onSeparator (originalContent : jsstring)
    (lineIndex : option LineIndex.t) (st : state) : outcome :=
  let currentSearchContent := searchContentOf (searchSegments st) in
  match locateSearchBlock originalContent lineIndex currentSearchContent
          (lastProcessedIndex st) with
  | None => Throw (noMatchMessage currentSearchContent)
  | Some (matchIndex, endIndex) =>
      let emitPrefix := matchIndex >? lastProcessedIndex st in
      let result :=
        if emitPrefix
        then StringBuilder.appendSlice (result st) originalContent
               (lastProcessedIndex st) matchIndex
        else result st in
      let resultLength :=
        if emitPrefix
        then resultLength st + (matchIndex - lastProcessedIndex st)
        else resultLength st in
      Continue
        {| result := result;
           lastProcessedIndex := lastProcessedIndex st;
           regions := regions st;
           resultLength := resultLength;
           searchSegments := searchSegments st;
           replaceSegments := replaceSegments st;
           inSearch := false;
           inReplace := true;
           searchMatchIndex := matchIndex;
           searchEndIndex := endIndex;
           replacementStartOffset := resultLength |}
  end.

(** The branch [if (line === ">>>>>>> REPLACE")]. *)
Definition onReplaceMarker (diffContent originalContent : jsstring)
    (isFinal : bool) (line : jsstring) (st : state) : outcome :=
  let replacementEndOffset := resultLength st in
  let regions :=
    if negb (searchMatchIndex st =? -1) && negb (replacementStartOffset st =? -1)
    then
      let startLine :=
        getLineNumberFromOffset (StringBuilder.toString (result st))
          (replacementStartOffset st) in
      let endLine :=
        getLineNumberFromOffset (StringBuilder.toString (result st))
          replacementEndOffset in
      regions st ++ [ {| startLine := startLine;
                         endLine := endLine;
                         startOffset := replacementStartOffset st;
                         endOffset := replacementEndOffset |} ]
    else regions st in
  let st' :=
    {| result := result st;
       lastProcessedIndex := searchEndIndex st;
       regions := regions;
       resultLength := resultLength st;
       searchSegments := [];
       replaceSegments := [];
       inSearch := false;
       inReplace := false;
       searchMatchIndex := -1;
       searchEndIndex := -1;
       replacementStartOffset := -1 |} in
  if isFinal then
    let remainingText :=
      slice_from diffContent (indexOf diffContent line + len line) in
    if negb (includes remainingText SEARCH_MARKER)
    then Return (finish originalContent true st')
    else Continue st'
  else Continue st'.

(** The end of the loop body: accumulate the line. *)
Definition onContentLine (line : jsstring) (st : state) : outcome :=
  if inSearch st then
    Continue
      {| result := result st;
         lastProcessedIndex := lastProcessedIndex st;
         regions := regions st;
         resultLength := resultLength st;
         searchSegments := searchSegments st ++ [line];
         replaceSegments := replaceSegments st;
         inSearch := inSearch st;
         inReplace := inReplace st;
         searchMatchIndex := searchMatchIndex st;
         searchEndIndex := searchEndIndex st;
         replacementStartOffset := replacementStartOffset st |}
  else if inReplace st then
    let known := negb (searchMatchIndex st =? -1) in
    Continue
      {| result := if known then StringBuilder.appendLine (result st) line
                   else result st;
         lastProcessedIndex := lastProcessedIndex st;
         regions := regions st;
         resultLength := if known then resultLength st + (len line + 1)
                         else resultLength st;
         searchSegments := searchSegments st;
         replaceSegments := replaceSegments st ++ [line];
         inSearch := inSearch st;
         inReplace := inReplace st;
         searchMatchIndex := searchMatchIndex st;
         searchEndIndex := searchEndIndex st;
         replacementStartOffset := replacementStartOffset st |}
  else Continue st.

(** The body of [for (const line of lines)]. *)
Definition step (diffContent originalContent : jsstring) (isFinal : bool)
    (lineIndex : option LineIndex.t) (st : state) (line : jsstring) : outcome :=
  if streq line SEARCH_MARKER then onSearchMarker st
  else if streq line SEPARATOR_MARKER then onSeparator originalContent lineIndex st
  else if streq line REPLACE_MARKER then
    onReplaceMarker diffContent originalContent isFinal line st
  else onContentLine line st.

(** [for (const line of lines) { ... }]: [Continue] means that the loop ran
    to its end. *)
Fixpoint processLines (diffContent originalContent : jsstring) (isFinal : bool)
    (lineIndex : option LineIndex.t) (lines : list jsstring) (st : state)
    : outcome :=
  match lines with
  | [] => Continue st
  | line :: lines' =>
      match step diffContent originalContent isFinal lineIndex st line with
      | Continue st' =>
          processLines diffContent originalContent isFinal lineIndex lines' st'
      | stop => stop
      end
  end.

(** The lines the loop runs over: [diffContent.split("\n")], without its
    last line when that line looks like the beginning of a marker. *)
Definition diffLines (diffContent : jsstring) : list jsstring :=
  let lines := split_lines diffContent in
  let lastLine := default [] (last lines) in
  if (len lines >? 0)
     && (startsWith lastLine (str "<") || startsWith lastLine (str "=")
         || startsWith lastLine (str ">"))
     && negb (streq lastLine SEARCH_MARKER)
     && negb (streq lastLine SEPARATOR_MARKER)
     && negb (streq lastLine REPLACE_MARKER)
  then pop lines
  else lines.

(** [const isLargeFile = LineIndex.shouldUseIndex(originalContent)
     const lineIndex = isLargeFile ? new LineIndex(originalContent) : undefined] *)
Definition lineIndexFor (originalContent : jsstring) : option LineIndex.t :=
  let isLargeFile := LineIndex.shouldUseIndex originalContent in
  if isLargeFile then Some (LineIndex.buildIndex originalContent) else None.

(** The result of a call: the resolved value of the promise, or the message
    of the error it is rejected with. *)
Definition constructNewFileContent (diffContent originalContent : jsstring)
    (isFinal : bool) : FileChangeResult + jsstring :=
  let lineIndex := lineIndexFor originalContent in
  let lines := diffLines diffContent in
  if isFinal && negb (includes diffContent SEARCH_MARKER) then
    inl (finish originalContent true initialState)
  else
    match processLines diffContent originalContent isFinal lineIndex lines
            initialState with
    | Return r => inl r
    | Throw message => inr message
    | Continue st => inl (finish originalContent isFinal st)
    end.

(* ================================================================= *)
(** ** Notions used to state the properties *)
(* ================================================================= *)

(** A line followed by its line feed, and a text given by its lines, each
    followed by a line feed. *)
Definition nl (s : string) : jsstring := str s ++ [LF].
Definition unlines (l : list string) : jsstring := concat (map nl l).

(** What the processor emits for replacement lines: each line, then ["\n"]. *)
Definition emitLines (ls : list jsstring) : jsstring :=
  concat (map (λ l, l ++ [LF]) ls).

(** [pattern] occurs in [text] at index [i]. *)
Definition occursAt (text pattern : jsstring) (i : Z) : Prop :=
  0 ≤ i ∧ take (length pattern) (drop (Z.to_nat i) text) = pattern
  ∧ i + len pattern ≤ len text.

(** A line that is none of the three markers. *)
Definition ordinary (l : jsstring) : Prop :=
  l ≠ SEARCH_MARKER ∧ l ≠ SEPARATOR_MARKER ∧ l ≠ REPLACE_MARKER.

(** The lines of one complete block. *)
Definition blockLines (searchBody replaceBody : list jsstring) : list jsstring :=
  SEARCH_MARKER :: searchBody ++ SEPARATOR_MARKER :: replaceBody ++ [REPLACE_MARKER].

(** The three states of the block parser. *)
Inductive parserState := Idle | InSearch | InReplace.

Definition parserStateOf (st : state) : parserState :=
  if inSearch st then InSearch
  else if inReplace st then InReplace
  else Idle.

Definition inReplaceState (p : parserState) : bool :=
  match p with InReplace => true | _ => false end.

(** Diff lines without a malformed block, read from parser state [p]:
    no [<<<<<<< SEARCH] and no [=======] arrives in the replace state, every
    [>>>>>>> REPLACE] arrives in the replace state, and the lines do not end
    in the replace state. *)
Fixpoint wellFormedFrom (p : parserState) (lines : list jsstring) : bool :=
  match lines with
  | [] => negb (inReplaceState p)
  | line :: lines' =>
      if streq line SEARCH_MARKER then
        negb (inReplaceState p) && wellFormedFrom InSearch lines'
      else if streq line SEPARATOR_MARKER then
        negb (inReplaceState p) && wellFormedFrom InReplace lines'
      else if streq line REPLACE_MARKER then
        inReplaceState p && wellFormedFrom Idle lines'
      else wellFormedFrom p lines'
  end.

(** What holds of the state of the line loop as long as the lines read are
    well formed: the cursor and the emitted length are not negative; in the
    replace state a match is set; outside of it no match is set and no
    replacement line is held. *)
Definition runInvariant (st : state) : Prop :=
  0 ≤ lastProcessedIndex st ∧ 0 ≤ resultLength st
  ∧ if inReplace st
    then inSearch st = false ∧ 0 ≤ searchMatchIndex st
         ∧ 0 ≤ searchEndIndex st ∧ 0 ≤ replacementStartOffset st
    else searchMatchIndex st = -1 ∧ searchEndIndex st = -1
         ∧ replacementStartOffset st = -1 ∧ replaceSegments st = [].

(** [base] is what the result held before the block in progress, if any:
    in the replace state the result holds, after [base], the original from
    the cursor up to the match and the replacement lines read so far. *)
Definition resultSince (originalContent : jsstring) (st : state)
    (base : jsstring) : Prop :=
  StringBuilder.toString (result st)
  = base
    ++ (if inReplace st
        then slice originalContent (lastProcessedIndex st) (searchMatchIndex st)
             ++ emitLines (replaceSegments st)
        else []).

(** The blocks a run of the line loop applies, in order: a block is applied
    when its [>>>>>>> REPLACE] line is reached with a known match, which is
    when the source records its change region and moves the cursor to the end
    of the match.  Each entry is (match start, match end, replacement text). *)
Fixpoint appliedIn (diffContent originalContent : jsstring) (isFinal : bool)
    (lineIndex : option LineIndex.t) (lines : list jsstring) (st : state)
    : list (Z * Z * jsstring) :=
  match lines with
  | [] => []
  | line :: lines' =>
      let here :=
        if streq line REPLACE_MARKER
           && negb (searchMatchIndex st =? -1)
           && negb (replacementStartOffset st =? -1)
        then [(searchMatchIndex st, searchEndIndex st,
               emitLines (replaceSegments st))]
        else [] in
      match step diffContent originalContent isFinal lineIndex st line with
      | Continue st' =>
          here ++ appliedIn diffContent originalContent isFinal lineIndex lines' st'
      | _ => here
      end
  end.

Definition appliedBlocks (diffContent originalContent : jsstring)
    (isFinal : bool) : list (Z * Z * jsstring) :=
  if isFinal && negb (includes diffContent SEARCH_MARKER) then []
  else appliedIn diffContent originalContent isFinal
         (lineIndexFor originalContent) (diffLines diffContent) initialState.

(** The concatenation of invariant I4, from [cursor] on:
    [original[cursor..s1) ++ replace1 ++ original[e1..s2) ++ ... ++ original[eN..len)]. *)
Fixpoint spliceFrom (originalContent : jsstring) (cursor : Z)
    (blocks : list (Z * Z * jsstring)) : jsstring :=
  match blocks with
  | [] => slice originalContent cursor (len originalContent)
  | (s, e, replacement) :: blocks' =>
      slice originalContent cursor s ++ replacement
      ++ spliceFrom originalContent e blocks'
  end.

(** The matched ranges of [blocks] are in order inside the original, from
    [cursor] on: [cursor <= s1 <= e1 <= s2 <= ... <= sN <= eN <= len]. *)
Fixpoint rangesInOrder (originalContent : jsstring) (cursor : Z)
    (blocks : list (Z * Z * jsstring)) : bool :=
  match blocks with
  | [] => cursor <=? len originalContent
  | (s, e, _) :: blocks' =>
      (cursor <=? s) && (s <=? e) && rangesInOrder originalContent e blocks'
  end.

(** By how much a splice of [blocks] is longer than the original: for each
    block, the length of its replacement minus the length of its range. *)
Fixpoint spliceGrowth (blocks : list (Z * Z * jsstring)) : Z :=
  match blocks with
  | [] => 0
  | (s, e, replacement) :: blocks' =>
      len replacement - (e - s) + spliceGrowth blocks'
  end.

(** A file just over the size threshold: three short lines, then one long
    line of spaces. *)
Definition largeOriginal : jsstring :=
  unlines ["a"; "b"; "c"] ++ replicate (Z.to_nat LineIndex.SIZE_THRESHOLD) 32%N.


(** The state between two blocks: no block is open and nothing is left of
    the last one. *)
Definition idleState (sb : StringBuilder.t) (cursor : Z)
    (rs : list ChangeRegion) (emitted : Z) : state :=
  {| result := sb; lastProcessedIndex := cursor; regions := rs;
     resultLength := emitted; searchSegments := []; replaceSegments := [];
     inSearch := false; inReplace := false; searchMatchIndex := -1;
     searchEndIndex := -1; replacementStartOffset := -1 |}.

(** The state after the search lines [ls] of an open block. *)
Definition addSearchLines (st : state) (ls : list jsstring) : state :=
  {| result := result st; lastProcessedIndex := lastProcessedIndex st;
     regions := regions st; resultLength := resultLength st;
     searchSegments := searchSegments st ++ ls;
     replaceSegments := replaceSegments st;
     inSearch := inSearch st; inReplace := inReplace st;
     searchMatchIndex := searchMatchIndex st;
     searchEndIndex := searchEndIndex st;
     replacementStartOffset := replacementStartOffset st |}.

(** The state after the replacement lines [ls] of a block whose match is
    known. *)
Definition addReplaceLines (st : state) (ls : list jsstring) : state :=
  {| result := fold_left StringBuilder.appendLine ls (result st);
     lastProcessedIndex := lastProcessedIndex st;
     regions := regions st;
     resultLength := resultLength st + len (emitLines ls);
     searchSegments := searchSegments st;
     replaceSegments := replaceSegments st ++ ls;
     inSearch := inSearch st; inReplace := inReplace st;
     searchMatchIndex := searchMatchIndex st;
     searchEndIndex := searchEndIndex st;
     replacementStartOffset := replacementStartOffset st |}.

(** The state after [=======] when the search content was found at
    [[s, e)]. *)
Definition matchedState (originalContent : jsstring) (st : state) (s e : Z)
    : state :=
  let emitPrefix := s >? lastProcessedIndex st in
  let emitted :=
    if emitPrefix then resultLength st + (s - lastProcessedIndex st)
    else resultLength st in
  {| result :=
       if emitPrefix
       then StringBuilder.appendSlice (result st) originalContent
              (lastProcessedIndex st) s
       else result st;
     lastProcessedIndex := lastProcessedIndex st;
     regions := regions st;
     resultLength := emitted;
     searchSegments := searchSegments st;
     replaceSegments := replaceSegments st;
     inSearch := false; inReplace := true;
     searchMatchIndex := s; searchEndIndex := e;
     replacementStartOffset := emitted |}.

(** The change region recorded when a block is closed in state [st]. *)
Definition regionOf (st : state) : ChangeRegion :=
  {| startLine :=
       getLineNumberFromOffset (StringBuilder.toString (result st))
         (replacementStartOffset st);
     endLine :=
       getLineNumberFromOffset (StringBuilder.toString (result st))
         (resultLength st);
     startOffset := replacementStartOffset st;
     endOffset := resultLength st |}.

(** The state after [<<<<<<< SEARCH], coming from [idleState]. *)
Definition openedState (sb : StringBuilder.t) (cursor : Z)
    (rs : list ChangeRegion) (emitted : Z) : state :=
  {| result := sb; lastProcessedIndex := cursor; regions := rs;
     resultLength := emitted; searchSegments := []; replaceSegments := [];
     inSearch := true; inReplace := false; searchMatchIndex := -1;
     searchEndIndex := -1; replacementStartOffset := -1 |}.

(** The state just before the [>>>>>>> REPLACE] of a block with search
    lines [searchBody] found at [[s, e)] and replacement lines
    [replaceBody]. *)
Definition blockBodyState (originalContent : jsstring) (sb : StringBuilder.t)
    (cursor : Z) (rs : list ChangeRegion) (emitted : Z)
    (searchBody replaceBody : list jsstring) (s e : Z) : state :=
  addReplaceLines
    (matchedState originalContent
       (addSearchLines (openedState sb cursor rs emitted) searchBody) s e)
    replaceBody.

(** The state after that [>>>>>>> REPLACE]. *)
Definition blockClosedState (originalContent : jsstring) (sb : StringBuilder.t)
    (cursor : Z) (rs : list ChangeRegion) (emitted : Z)
    (searchBody replaceBody : list jsstring) (s e : Z) : state :=
  let body :=
    blockBodyState originalContent sb cursor rs emitted
      searchBody replaceBody s e in
  idleState (result body) e (rs ++ [regionOf body]) (resultLength body).

(** The test of the early exit after a block:
    no [<<<<<<< SEARCH] in [diffContent] after its first [>>>>>>> REPLACE]. *)
Definition noSearchAfterFirstReplace (diffContent : jsstring) : bool :=
  negb (includes
          (slice_from diffContent
             (indexOf diffContent REPLACE_MARKER + len REPLACE_MARKER))
          SEARCH_MARKER).

(** *** Notions for the line matchers *)

(** The lines [pos], [pos + 1], ... of [lines] exist, as many as there are
    search lines, and equal the search lines once both are trimmed. *)
Definition trimmedBlockAt (lines searchLines : list jsstring) (pos : Z) : Prop :=
  0 ≤ pos
  ∧ trim <$> take (length searchLines) (drop (Z.to_nat pos) lines)
    = trim <$> searchLines.

#[global] Instance trimmedBlockAt_dec lines searchLines pos :
  Decision (trimmedBlockAt lines searchLines pos).
Proof. unfold trimmedBlockAt. apply _. Defined.

(** The [size] lines from [pos] on exist, the first of them is [first]
    after trimming and the last of them is [last] after trimming. *)
Definition anchoredBlockAt (lines : list jsstring) (first last : jsstring)
    (size pos : Z) : Prop :=
  0 ≤ pos ∧ pos + size ≤ len lines
  ∧ trim (line_at lines pos) = first
  ∧ trim (line_at lines (pos + size - 1)) = last.

#[global] Instance anchoredBlockAt_dec lines first last size pos :
  Decision (anchoredBlockAt lines first last size pos).
Proof. unfold anchoredBlockAt. apply _. Defined.

(** The offsets of the [size] lines from line [pos] on, each line counted
    with one line feed. *)
Definition blockRange (lines : list jsstring) (pos size : Z) : Z * Z :=
  let a := len (emitLines (take (Z.to_nat pos) lines)) in
  (a, a + len (emitLines (take (Z.to_nat size) (drop (Z.to_nat pos) lines)))).

(** The reference search: the range of the first line number at or after
    [start] that satisfies [P]. *)
Definition firstBlock (P : Z → Prop) `{!∀ p, Decision (P p)}
    (lines : list jsstring) (start size : Z) : option (Z * Z) :=
  pos ← head (filter (λ p, start ≤ p ∧ P p) (seqZ 0 (len lines)));
  Some (blockRange lines pos size).

(** [r] is the least number that satisfies [P], or [None] if none does. *)
Definition firstSuch (P : Z → Prop) (r : option Z) : Prop :=
  match r with
  | Some p => P p ∧ ∀ q, q < p → ¬ P q
  | None => ∀ q, ¬ P q
  end.

(** The offset at which line [q] of [lines] starts. *)
Definition lineStart (lines : list jsstring) (q : Z) : Z :=
  len (emitLines (take (Z.to_nat q) lines)).

(** *** Notions for the change regions *)

(** Diff lines without a malformed block so far, read from parser state
    [p]: as [wellFormedFrom], but the lines may end inside a block, as the
    diff of a call that is not final does. *)
Fixpoint noMalformedFrom (p : parserState) (lines : list jsstring) : bool :=
  match lines with
  | [] => true
  | line :: lines' =>
      if streq line SEARCH_MARKER then
        negb (inReplaceState p) && noMalformedFrom InSearch lines'
      else if streq line SEPARATOR_MARKER then
        negb (inReplaceState p) && noMalformedFrom InReplace lines'
      else if streq line REPLACE_MARKER then
        inReplaceState p && noMalformedFrom Idle lines'
      else noMalformedFrom p lines'
  end.

(** The change region [region] delimits [replacement] in [text]: its
    offsets are those of an occurrence of [replacement] in [text] and its
    line numbers are those of its offsets. *)
Definition regionDelimits (text : jsstring) (region : ChangeRegion)
    (replacement : jsstring) : Prop :=
  0 ≤ startOffset region
  ∧ endOffset region = startOffset region + len replacement
  ∧ endOffset region ≤ len text
  ∧ slice text (startOffset region) (endOffset region) = replacement
  ∧ startLine region = getLineNumberFromOffset text (startOffset region)
  ∧ endLine region = getLineNumberFromOffset text (endOffset region).

(** [r1] ends where [r2] starts, or before. *)
Definition regionBefore (r1 r2 : ChangeRegion) : Prop :=
  endOffset r1 ≤ startOffset r2.

(** The change regions [rs] delimit the replacement texts [reps] in [text],
    one by one and in ascending order without overlap. *)
Definition regionsDelimit (text : jsstring) (rs : list ChangeRegion)
    (reps : list jsstring) : Prop :=
  Forall2 (regionDelimits text) rs reps ∧ StronglySorted regionBefore rs.

(** The bookkeeping of the line loop: the emitted length is the length of
    the result, in the replace state the replacement lines read so far are
    what the result holds after the offset at which the replacement starts,
    and the regions recorded so far delimit the replacement texts [reps] in
    [base], the part of the result before the block in progress. *)
Definition regionsInvariant (st : state) (base : jsstring)
    (reps : list jsstring) : Prop :=
  resultLength st = len (StringBuilder.toString (result st))
  ∧ (if inReplace st
     then replacementStartOffset st + len (emitLines (replaceSegments st))
          = resultLength st
     else True)
  ∧ regionsDelimit base (regions st) reps.

(** *** Notions for the exact-match step *)

(** What a bad-character table holds for the first [k] code units of the
    pattern: for a code unit among them, [m - 1] minus its last index
    below [k]; nothing for any other code unit. *)
Definition badCharTableFor (pattern : jsstring) (m k : Z)
    (table : gmap N Z) : Prop :=
  ∀ c, match table !! c with
       | Some v =>
           ∃ i : nat, Z.of_nat i < k ∧ pattern !! i = Some c
                      ∧ v = m - 1 - Z.of_nat i
                      ∧ ∀ i' : nat, (i < i')%nat → Z.of_nat i' < k →
                                   pattern !! i' ≠ Some c
       | None => ∀ i : nat, Z.of_nat i < k → pattern !! i ≠ Some c
       end.
(* ================================================================= *)
(** ** The seed scenarios of the specification, run on the model *)
(* ================================================================= *)

Example scenario_exact_replacement :
  constructNewFileContent
    (unlines ["<<<<<<< SEARCH"; "function add(a, b) {"; "  return a + b;"; "}";
              "======="; "function add(a, b) {"; "  // Add two numbers";
              "  return a + b;"; "}"; ">>>>>>> REPLACE"])
    (unlines ["function add(a, b) {"; "  return a + b;"; "}"]) true
  = inl {| content := unlines ["function add(a, b) {"; "  // Add two numbers";
                               "  return a + b;"; "}"];
           changedRegions :=
             [ {| startLine := 0; endLine := 4;
                  startOffset := 0; endOffset := 60 |} ] |}.
Proof. vm_compute. reflexivity. Qed.

Example scenario_two_blocks :
  constructNewFileContent
    (unlines ["<<<<<<< SEARCH"; "const x = 5;"; "======="; "const x = 50;";
              ">>>>>>> REPLACE";
              "<<<<<<< SEARCH"; "const z = 15;"; "======="; "const z = 150;";
              ">>>>>>> REPLACE"])
    (unlines ["const x = 5;"; "const y = 10;"; "const z = 15;"]) true
  = inl {| content := unlines ["const x = 50;"; "const y = 10;"; "const z = 150;"];
           changedRegions :=
             [ {| startLine := 0; endLine := 1;
                  startOffset := 0; endOffset := 14 |};
               {| startLine := 2; endLine := 3;
                  startOffset := 28; endOffset := 43 |} ] |}.
Proof. vm_compute. reflexivity. Qed.

Example scenario_line_trimmed :
  constructNewFileContent
    (unlines ["<<<<<<< SEARCH"; "function subtract(a, b) {"; "  return a - b;";
              "}"; "======="; "function subtract(a, b) {"; "  return b - a;";
              "}"; ">>>>>>> REPLACE"])
    (unlines ["function subtract(a, b) {"; "    return a - b;"; "}"]) true
  = inl {| content := unlines ["function subtract(a, b) {"; "  return b - a;"; "}"];
           changedRegions :=
             [ {| startLine := 0; endLine := 3;
                  startOffset := 0; endOffset := 44 |} ] |}.
Proof. vm_compute. reflexivity. Qed.

Example scenario_block_anchor :
  constructNewFileContent
    (unlines ["<<<<<<< SEARCH"; "function process() {"; "  a();"; "  b();"; "}";
              "======="; "function process() {"; "  z();"; "}";
              ">>>>>>> REPLACE"])
    (unlines ["head"; "function process() {"; "  step1();"; "  step2();"; "}";
              "tail"]) true
  = inl {| content := unlines ["head"; "function process() {"; "  z();"; "}";
                               "tail"];
           changedRegions :=
             [ {| startLine := 1; endLine := 4;
                  startOffset := 5; endOffset := 35 |} ] |}.
Proof. vm_compute. reflexivity. Qed.

Example scenario_no_match :
  constructNewFileContent
    (unlines ["<<<<<<< SEARCH"; "function nope() {"; "======="; "x";
              ">>>>>>> REPLACE"])
    (unlines ["function test() {"; "  return true;"; "}"]) true
  = inr (noMatchMessage (nl "function nope() {")).
Proof. vm_compute. reflexivity. Qed.

(* ================================================================= *)
(** ** Basic facts about the string primitives *)
(* ================================================================= *)

Lemma len_nil {A} : len (@nil A) = 0.
Proof. reflexivity. Qed.

Lemma len_cons {A} (x : A) (l : list A) : len (x :: l) = 1 + len l.
Proof. unfold len. simpl. lia. Qed.

Lemma len_app {A} (l1 l2 : list A) : len (l1 ++ l2) = len l1 + len l2.
Proof. unfold len. rewrite length_app. lia. Qed.

Lemma len_nonneg {A} (l : list A) : 0 ≤ len l.
Proof. unfold len. lia. Qed.

Lemma len_zero_nil {A} (l : list A) : len l = 0 → l = [].
Proof. destruct l; [done|]. rewrite len_cons. pose proof (len_nonneg l). lia. Qed.

(** Closes [x ∈ l → False] for a literal list [l] that does not hold [x]. *)
Ltac absurd_elem_of H :=
  vm_compute in H;
  repeat (apply elem_of_cons in H as [H|H]; [discriminate H|]);
  by apply elem_of_nil in H.

Lemma streq_spec (a b : jsstring) : streq a b = true ↔ a = b.
Proof.
  revert b. induction a as [|x a IH]; intros [|y b]; simpl; try (split; done).
  rewrite andb_true_iff, N.eqb_eq, IH. split.
  - intros [-> ->]. reflexivity.
  - intros [= -> ->]. done.
Qed.

Lemma streq_refl (a : jsstring) : streq a a = true.
Proof. by apply streq_spec. Qed.

Lemma streq_neq (a b : jsstring) : a ≠ b → streq a b = false.
Proof.
  intros Hne. destruct (streq a b) eqn:E; [|done].
  apply streq_spec in E. done.
Qed.

(** On an ordinary line the loop body reduces to accumulating the line. *)
Lemma step_ordinary diff original isFinal idx st line :
  ordinary line →
  step diff original isFinal idx st line = onContentLine line st.
Proof.
  intros (Hs & Hm & Hr). unfold step.
  by rewrite !streq_neq.
Qed.

Lemma step_search_marker diff original isFinal idx st :
  step diff original isFinal idx st SEARCH_MARKER = onSearchMarker st.
Proof. reflexivity. Qed.

Lemma step_separator diff original isFinal idx st :
  step diff original isFinal idx st SEPARATOR_MARKER
  = onSeparator original idx st.
Proof. reflexivity. Qed.

Lemma step_replace_marker diff original isFinal idx st :
  step diff original isFinal idx st REPLACE_MARKER
  = onReplaceMarker diff original isFinal REPLACE_MARKER st.
Proof. reflexivity. Qed.

(** Running the loop over two runs of lines in a row. *)
Lemma processLines_app diff original isFinal idx ls1 ls2 st :
  processLines diff original isFinal idx (ls1 ++ ls2) st
  = match processLines diff original isFinal idx ls1 st with
    | Continue st' => processLines diff original isFinal idx ls2 st'
    | stop => stop
    end.
Proof.
  revert st. induction ls1 as [|l ls1 IH]; intros st; simpl; [done|].
  destruct (step diff original isFinal idx st l); auto.
Qed.

(** Outside a block, ordinary lines leave the state alone. *)
Lemma processLines_idle diff original isFinal idx ls st :
  Forall ordinary ls → inSearch st = false → inReplace st = false →
  processLines diff original isFinal idx ls st = Continue st.
Proof.
  intros Hall Hs Hr. induction Hall as [|l ls Hl _ IH]; simpl; [done|].
  rewrite step_ordinary by done. unfold onContentLine. by rewrite Hs, Hr.
Qed.

Lemma elem_of_removelast {A} (x : A) (l : list A) :
  x ∈ removelast l → x ∈ l.
Proof.
  induction l as [|y l IH]; simpl; [done|].
  destruct l as [|z l]; [by intros ?%elem_of_nil|].
  intros [->|Hin]%elem_of_cons; [left|right; auto].
Qed.

Lemma elem_of_diffLines l diff : l ∈ diffLines diff → l ∈ split_lines diff.
Proof.
  unfold diffLines.
  destruct (_ && _); [apply elem_of_removelast|done].
Qed.

(* ================================================================= *)
(** ** C10: a chunk without markers, on a non-final call *)
(* ================================================================= *)

(** C10.  For every original content and every diff chunk none of whose
    lines is a marker, the non-final call returns empty content and no
    change region: the original is not echoed back. *)
Theorem nonfinal_chunk_without_markers (diff original : jsstring) :
  (∀ l, l ∈ split_lines diff → ordinary l) →
  constructNewFileContent diff original false
  = inl {| content := []; changedRegions := [] |}.
Proof.
  intros Hord. unfold constructNewFileContent. simpl.
  rewrite processLines_idle; [reflexivity| |reflexivity|reflexivity].
  apply Forall_forall. intros l Hl. apply Hord. by apply elem_of_diffLines.
Qed.

Lemma nonfinal_chunk_without_markers_witness :
  (∀ l, l ∈ split_lines (unlines ["const x = 1;"; "=== not a marker"]) →
        ordinary l)
  ∧ constructNewFileContent (unlines ["const x = 1;"; "=== not a marker"])
      (unlines ["keep"; "me"]) false
    = inl {| content := []; changedRegions := [] |}.
Proof.
  assert (H : ∀ l, l ∈ split_lines (unlines ["const x = 1;"; "=== not a marker"])
                   → ordinary l).
  { intros l Hl. vm_compute in Hl.
    repeat (apply elem_of_cons in Hl as [->|Hl]; [repeat split; discriminate|]).
    by apply elem_of_nil in Hl. }
  split; [exact H|].
  apply (nonfinal_chunk_without_markers _ _ H).
Defined.

(* ================================================================= *)
(** ** C2: the exact-match step *)
(* ================================================================= *)

(** An empty pattern is found at the cursor at once. *)
Lemma boyerMooreSearch_empty_pattern (text : jsstring) (cursor : Z) :
  boyerMooreSearch text [] cursor = cursor.
Proof. reflexivity. Qed.

(** C2.  [boyerMooreSearch] does not always return the first occurrence at
    or after the cursor: in ["cabab"] the pattern ["bab"] occurs at index 2,
    and the search from 0 returns -1.  The window at offset 0 fails on its
    leftmost code unit ["c"], which is not in the pattern, and the shift
    taken is the whole pattern length, past the occurrence. *)
Theorem boyerMooreSearch_skips_occurrence :
  occursAt (str "cabab") (str "bab") 2
  ∧ boyerMooreSearch (str "cabab") (str "bab") 0 = -1.
Proof. vm_compute. repeat split; congruence. Qed.

(* ================================================================= *)
(** ** C4: [>>>>>>> REPLACE] while still in the search state *)
(* ================================================================= *)

(** The state after [<<<<<<< SEARCH] and the search lines [foo]. *)
Lemma processLines_open_block diff original isFinal :
  processLines diff original isFinal None
    [SEARCH_MARKER; str "foo"] initialState
  = Continue
      {| result := StringBuilder.empty; lastProcessedIndex := 0; regions := [];
         resultLength := 0; searchSegments := [str "foo"];
         replaceSegments := []; inSearch := true; inReplace := false;
         searchMatchIndex := -1; searchEndIndex := -1;
         replacementStartOffset := -1 |}.
Proof. reflexivity. Qed.

(** Whenever [>>>>>>> REPLACE] is reached while no match is set
    ([searchEndIndex] is -1, as it is from the start of the call and after
    every closed block), the cursor of the next state is -1. *)
Lemma onReplaceMarker_without_match diff original st st' :
  searchEndIndex st = -1 →
  onReplaceMarker diff original false REPLACE_MARKER st = Continue st' →
  lastProcessedIndex st' = -1.
Proof. intros Hend [= <-]. exact Hend. Qed.

(** C4.  A [>>>>>>> REPLACE] line that arrives in the search state is not
    dropped without effect: the cursor becomes -1, the value of the unset
    [searchEndIndex].  On the final call for the original ["abc"] the diff
    [<<<<<<< SEARCH / foo / >>>>>>> REPLACE] then returns ["c"]
    ([slice(-1, 3)]), whereas the same call without these three lines
    returns ["abc"]. *)
Theorem replace_marker_in_search_state_moves_cursor :
  (∀ st', step (unlines ["<<<<<<< SEARCH"; "foo"; ">>>>>>> REPLACE"])
            (str "abc") false None
            {| result := StringBuilder.empty; lastProcessedIndex := 0;
               regions := []; resultLength := 0;
               searchSegments := [str "foo"]; replaceSegments := [];
               inSearch := true; inReplace := false;
               searchMatchIndex := -1; searchEndIndex := -1;
               replacementStartOffset := -1 |}
            REPLACE_MARKER = Continue st' →
          lastProcessedIndex st' = -1)
  ∧ constructNewFileContent
      (unlines ["<<<<<<< SEARCH"; "foo"; ">>>>>>> REPLACE"]) (str "abc") true
    = inl {| content := str "c"; changedRegions := [] |}
  ∧ constructNewFileContent [] (str "abc") true
    = inl {| content := str "abc"; changedRegions := [] |}.
Proof.
  split; [|split; vm_compute; reflexivity].
  intros st'. vm_compute. intros [= <-]. reflexivity.
Qed.

(* ================================================================= *)
(** ** C7: the three-line guard of the block-anchor match *)
(* ================================================================= *)

(** The guard as written: fewer than three pieces between line feeds,
    counting the empty piece after a final line feed. *)
Lemma blockAnchorFallbackMatch_guard original search cursor idx :
  len (split_lines search) < 3 →
  blockAnchorFallbackMatch original search cursor idx = None.
Proof.
  intros Hlt. apply Z.ltb_lt in Hlt.
  unfold blockAnchorFallbackMatch, blockAnchorIndexed, blockAnchorDirect.
  rewrite Hlt. by destruct idx, (LineIndex.shouldUseIndex original).
Qed.

(** C7.  The guard counts the lines before the trailing empty line is
    dropped, so a search content of two lines that ends with a line feed
    passes it: here the two-line body [" x" / "y "] is matched on its
    anchors. *)
Theorem blockAnchorFallbackMatch_accepts_two_lines :
  popTrailingEmptyLine (split_lines (unlines [" x"; "y "]))
  = [str " x"; str "y "]
  ∧ blockAnchorFallbackMatch (unlines ["x"; "y"]) (unlines [" x"; "y "]) 0 None
    = Some (0, 4).
Proof. vm_compute. split; reflexivity. Qed.


(* ================================================================= *)
(** ** C2, continued: what the exact-match step does guarantee *)
(* ================================================================= *)

Lemma matchRightToLeft_all text pattern offset jp1 :
  matchRightToLeft text pattern offset jp1 < 0 →
  ∀ j, (j < jp1)%nat →
    codeUnitEq (pattern !! j) (char_at text (offset + Z.of_nat j)) = true.
Proof.
  induction jp1 as [|n IH]; simpl; [lia|].
  destruct (codeUnitEq _ _) eqn:E; [|lia].
  intros Hall j Hj. destruct (decide (j = n)) as [->|]; [done|].
  apply IH; [done|lia].
Qed.

Lemma codeUnitEq_Some a b x : codeUnitEq a b = true → a = Some x → b = Some x.
Proof.
  destruct a as [y|], b as [z|]; simpl; try done.
  intros ->%N.eqb_eq. done.
Qed.

(** A window that matches from right to left is an occurrence. *)
Lemma matchRightToLeft_occurrence text pattern offset :
  pattern ≠ [] →
  matchRightToLeft text pattern offset (length pattern) < 0 →
  occursAt text pattern offset.
Proof.
  intros Hne Hall.
  pose proof (matchRightToLeft_all _ _ _ _ Hall) as Hchars.
  assert (Hat : ∀ j p, pattern !! j = Some p →
                       char_at text (offset + Z.of_nat j) = Some p).
  { intros j p Hp. eapply codeUnitEq_Some; [|exact Hp].
    apply Hchars. by eapply lookup_lt_Some. }
  assert (Hoffset : 0 ≤ offset).
  { destruct pattern as [|p pattern]; [done|].
    specialize (Hat 0%nat p eq_refl). unfold char_at in Hat.
    destruct (Z.ltb_spec (offset + Z.of_nat 0) 0); [done|lia]. }
  assert (Htext : ∀ j p, pattern !! j = Some p →
                         text !! (Z.to_nat offset + j)%nat = Some p).
  { intros j p Hp. specialize (Hat j p Hp). unfold char_at in Hat.
    destruct (Z.ltb_spec (offset + Z.of_nat j) 0); [lia|].
    by replace (Z.to_nat offset + j)%nat with (Z.to_nat (offset + Z.of_nat j))
      by lia. }
  split; [done|]. split.
  - apply list_eq. intros j.
    destruct (pattern !! j) as [p|] eqn:Hp.
    + rewrite lookup_take_lt by (by eapply lookup_lt_Some).
      rewrite lookup_drop. by apply Htext.
    + apply lookup_ge_None in Hp. apply lookup_ge_None.
      rewrite length_take. lia.
  - destruct (pattern !! (length pattern - 1)%nat) as [p|] eqn:Hp.
    + apply Htext, lookup_lt_Some in Hp.
      destruct pattern; [done|]. unfold len. simpl in *. lia.
    + apply lookup_ge_None in Hp. destruct pattern; [done|]. simpl in Hp. lia.
Qed.

Lemma bmLoop_sound fuel text pattern table offset :
  bmLoop fuel text pattern table offset ≠ -1 →
  matchRightToLeft text pattern
    (bmLoop fuel text pattern table offset) (length pattern) < 0.
Proof.
  revert offset. induction fuel as [|fuel IH]; intros offset; simpl; [done|].
  destruct (offset <=? len text - len pattern); [|done].
  destruct (Z.ltb_spec (matchRightToLeft text pattern offset (length pattern)) 0);
    [done|].
  apply IH.
Qed.

(** The index [boyerMooreSearch] returns for a non-empty pattern, when it is
    not -1, is the index of an occurrence: the defect of C2 is missed
    occurrences, not wrong ones. *)
Lemma boyerMooreSearch_sound text pattern cursor :
  pattern ≠ [] →
  boyerMooreSearch text pattern cursor ≠ -1 →
  occursAt text pattern (boyerMooreSearch text pattern cursor).
Proof.
  intros Hne. unfold boyerMooreSearch.
  destruct (Z.eqb_spec (len pattern) 0) as [Hz|_].
  { by apply len_zero_nil in Hz. }
  destruct (len pattern >? len text - cursor); [done|].
  intros Hfound. apply matchRightToLeft_occurrence; [done|].
  by apply bmLoop_sound.
Qed.

(** The defect reaches the caller.  The search content of the block below,
    two lines [}], occurs in the original at offset 2 (after [xx]); the
    exact search misses it, the occurrence is not on a line boundary, so the
    line-based strategies do not find it either, and the call fails. *)
Example missed_occurrence_fails_the_call :
  occursAt (unlines ["xx}"; "}"]) (searchContentOf [str "}"; str "}"]) 2
  ∧ constructNewFileContent
      (unlines ["<<<<<<< SEARCH"; "}"; "}"; "======="; "}";
                ">>>>>>> REPLACE"])
      (unlines ["xx}"; "}"]) true
    = inr (noMatchMessage (searchContentOf [str "}"; str "}"])).
Proof. vm_compute. repeat split; congruence. Qed.
(* ================================================================= *)
(** ** Slices, lines and joins *)
(* ================================================================= *)

Lemma rel_index_nonneg n i : 0 ≤ i → rel_index n i = Z.min i n.
Proof. intros Hi. unfold rel_index. destruct (Z.ltb_spec i 0); [lia|done]. Qed.

Lemma slice_nonneg (s : jsstring) a b :
  0 ≤ a → 0 ≤ b →
  slice s a b
  = take (Z.to_nat (Z.min b (len s) - Z.min a (len s)))
      (drop (Z.to_nat (Z.min a (len s))) s).
Proof. intros Ha Hb. unfold slice. by rewrite !rel_index_nonneg. Qed.

Lemma slice_all (s : jsstring) : slice s 0 (len s) = s.
Proof.
  rewrite slice_nonneg by (pose proof (len_nonneg s); lia).
  pose proof (len_nonneg s).
  replace (Z.min 0 (len s)) with 0 by lia. rewrite Z.min_id. simpl.
  rewrite Z.sub_0_r. unfold len. rewrite Nat2Z.id. apply firstn_all.
Qed.

Lemma slice_empty (s : jsstring) a b : 0 ≤ b → b ≤ a → slice s a b = [].
Proof.
  intros Hb Hab. rewrite slice_nonneg by lia.
  replace (Z.to_nat _) with 0%nat by lia. reflexivity.
Qed.

Lemma slice_past_end (s : jsstring) a b : len s ≤ a → slice s a b = [].
Proof.
  intros Ha. pose proof (len_nonneg s). unfold slice.
  rewrite (rel_index_nonneg _ a) by lia.
  rewrite drop_ge; [by rewrite take_nil|]. unfold len in *. lia.
Qed.

Lemma slice_middle (p m q : jsstring) :
  slice (p ++ m ++ q) (len p) (len p + len m) = m.
Proof.
  pose proof (len_nonneg p). pose proof (len_nonneg m).
  pose proof (len_nonneg q).
  rewrite slice_nonneg by lia. rewrite !len_app.
  replace (Z.min (len p) _) with (len p) by lia.
  replace (Z.min (len p + len m) _) with (len p + len m) by lia.
  replace (len p + len m - len p) with (len m) by lia.
  unfold len. rewrite !Nat2Z.id.
  rewrite drop_app_length. by rewrite take_app_length.
Qed.

Lemma slice_suffix (p m : jsstring) b :
  len (p ++ m) ≤ b → slice (p ++ m) (len p) b = m.
Proof.
  intros Hb. pose proof (len_nonneg p). pose proof (len_nonneg m).
  rewrite len_app in Hb.
  rewrite slice_nonneg by lia. rewrite !len_app.
  replace (Z.min (len p) _) with (len p) by lia.
  replace (Z.min b _) with (len p + len m) by lia.
  replace (len p + len m - len p) with (len m) by lia.
  unfold len. rewrite !Nat2Z.id.
  rewrite drop_app_length. apply firstn_all.
Qed.

Lemma split_lines_nonempty (s : jsstring) : split_lines s ≠ [].
Proof.
  induction s as [|c s IH]; simpl; [done|].
  destruct (N.eqb c LF); [done|]. by destruct (split_lines s).
Qed.

Lemma join_split (s : jsstring) : join_lines (split_lines s) = s.
Proof.
  induction s as [|c s IH]; simpl; [done|].
  destruct (N.eqb_spec c LF) as [->|Hne].
  - pose proof (split_lines_nonempty s) as Hne.
    destruct (split_lines s) as [|l ls] eqn:E; [done|].
    change (join_lines ([] :: l :: ls)) with (LF :: join_lines (l :: ls)).
    by rewrite IH.
  - pose proof (split_lines_nonempty s) as Hne'.
    destruct (split_lines s) as [|l ls] eqn:E; [done|].
    rewrite <- IH. by destruct ls.
Qed.

Lemma emitLines_app (ls1 ls2 : list jsstring) :
  emitLines (ls1 ++ ls2) = emitLines ls1 ++ emitLines ls2.
Proof. unfold emitLines. by rewrite map_app, concat_app. Qed.

Lemma emitLines_cons (l : jsstring) (ls : list jsstring) :
  emitLines (l :: ls) = (l ++ [LF]) ++ emitLines ls.
Proof. reflexivity. Qed.

(** A joined text, cut at one of its lines. *)
Lemma join_lines_cut (pre : list jsstring) (l : jsstring) (post : list jsstring) :
  join_lines (pre ++ l :: post)
  = emitLines pre ++ l
    ++ match post with [] => [] | _ => LF :: join_lines post end.
Proof.
  induction pre as [|p pre IH].
  - simpl. destruct post; [by rewrite app_nil_r|done].
  - change ((p :: pre) ++ l :: post) with (p :: (pre ++ l :: post)).
    rewrite emitLines_cons.
    destruct (pre ++ l :: post) as [|x xs] eqn:E; [by destruct pre|].
    change (join_lines (p :: x :: xs)) with (p ++ LF :: join_lines (x :: xs)).
    rewrite IH. by rewrite <- !app_assoc.
Qed.

Lemma len_join_lines (ls : list jsstring) :
  ls ≠ [] → len (join_lines ls) + 1 = len (emitLines ls).
Proof.
  induction ls as [|l ls IH]; [done|]. intros _.
  rewrite emitLines_cons, !len_app. destruct ls as [|x xs].
  - change (join_lines [l]) with l. change (emitLines []) with (@nil N).
    rewrite len_cons, !len_nil. lia.
  - change (join_lines (l :: x :: xs)) with (l ++ LF :: join_lines (x :: xs)).
    rewrite len_app, !len_cons, len_nil. rewrite <- IH by done. lia.
Qed.

Lemma len_slice_in_range (s : jsstring) a b :
  0 ≤ a → a ≤ b → b ≤ len s → len (slice s a b) = b - a.
Proof.
  intros Ha Hab Hb. rewrite slice_nonneg by lia.
  replace (Z.min a (len s)) with a by lia.
  replace (Z.min b (len s)) with b by lia.
  unfold len in *. rewrite length_take, length_drop. lia.
Qed.

Lemma len_slice_clamped (s : jsstring) a b :
  0 ≤ a → a ≤ b → len (slice s a b) = Z.min b (len s) - Z.min a (len s).
Proof.
  intros Ha Hab. rewrite slice_nonneg by lia.
  unfold len in *. rewrite length_take, length_drop. lia.
Qed.

(* ================================================================= *)
(** ** C8: the offsets stored by [LineIndex.buildIndex] *)
(* ================================================================= *)

Lemma arraySet_end (offsets : list Z) (v : Z) :
  LineIndex.arraySet offsets (len offsets) v = offsets ++ [v].
Proof.
  unfold LineIndex.arraySet. rewrite Z.ltb_irrefl, Z.sub_diag. reflexivity.
Qed.

(** The loop stores, for each line, the total length of the lines before it,
    each counted with one line feed. *)
Lemma buildIndexLoop_offsets rest i offset positions offsets :
  i = len offsets →
  (LineIndex.buildIndexLoop rest i offset positions offsets).1.2
  = offsets
    ++ ((λ k, offset + len (emitLines (take k rest))) <$> seq 0 (length rest))
  ∧ (LineIndex.buildIndexLoop rest i offset positions offsets).2
    = offset + len (emitLines rest).
Proof.
  revert i offset positions offsets.
  induction rest as [|l rest IH]; intros i offset positions offsets ->.
  - simpl. rewrite app_nil_r. change (emitLines []) with (@nil N).
    rewrite len_nil. split; [done|lia].
  - cbn [LineIndex.buildIndexLoop]. rewrite arraySet_end.
    destruct (IH (len offsets + 1) (offset + (len l + 1))
                (LineIndex.pushPosition positions (trim l) (len offsets))
                (offsets ++ [offset])) as [-> ->].
    { rewrite len_app, len_cons, len_nil. lia. }
    split.
    + rewrite <- app_assoc. f_equal.
      cbn [length seq fmap list_fmap]. rewrite <- fmap_S_seq, <- list_fmap_compose.
      cbn [app]. f_equal.
      * unfold len. simpl. lia.
      * apply list_fmap_ext. intros _ k _. simpl.
        rewrite emitLines_cons, !len_app, len_cons, len_nil. lia.
    + rewrite emitLines_cons, !len_app, len_cons, len_nil. lia.
Qed.

Lemma lines_buildIndex (content : jsstring) :
  LineIndex.lines (LineIndex.buildIndex content) = split_lines content.
Proof.
  unfold LineIndex.buildIndex.
  by destruct (LineIndex.buildIndexLoop _ _ _ _ _) as [[? ?] ?].
Qed.

Lemma lineToOffset_buildIndex (content : jsstring) :
  LineIndex.lineToOffset (LineIndex.buildIndex content)
  = ((λ k, len (emitLines (take k (split_lines content))))
       <$> seq 0 (S (length (split_lines content)))).
Proof.
  unfold LineIndex.buildIndex.
  destruct (buildIndexLoop_offsets (split_lines content) 0 0 ∅ [] eq_refl)
    as [Ho Hoff].
  destruct (LineIndex.buildIndexLoop _ _ _ _ _) as [[positions offsets] offset].
  simpl in Ho, Hoff. subst. cbn [LineIndex.lineToOffset].
  replace (len (split_lines content))
    with (len ((λ k, 0 + len (emitLines (take k (split_lines content))))
                 <$> seq 0 (length (split_lines content)))).
  2:{ unfold len. by rewrite length_fmap, length_seq. }
  rewrite arraySet_end. rewrite seq_S, fmap_app. simpl.
  rewrite firstn_all. f_equal.
Qed.

Lemma getOffsetForLine_buildIndex (content : jsstring) (i : Z) :
  0 ≤ i ≤ len (split_lines content) →
  LineIndex.getOffsetForLine (LineIndex.buildIndex content) i
  = len (emitLines (take (Z.to_nat i) (split_lines content))).
Proof.
  intros Hi. unfold LineIndex.getOffsetForLine.
  destruct (Z.ltb_spec i 0); [lia|].
  rewrite lineToOffset_buildIndex, list_lookup_fmap, lookup_seq_lt.
  - reflexivity.
  - unfold len in Hi. lia.
Qed.

Lemma getLineCount_buildIndex (content : jsstring) :
  LineIndex.getLineCount (LineIndex.buildIndex content)
  = len (split_lines content).
Proof. unfold LineIndex.getLineCount. by rewrite lines_buildIndex. Qed.

Lemma take_drop_middle_Z {A} (ls : list A) (i : Z) (d : A) :
  0 ≤ i < len ls →
  ∃ l, ls !! Z.to_nat i = Some l
       ∧ ls = take (Z.to_nat i) ls ++ l :: drop (S (Z.to_nat i)) ls.
Proof.
  intros Hi. destruct (ls !! Z.to_nat i) as [l|] eqn:E.
  - exists l. split; [done|]. by rewrite take_drop_middle.
  - apply lookup_ge_None in E. unfold len in Hi. lia.
Qed.

(** C8, as the code has it.  For every content and every line number [i]
    below the line count [n] of its index: the stored offset of line [i] is
    the total length of the lines before it, each with its line feed, and the
    content holds line [i] there; up to the next stored offset the content
    holds line [i] followed by one line feed, except for the last line, which
    is followed by nothing; and the final stored offset, of index [n], is
    the length of the content plus one. *)
Theorem buildIndex_offsets (content : jsstring) (i : Z) :
  let idx := LineIndex.buildIndex content in
  let n := LineIndex.getLineCount idx in
  let offset := LineIndex.getOffsetForLine idx in
  0 ≤ i < n →
  LineIndex.lines idx = split_lines content
  ∧ offset i = len (emitLines (take (Z.to_nat i) (LineIndex.lines idx)))
  ∧ slice content (offset i) (offset i + len (LineIndex.getLineAt idx i))
    = LineIndex.getLineAt idx i
  ∧ slice content (offset i) (offset (i + 1))
    = LineIndex.getLineAt idx i ++ (if i <? n - 1 then [LF] else [])
  ∧ offset n = len content + 1.
Proof.
  intros idx n offset Hi. subst idx n offset.
  rewrite getLineCount_buildIndex in *. rewrite lines_buildIndex.
  pose proof (split_lines_nonempty content) as Hne.
  rewrite !getOffsetForLine_buildIndex by lia.
  destruct (take_drop_middle_Z (split_lines content) i [] Hi) as (l & Hl & Hcut).
  assert (Hline : LineIndex.getLineAt (LineIndex.buildIndex content) i = l).
  { unfold LineIndex.getLineAt, line_at. rewrite lines_buildIndex.
    destruct (Z.ltb_spec i 0); [lia|]. by rewrite Hl. }
  rewrite Hline.
  set (pre := take (Z.to_nat i) (split_lines content)) in *.
  set (post := drop (S (Z.to_nat i)) (split_lines content)) in *.
  assert (Hnext : take (Z.to_nat (i + 1)) (split_lines content) = pre ++ [l]).
  { replace (Z.to_nat (i + 1)) with (S (Z.to_nat i)) by lia.
    by erewrite take_S_r. }
  assert (Hcontent : content
            = emitLines pre ++ l
              ++ match post with [] => [] | _ => LF :: join_lines post end).
  { rewrite <- (join_split content) at 1. rewrite Hcut at 1.
    apply join_lines_cut. }
  split; [done|]. split; [done|]. split; [|split].
  - rewrite Hcontent at 1. apply slice_middle.
  - rewrite Hnext, emitLines_app, len_app.
    assert (Hpost : (i <? len (split_lines content) - 1) = true ↔ post ≠ []).
    { rewrite Z.ltb_lt. subst post. unfold len.
      rewrite <- length_zero_iff_nil, length_drop. lia. }
    destruct post as [|q post].
    + destruct (i <? _); [by destruct (proj1 Hpost)|].
      rewrite app_nil_r in Hcontent |- *. rewrite Hcontent at 1.
      apply slice_suffix. change (emitLines [l]) with ((l ++ [LF]) ++ []).
      rewrite !len_app, len_cons, !len_nil. lia.
    + rewrite (proj2 Hpost) by done. rewrite Hcontent at 1.
      change (emitLines [l]) with ((l ++ [LF]) ++ []). rewrite app_nil_r.
      change (LF :: join_lines (q :: post)) with ([LF] ++ join_lines (q :: post)).
      rewrite (app_assoc l [LF]). apply slice_middle.
  - replace (Z.to_nat (len (split_lines content)))
      with (length (split_lines content)) by (unfold len; lia).
    rewrite firstn_all. rewrite <- (join_split content) at 2.
    by rewrite len_join_lines.
Qed.

Lemma buildIndex_offsets_witness :
  let content := unlines ["ab"; "c"] ++ str "d" in
  let idx := LineIndex.buildIndex content in
  (0 ≤ 1 < LineIndex.getLineCount idx)
  ∧ LineIndex.getOffsetForLine idx 1 = 3
  ∧ slice content (LineIndex.getOffsetForLine idx 1)
      (LineIndex.getOffsetForLine idx 2) = nl "c"
  ∧ LineIndex.getOffsetForLine idx (LineIndex.getLineCount idx)
    = len content + 1.
Proof.
  assert (H : 0 ≤ 1 < LineIndex.getLineCount
                        (LineIndex.buildIndex (unlines ["ab"; "c"] ++ str "d"))).
  { vm_compute. split; [discriminate|reflexivity]. }
  pose proof (buildIndex_offsets (unlines ["ab"; "c"] ++ str "d") 1 H)
    as (_ & H1 & _ & H2 & H3).
  split; [exact H|]. split; [exact H1|]. split; [exact H2|exact H3].
Defined.

(** C8, as the specification states it, fails on its last clause: for the
    one-line content ["ab"] the final stored offset is 3, not the length 2. *)
Lemma lineToOffset_final_is_not_length :
  let idx := LineIndex.buildIndex (str "ab") in
  LineIndex.getOffsetForLine idx (LineIndex.getLineCount idx) = 3
  ∧ LineIndex.getOffsetForLine idx (LineIndex.getLineCount idx)
    ≠ len (str "ab").
Proof. vm_compute. split; [reflexivity|discriminate]. Qed.

(* ================================================================= *)
(** ** C3, continued: the direct scans respect the cursor *)
(* ================================================================= *)

(** The offsets the direct scans compute are the lengths of the lines
    before, each counted with one line feed. *)
Lemma addLineLengths_prefix (originalLines : list jsstring) (c : nat) :
  (c ≤ length originalLines)%nat →
  addLineLengths originalLines 0 (Z.of_nat c) 0
  = len (emitLines (take c originalLines)).
Proof.
  unfold addLineLengths. induction c as [|c IH]; intros Hc.
  - reflexivity.
  - rewrite seqZ_S, fold_left_app, IH by lia. cbn [fold_left].
    destruct (originalLines !! c) as [l|] eqn:Hl.
    2:{ apply lookup_ge_None in Hl. lia. }
    rewrite (take_S_r _ _ l) by done.
    rewrite emitLines_app, len_app. f_equal.
    unfold line_at. destruct (Z.ltb_spec (0 + Z.of_nat c) 0); [lia|].
    replace (Z.to_nat (0 + Z.of_nat c)) with c by lia. rewrite Hl.
    change (emitLines [l]) with ((l ++ [LF]) ++ []).
    rewrite !len_app, len_cons, !len_nil. simpl. lia.
Qed.

Lemma prefix_length_mono (originalLines : list jsstring) (i j : nat) :
  (i ≤ j)%nat →
  len (emitLines (take i originalLines))
  ≤ len (emitLines (take j originalLines)).
Proof.
  intros Hij.
  rewrite <- (take_drop i (take j originalLines)).
  rewrite take_take, emitLines_app, len_app.
  replace (i `min` j)%nat with i by lia.
  pose proof (len_nonneg (emitLines (drop i (take j originalLines)))). lia.
Qed.

(** The start line of the direct scan: either no line is left, or the
    line starts at or after the cursor. *)
Lemma directStartLine_spec rest cursor current start :
  ∃ k : nat,
    directStartLine rest cursor current start = start + Z.of_nat k
    ∧ (k ≤ length rest)%nat
    ∧ ((k < length rest)%nat →
       cursor ≤ current + len (emitLines (take k rest))).
Proof.
  revert current start. induction rest as [|l rest IH]; intros current start.
  - exists 0%nat. simpl. split; [lia|]. split; [lia|]. lia.
  - simpl. destruct (Z.ltb_spec current cursor).
    + destruct (IH (current + (len l + 1)) (start + 1)) as (k & -> & Hk & Hcur).
      exists (S k). split; [lia|]. split; [lia|]. intros Hlt.
      cbn [take]. rewrite emitLines_cons, !len_app, len_cons, len_nil.
      specialize (Hcur ltac:(lia)). lia.
    + exists 0%nat. split; [lia|]. split; [lia|]. intros _.
      change (emitLines (take 0 (l :: rest))) with (@nil N).
      rewrite len_nil. lia.
Qed.

(** A line at or after the start line of the direct scan starts at or after
    the cursor. *)
Lemma direct_position_not_below_cursor originalLines cursor pos :
  directStartLine originalLines cursor 0 0 ≤ pos < len originalLines →
  cursor ≤ addLineLengths originalLines 0 pos 0.
Proof.
  intros [Hstart Hpos].
  destruct (directStartLine_spec originalLines cursor 0 0)
    as (k & Hk & Hle & Hcur).
  rewrite Hk in Hstart. unfold len in Hpos.
  replace pos with (Z.of_nat (Z.to_nat pos)) by lia.
  rewrite addLineLengths_prefix by lia.
  specialize (Hcur ltac:(lia)).
  pose proof (prefix_length_mono originalLines k (Z.to_nat pos) ltac:(lia)).
  lia.
Qed.

Lemma pushPosition_elem m key i key' ps p :
  LineIndex.pushPosition m key i !! key' = Some ps → p ∈ ps →
  p = i ∨ ∃ ps0, m !! key' = Some ps0 ∧ p ∈ ps0.
Proof.
  unfold LineIndex.pushPosition.
  destruct (decide (key = key')) as [<-|Hne].
  - rewrite lookup_insert_eq. intros [= <-].
    intros [Hin|Hin%list_elem_of_singleton]%elem_of_app; [|by left].
    right. destruct (m !! key) as [ps0|] eqn:E.
    + rewrite E in Hin. eauto.
    + rewrite lookup_insert_eq in Hin. by apply elem_of_nil in Hin.
  - rewrite lookup_insert_ne by done. intros Hps Hin. right. exists ps.
    split; [|done]. destruct (m !! key); [done|].
    by rewrite lookup_insert_ne in Hps.
Qed.

(** The map of the direct line-trimmed scan holds line numbers of the
    scanned range only: every candidate position, with the search lines
    after it, is inside the original lines. *)
Lemma buildLineHashMap_positions originalLines startLineNum searchLen key ps p :
  buildLineHashMap originalLines startLineNum searchLen !! key = Some ps →
  p ∈ ps →
  startLineNum ≤ p ≤ len originalLines - searchLen.
Proof.
  unfold buildLineHashMap.
  set (count := len originalLines - searchLen - startLineNum + 1).
  assert (Hrange : ∀ k, k ∈ seqZ startLineNum count →
                        startLineNum ≤ k ≤ len originalLines - searchLen).
  { intros k Hk%elem_of_seqZ. lia. }
  revert Hrange. generalize (seqZ startLineNum count). intros ks Hrange.
  assert (Hempty : ∀ key ps p, (∅ : gmap jsstring (list Z)) !! key = Some ps →
                     p ∈ ps →
                     startLineNum ≤ p ≤ len originalLines - searchLen).
  { intros ? ? ?. by rewrite lookup_empty. }
  revert Hempty key ps p. generalize (∅ : gmap jsstring (list Z)).
  induction ks as [|k ks IH]; intros m Hm key ps p; simpl.
  - apply Hm.
  - apply IH.
    + intros k' Hk'. apply Hrange. by right.
    + intros key' ps' p' Hps' Hp'.
      destruct (pushPosition_elem _ _ _ _ _ _ Hps' Hp') as [->|(ps0 & H0 & Hin)].
      * apply Hrange. by left.
      * by eapply Hm.
Qed.

Lemma lineTrimmedVerify_position originalLines searchLines positions a b :
  lineTrimmedVerify originalLines searchLines positions = Some (a, b) →
  ∃ pos, pos ∈ positions ∧ a = addLineLengths originalLines 0 pos 0.
Proof.
  induction positions as [|pos positions IH]; simpl; [done|].
  destruct (linesMatchAt _ _ _ _).
  - intros [= <- <-]. exists pos. split; [by left|done].
  - intros (p & Hp & Ha)%IH. exists p. split; [by right|done].
Qed.

Lemma lineTrimmedDirect_not_below_cursor original search cursor a b :
  lineTrimmedDirect original search cursor = Some (a, b) → cursor ≤ a.
Proof.
  unfold lineTrimmedDirect.
  destruct (_ || _); [done|].
  destruct (Z.eqb_spec (len (popTrailingEmptyLine (split_lines search))) 0)
    as [|Hlen]; [done|].
  destruct (if _ >? 1 then _ else _); [done|].
  intros (pos & Hpos & ->)%lineTrimmedVerify_position.
  destruct (buildLineHashMap _ _ _ !! _) as [ps|] eqn:Hps;
    [|by apply elem_of_nil in Hpos].
  pose proof (buildLineHashMap_positions _ _ _ _ _ _ Hps Hpos).
  pose proof (len_nonneg (popTrailingEmptyLine (split_lines search))).
  apply direct_position_not_below_cursor. lia.
Qed.

Lemma blockAnchorDirectLoop_position originalLines first last size todo a b :
  blockAnchorDirectLoop originalLines first last size todo = Some (a, b) →
  ∃ i, i ∈ todo ∧ a = addLineLengths originalLines 0 i 0.
Proof.
  induction todo as [|i todo IH]; simpl; [done|].
  destruct (negb _).
  { intros (p & Hp & Ha)%IH. exists p. split; [by right|done]. }
  destruct (negb _).
  { intros (p & Hp & Ha)%IH. exists p. split; [by right|done]. }
  intros [= <- <-]. exists i. split; [by left|done].
Qed.

Lemma len_popTrailingEmptyLine (ls : list jsstring) :
  len ls - 1 ≤ len (popTrailingEmptyLine ls).
Proof.
  unfold popTrailingEmptyLine, pop.
  destruct (last ls) as [[|]|]; try lia.
  destruct ls as [|l ls _] using rev_ind; [simpl; lia|].
  rewrite removelast_last, len_app, len_cons, len_nil. lia.
Qed.

Lemma blockAnchorDirect_not_below_cursor original search cursor a b :
  blockAnchorDirect original search cursor = Some (a, b) → cursor ≤ a.
Proof.
  unfold blockAnchorDirect.
  destruct (Z.ltb_spec (len (split_lines search)) 3); [done|].
  intros (i & Hi%elem_of_seqZ & ->)%blockAnchorDirectLoop_position.
  pose proof (len_popTrailingEmptyLine (split_lines search)).
  apply direct_position_not_below_cursor. lia.
Qed.

(** Without a line index (and with one, on a file that is not above the
    size threshold) no matcher returns a range that starts below the
    cursor. *)
Lemma direct_match_not_below_cursor original search cursor idx a b :
  idx = None ∨ LineIndex.shouldUseIndex original = false →
  (lineTrimmedFallbackMatch original search cursor idx = Some (a, b) →
   cursor ≤ a)
  ∧ (blockAnchorFallbackMatch original search cursor idx = Some (a, b) →
     cursor ≤ a).
Proof.
  intros Hdirect. unfold lineTrimmedFallbackMatch, blockAnchorFallbackMatch.
  destruct idx as [idx|].
  - destruct Hdirect as [? | ->]; [done|].
    split; [apply lineTrimmedDirect_not_below_cursor
           |apply blockAnchorDirect_not_below_cursor].
  - split; [apply lineTrimmedDirect_not_below_cursor
           |apply blockAnchorDirect_not_below_cursor].
Qed.

(** On a file that is not above the size threshold a line index is
    ignored: both matchers run their direct scan. *)
Lemma small_file_ignores_index original search cursor idx :
  LineIndex.shouldUseIndex original = false →
  lineTrimmedFallbackMatch original search cursor (Some idx)
  = lineTrimmedFallbackMatch original search cursor None
  ∧ blockAnchorFallbackMatch original search cursor (Some idx)
    = blockAnchorFallbackMatch original search cursor None.
Proof.
  intros Hsmall. unfold lineTrimmedFallbackMatch, blockAnchorFallbackMatch.
  by rewrite Hsmall.
Qed.

(* ================================================================= *)
(** ** The line loop on the parts of a block *)
(* ================================================================= *)

Lemma toString_append (sb : StringBuilder.t) (s : jsstring) :
  StringBuilder.toString (StringBuilder.append sb s)
  = StringBuilder.toString sb ++ s.
Proof.
  unfold StringBuilder.append, StringBuilder.toString.
  destruct (Z.gtb_spec (len s) 0) as [Hpos|Hzero]; simpl.
  - rewrite concat_app. simpl. by rewrite app_nil_r.
  - pose proof (len_nonneg s).
    rewrite (len_zero_nil s) by lia. by rewrite app_nil_r.
Qed.

Lemma toString_appendLine (sb : StringBuilder.t) (l : jsstring) :
  StringBuilder.toString (StringBuilder.appendLine sb l)
  = StringBuilder.toString sb ++ l ++ [LF].
Proof.
  unfold StringBuilder.appendLine. by rewrite !toString_append, <- app_assoc.
Qed.

Lemma toString_appendLines (sb : StringBuilder.t) (ls : list jsstring) :
  StringBuilder.toString (fold_left StringBuilder.appendLine ls sb)
  = StringBuilder.toString sb ++ emitLines ls.
Proof.
  revert sb. induction ls as [|l ls IH]; intros sb; simpl.
  - by rewrite app_nil_r.
  - rewrite IH, toString_appendLine, emitLines_cons. by rewrite <- !app_assoc.
Qed.

Lemma toString_appendSlice (sb : StringBuilder.t) (s : jsstring) a b :
  a < b →
  StringBuilder.toString (StringBuilder.appendSlice sb s a b)
  = StringBuilder.toString sb ++ slice s a b.
Proof.
  intros Hab. unfold StringBuilder.appendSlice, StringBuilder.toString.
  destruct (Z.ltb_spec a b); [|lia]. simpl.
  rewrite concat_app. simpl. by rewrite app_nil_r.
Qed.

Lemma addSearchLines_nil st : addSearchLines st [] = st.
Proof. destruct st. unfold addSearchLines. simpl. by rewrite app_nil_r. Qed.

Lemma addReplaceLines_nil st : addReplaceLines st [] = st.
Proof.
  destruct st. unfold addReplaceLines. simpl.
  rewrite app_nil_r. f_equal. change (emitLines []) with (@nil N).
  rewrite len_nil. lia.
Qed.

(** The lemmas on the line loop share the arguments of the call. *)
Section line_loop.

Context (diff original : jsstring) (isFinal : bool)
        (idx : option LineIndex.t).

(** The search lines of an open block are accumulated. *)
Lemma processLines_search_body body st :
  Forall ordinary body → inSearch st = true →
  processLines diff original isFinal idx body st
  = Continue (addSearchLines st body).
Proof.
  intros Hall. revert st.
  induction Hall as [|l body Hl _ IH]; intros st Hs; simpl.
  - by rewrite addSearchLines_nil.
  - rewrite step_ordinary by done. unfold onContentLine. rewrite Hs.
    rewrite IH by done. f_equal. unfold addSearchLines. simpl.
    by rewrite <- app_assoc, Hs.
Qed.

(** The replacement lines of a block whose match is known are accumulated
    and emitted at once. *)
Lemma processLines_replace_body body st :
  Forall ordinary body →
  inSearch st = false → inReplace st = true → searchMatchIndex st ≠ -1 →
  processLines diff original isFinal idx body st
  = Continue (addReplaceLines st body).
Proof.
  intros Hall. revert st.
  induction Hall as [|l body Hl _ IH]; intros st Hs Hr Hm; simpl.
  - by rewrite addReplaceLines_nil.
  - rewrite step_ordinary by done. unfold onContentLine. rewrite Hs, Hr.
    apply Z.eqb_neq in Hm as Hm'. rewrite Hm'. simpl negb. cbv iota.
    rewrite IH; [|done|done|done]. f_equal. unfold addReplaceLines. simpl.
    rewrite <- app_assoc, emitLines_cons, !len_app, len_cons, len_nil, Hs, Hr.
    f_equal. lia.
Qed.

(** [=======] with a search content that is found. *)
Lemma onSeparator_found st s e :
  locateSearchBlock original idx (searchContentOf (searchSegments st))
    (lastProcessedIndex st) = Some (s, e) →
  onSeparator original idx st = Continue (matchedState original st s e).
Proof. intros Hloc. unfold onSeparator. by rewrite Hloc. Qed.

(** [=======] with a search content that no strategy finds. *)
Lemma onSeparator_not_found st :
  locateSearchBlock original idx (searchContentOf (searchSegments st))
    (lastProcessedIndex st) = None →
  onSeparator original idx st
  = Throw (noMatchMessage (searchContentOf (searchSegments st))).
Proof. intros Hloc. unfold onSeparator. by rewrite Hloc. Qed.

(** [>>>>>>> REPLACE] closing a block whose match is known. *)
Lemma onReplaceMarker_closes st :
  searchMatchIndex st ≠ -1 → replacementStartOffset st ≠ -1 →
  let closed :=
    idleState (result st) (searchEndIndex st) (regions st ++ [regionOf st])
      (resultLength st) in
  onReplaceMarker diff original isFinal REPLACE_MARKER st
  = if isFinal
       && negb (includes
                  (slice_from diff (indexOf diff REPLACE_MARKER
                                    + len REPLACE_MARKER))
                  SEARCH_MARKER)
    then Return (finish original true closed)
    else Continue closed.
Proof.
  intros Hm Hr closed. unfold onReplaceMarker.
  apply Z.eqb_neq in Hm. apply Z.eqb_neq in Hr. rewrite Hm, Hr. simpl negb.
  cbv iota. fold (regionOf st). subst closed. unfold idleState.
  destruct isFinal; [|reflexivity]. simpl andb.
  by destruct (includes _ _).
Qed.

Lemma blockLines_app searchBody replaceBody rest :
  blockLines searchBody replaceBody ++ rest
  = [SEARCH_MARKER] ++ searchBody ++ [SEPARATOR_MARKER] ++ replaceBody
    ++ [REPLACE_MARKER] ++ rest.
Proof.
  unfold blockLines. simpl. f_equal. rewrite <- app_assoc. simpl.
  by rewrite <- app_assoc.
Qed.

(** A complete block whose search content is found, run from the state
    between two blocks. *)
Lemma processLines_block searchBody replaceBody rest sb cursor rs emitted s e :
  Forall ordinary searchBody → Forall ordinary replaceBody →
  0 ≤ emitted →
  locateSearchBlock original idx (searchContentOf searchBody) cursor
  = Some (s, e) →
  s ≠ -1 →
  let closed :=
    blockClosedState original sb cursor rs emitted searchBody replaceBody s e in
  processLines diff original isFinal idx
    (blockLines searchBody replaceBody ++ rest) (idleState sb cursor rs emitted)
  = if isFinal && noSearchAfterFirstReplace diff
    then Return (finish original true closed)
    else processLines diff original isFinal idx rest closed.
Proof.
  intros HS HR Hemitted Hloc Hs closed.
  rewrite blockLines_app.
  rewrite processLines_app. cbn [processLines].
  rewrite step_search_marker.
  change (onSearchMarker (idleState sb cursor rs emitted))
    with (Continue (openedState sb cursor rs emitted)).
  cbv beta iota.
  rewrite processLines_app, processLines_search_body by done.
  cbv beta iota.
  rewrite processLines_app. cbn [processLines].
  rewrite step_separator.
  rewrite (onSeparator_found _ s e) by exact Hloc.
  cbv beta iota.
  rewrite processLines_app.
  rewrite processLines_replace_body; [|done|reflexivity|reflexivity|exact Hs].
  cbn [app processLines].
  rewrite step_replace_marker.
  rewrite onReplaceMarker_closes.
  - fold (blockBodyState original sb cursor rs emitted searchBody replaceBody s e).
    subst closed. unfold blockClosedState, noSearchAfterFirstReplace.
    cbn [searchEndIndex addReplaceLines matchedState regions addSearchLines
         openedState].
    by destruct (isFinal && _).
  - exact Hs.
  - cbn. pose proof (len_nonneg (emitLines replaceBody)).
    destruct (Z.gtb_spec s cursor); lia.
Qed.

(** A complete block whose search content no strategy finds. *)
Lemma processLines_block_not_found searchBody replaceBody rest
    sb cursor rs emitted :
  Forall ordinary searchBody →
  locateSearchBlock original idx (searchContentOf searchBody) cursor = None →
  processLines diff original isFinal idx
    (blockLines searchBody replaceBody ++ rest) (idleState sb cursor rs emitted)
  = Throw (noMatchMessage (searchContentOf searchBody)).
Proof.
  intros HS Hloc. rewrite blockLines_app.
  rewrite processLines_app. cbn [processLines].
  rewrite step_search_marker.
  change (onSearchMarker (idleState sb cursor rs emitted))
    with (Continue (openedState sb cursor rs emitted)).
  cbv beta iota.
  rewrite processLines_app, processLines_search_body by done.
  cbv beta iota.
  rewrite processLines_app. cbn [processLines].
  rewrite step_separator.
  by rewrite onSeparator_not_found.
Qed.

End line_loop.

(* ================================================================= *)
(** ** Splitting a text that was joined from lines *)
(* ================================================================= *)

Lemma split_lines_app_LF (l s : jsstring) :
  LF ∉ l → split_lines (l ++ LF :: s) = l :: split_lines s.
Proof.
  induction l as [|c l IH]; intros Hl; simpl.
  - reflexivity.
  - apply not_elem_of_cons in Hl as [Hc Hl].
    destruct (N.eqb_spec c LF) as [->|_]; [done|].
    by rewrite IH.
Qed.

Lemma split_lines_one (l : jsstring) : LF ∉ l → split_lines l = [l].
Proof.
  induction l as [|c l IH]; intros Hl; simpl.
  - reflexivity.
  - apply not_elem_of_cons in Hl as [Hc Hl].
    destruct (N.eqb_spec c LF) as [->|_]; [done|].
    by rewrite IH.
Qed.

Lemma split_join (ls : list jsstring) :
  ls ≠ [] → Forall (λ l, LF ∉ l) ls → split_lines (join_lines ls) = ls.
Proof.
  intros Hne Hall. induction Hall as [|l ls Hl Hall IH]; [done|].
  destruct ls as [|x xs].
  - by apply split_lines_one.
  - change (join_lines (l :: x :: xs)) with (l ++ LF :: join_lines (x :: xs)).
    rewrite split_lines_app_LF by done. by rewrite IH.
Qed.

Lemma startsWith_app (p rest : jsstring) : startsWith (p ++ rest) p = true.
Proof.
  induction p as [|c p IH]; simpl; [done|].
  by rewrite N.eqb_refl, IH.
Qed.

Lemma startsWith_nil_l (p : jsstring) : p ≠ [] → startsWith [] p = false.
Proof. by destruct p. Qed.

Lemma includes_prefix (p rest : jsstring) : includes (p ++ rest) p = true.
Proof.
  unfold includes, indexOf.
  destruct (p ++ rest) eqn:E; simpl; rewrite <- ?E, startsWith_app; done.
Qed.

(** A chunk whose last line is empty (the chunk ends with a line feed) or
    is a complete [>>>>>>> REPLACE] loses no line before the loop. *)
Lemma diffLines_keeps_last (diff : jsstring) (ls : list jsstring) (l : jsstring) :
  l = [] ∨ l = REPLACE_MARKER →
  split_lines diff = ls ++ [l] → diffLines diff = ls ++ [l].
Proof.
  intros Hl Hsplit. unfold diffLines. rewrite Hsplit, last_snoc.
  cbn [default]. destruct Hl as [-> | ->].
  - rewrite !startsWith_nil_l by done. by rewrite andb_false_r.
  - rewrite streq_refl. cbn [negb]. by rewrite andb_false_r.
Qed.

Lemma count_newlines_app (a b : jsstring) :
  count_newlines (a ++ b) = count_newlines a + count_newlines b.
Proof. unfold count_newlines. by rewrite filter_app, len_app. Qed.

Lemma count_newlines_LF_free (l : jsstring) : LF ∉ l → count_newlines l = 0.
Proof.
  intros Hl. unfold count_newlines.
  induction l as [|c l IH]; [done|].
  apply not_elem_of_cons in Hl as [Hc Hl].
  rewrite filter_cons_False by done. by apply IH.
Qed.

Lemma count_newlines_emitLines (ls : list jsstring) :
  Forall (λ l, LF ∉ l) ls → count_newlines (emitLines ls) = len ls.
Proof.
  induction 1 as [|l ls Hl _ IH].
  - reflexivity.
  - rewrite emitLines_cons, !count_newlines_app, IH, len_cons.
    rewrite count_newlines_LF_free by done.
    change (count_newlines [LF]) with 1. lia.
Qed.

(* ================================================================= *)
(** ** C6: a block with an empty search body *)
(* ================================================================= *)

(** The match of an empty search content: the whole original, which is
    [(0, 0)] for an empty original. *)
Lemma locateSearchBlock_empty_search original idx cursor :
  locateSearchBlock original idx (searchContentOf []) cursor
  = Some (0, if len original =? 0 then 0 else len original).
Proof.
  unfold locateSearchBlock. simpl. by destruct (len original =? 0).
Qed.

Lemma markers_LF_free :
  (LF ∉ SEARCH_MARKER) ∧ (LF ∉ SEPARATOR_MARKER) ∧ (LF ∉ REPLACE_MARKER).
Proof.
  repeat split; intros Hin; absurd_elem_of Hin.
Qed.

(** C6.  A block with an empty search body matches [(0, 0)] in an empty
    original and [(0, len original)] otherwise.  For the diff that consists
    of one such block with the replacement lines [replaceBody] (lines free
    of line feeds, none of them a marker), with or without a line feed after
    its [>>>>>>> REPLACE], the final call returns each replacement line
    followed by a line feed, and nothing else, with one change region that
    covers all of it. *)
Theorem empty_search_block_replaces_whole_file
    (original : jsstring) (replaceBody tail : list jsstring) (cursor : Z) :
  Forall ordinary replaceBody → Forall (λ l, LF ∉ l) replaceBody →
  tail = [] ∨ tail = [[]] →
  locateSearchBlock original (lineIndexFor original) (searchContentOf []) cursor
  = Some (0, if len original =? 0 then 0 else len original)
  ∧ constructNewFileContent
      (join_lines (blockLines [] replaceBody ++ tail)) original true
    = inl {| content := emitLines replaceBody;
             changedRegions :=
               [ {| startLine := 0;
                    endLine := len replaceBody;
                    startOffset := 0;
                    endOffset := len (emitLines replaceBody) |} ] |}.
Proof.
  intros Hord HLF Htail. split; [apply locateSearchBlock_empty_search|].
  set (diff := join_lines (blockLines [] replaceBody ++ tail)).
  destruct markers_LF_free as (H1 & H2 & H3).
  assert (Htail_ord : Forall ordinary tail).
  { destruct Htail as [-> | ->]; repeat constructor; discriminate. }
  assert (Hsplit : split_lines diff = blockLines [] replaceBody ++ tail).
  { apply split_join; [by destruct replaceBody|].
    unfold blockLines. simpl. repeat constructor; try done.
    rewrite !Forall_app. split; [split; [done|]|].
    - by repeat constructor.
    - destruct Htail as [-> | ->]; repeat constructor.
      by intros ?%elem_of_nil. }
  assert (Hlines : diffLines diff = blockLines [] replaceBody ++ tail).
  { destruct Htail as [-> | ->].
    - rewrite app_nil_r in *. unfold blockLines in *. cbn [app] in *.
      change (SEARCH_MARKER :: SEPARATOR_MARKER :: replaceBody ++ [REPLACE_MARKER])
        with ((SEARCH_MARKER :: SEPARATOR_MARKER :: replaceBody)
              ++ [REPLACE_MARKER]) in *.
      apply diffLines_keeps_last; [by right|done].
    - apply diffLines_keeps_last; [by left|done]. }
  assert (Hincl : includes diff SEARCH_MARKER = true).
  { subst diff. unfold blockLines.
    change (join_lines ((SEARCH_MARKER :: [] ++ SEPARATOR_MARKER
                           :: replaceBody ++ [REPLACE_MARKER]) ++ tail))
      with (SEARCH_MARKER
            ++ LF :: join_lines ((SEPARATOR_MARKER
                                    :: replaceBody ++ [REPLACE_MARKER]) ++ tail)).
    apply includes_prefix. }
  assert (Hloc : locateSearchBlock original (lineIndexFor original)
                   (searchContentOf []) 0 = Some (0, len original)).
  { rewrite locateSearchBlock_empty_search.
    destruct (Z.eqb_spec (len original) 0) as [->|]; done. }
  unfold constructNewFileContent.
  rewrite Hincl. cbn [negb andb]. rewrite Hlines.
  change initialState with (idleState StringBuilder.empty 0 [] 0).
  rewrite (processLines_block _ _ _ _ [] replaceBody tail _ _ _ _ 0 (len original));
    [|done|done|done|exact Hloc|done].
  set (closed := blockClosedState _ _ _ _ _ _ _ _ _).
  assert (Hfinish :
    finish original true closed
    = {| content := emitLines replaceBody;
         changedRegions :=
           [ {| startLine := 0; endLine := len replaceBody;
                startOffset := 0;
                endOffset := len (emitLines replaceBody) |} ] |}).
  { unfold finish. subst closed. unfold blockClosedState, blockBodyState.
    cbn [lastProcessedIndex idleState result regions resultLength
         addReplaceLines matchedState addSearchLines openedState
         replacementStartOffset app].
    rewrite Z.ltb_irrefl. cbn [andb]. change (0 >? 0) with false. cbv iota.
    rewrite toString_appendLines.
    change (StringBuilder.toString StringBuilder.empty) with (@nil N).
    cbn [app]. f_equal. unfold regionOf.
    cbn [result resultLength replacementStartOffset addReplaceLines
         matchedState addSearchLines openedState lastProcessedIndex].
    change (0 >? 0) with false. cbv iota.
    rewrite toString_appendLines.
    change (StringBuilder.toString StringBuilder.empty) with (@nil N).
    cbn [app]. unfold getLineNumberFromOffset.
    rewrite Z.add_0_l, slice_all, count_newlines_emitLines by done.
    rewrite slice_empty by lia. reflexivity. }
  destruct (true && noSearchAfterFirstReplace diff).
  - by rewrite Hfinish.
  - rewrite processLines_idle; [by rewrite Hfinish|done|reflexivity|reflexivity].
Qed.

Lemma empty_search_block_replaces_whole_file_witness :
  let replaceBody := [str "This is the replacement content."] in
  Forall ordinary replaceBody
  ∧ Forall (λ l, LF ∉ l) replaceBody
  ∧ ([[]] = @nil jsstring ∨ [[]] = [@nil N])
  ∧ constructNewFileContent
      (unlines ["<<<<<<< SEARCH"; "=======";
                "This is the replacement content."; ">>>>>>> REPLACE"])
      (unlines ["This is the original content."]) true
    = inl {| content := unlines ["This is the replacement content."];
             changedRegions :=
               [ {| startLine := 0; endLine := 1;
                    startOffset := 0; endOffset := 33 |} ] |}.
Proof.
  intros replaceBody.
  assert (Hord : Forall ordinary replaceBody).
  { repeat constructor; discriminate. }
  assert (HLF : Forall (λ l, LF ∉ l) replaceBody).
  { repeat constructor. intros Hin. absurd_elem_of Hin. }
  split; [exact Hord|]. split; [exact HLF|].
  split; [right; reflexivity|].
  exact (proj2 (empty_search_block_replaces_whole_file
                  (unlines ["This is the original content."])
                  replaceBody [[]] 0 Hord HLF (or_intror eq_refl))).
Defined.

(* ================================================================= *)
(** ** C5: the error of a search block that matches nothing *)
(* ================================================================= *)

Lemma trimEnd_snoc_ws (s : jsstring) (c : N) :
  is_ws c = true → trimEnd (s ++ [c]) = trimEnd s.
Proof.
  intros Hc. induction s as [|x s IH]; simpl.
  - by rewrite Hc.
  - by rewrite IH.
Qed.

Lemma indexOf_from_occurrence (a p b : jsstring) (i : Z) :
  0 ≤ i → 0 ≤ indexOf_from (a ++ p ++ b) p i.
Proof.
  revert i. induction a as [|c a IH]; intros i Hi.
  - simpl. destruct (p ++ b) eqn:E; simpl; rewrite <- ?E, startsWith_app; lia.
  - simpl. destruct (startsWith _ _); [lia|]. apply IH. lia.
Qed.

Lemma includes_occurrence (a p b : jsstring) : includes (a ++ p ++ b) p = true.
Proof.
  unfold includes, indexOf.
  pose proof (indexOf_from_occurrence a p b 0).
  destruct (Z.eqb_spec (indexOf_from (a ++ p ++ b) p 0) (-1)); [lia|done].
Qed.

(** A line of a text occurs in the text. *)
Lemma includes_line (s l : jsstring) : l ∈ split_lines s → includes s l = true.
Proof.
  intros (pre & post & Hcut)%list_elem_of_split.
  rewrite <- (join_split s), Hcut, join_lines_cut.
  apply includes_occurrence.
Qed.

(** A block can only be open, or hold search lines, after a
    [<<<<<<< SEARCH] line. *)
Lemma processLines_search_needs_marker diff original isFinal idx lines st0 st :
  processLines diff original isFinal idx lines st0 = Continue st →
  searchSegments st ≠ [] ∨ inSearch st = true →
  (searchSegments st0 ≠ [] ∨ inSearch st0 = true) ∨ SEARCH_MARKER ∈ lines.
Proof.
  revert st0. induction lines as [|l lines IH]; intros st0; simpl.
  - intros [= ->]. by left.
  - destruct (step diff original isFinal idx st0 l) as [st1| |] eqn:Hstep;
      [|done|done].
    intros Hrun Hst. destruct (IH _ Hrun Hst) as [Hst1|Hin].
    2:{ right. by right. }
    unfold step in Hstep.
    destruct (streq l SEARCH_MARKER) eqn:E1.
    { apply streq_spec in E1 as ->. right. by left. }
    left. destruct (streq l SEPARATOR_MARKER).
    { unfold onSeparator in Hstep.
      destruct (locateSearchBlock _ _ _ _) as [[s e]|]; [|done].
      injection Hstep as <-. simpl in Hst1. by destruct Hst1; [left|]. }
    destruct (streq l REPLACE_MARKER).
    { unfold onReplaceMarker in Hstep.
      destruct isFinal; [destruct (negb _); [done|]|];
        injection Hstep as <-; simpl in Hst1; by destruct Hst1. }
    unfold onContentLine in Hstep.
    destruct (inSearch st0) eqn:Es; [by right|].
    destruct (inReplace st0); injection Hstep as <-; simpl in Hst1;
      rewrite ?Es in Hst1; exact Hst1.
Qed.

(** C5, as the code has it.  When the loop reaches a [=======] line with a
    non-empty search body that none of the three strategies locates from the
    cursor, the call fails, and the search content its error reports is the
    search body with all of its trailing white space trimmed, not only the
    line feed the processor appended. *)
Theorem unmatched_search_block_error
    (diff original : jsstring) (isFinal : bool)
    (pre post : list jsstring) (st : state) :
  diffLines diff = pre ++ SEPARATOR_MARKER :: post →
  processLines diff original isFinal (lineIndexFor original) pre initialState
  = Continue st →
  searchSegments st ≠ [] →
  boyerMooreSearch original (searchContentOf (searchSegments st))
    (lastProcessedIndex st) = -1 →
  lineTrimmedFallbackMatch original (searchContentOf (searchSegments st))
    (lastProcessedIndex st) (lineIndexFor original) = None →
  blockAnchorFallbackMatch original (searchContentOf (searchSegments st))
    (lastProcessedIndex st) (lineIndexFor original) = None →
  constructNewFileContent diff original isFinal
  = inr (noMatchMessageFor (trimEnd (join_lines (searchSegments st)))).
Proof.
  intros Hlines Hrun Hsegs Hexact Hline Hanchor.
  assert (Hcontent : searchContentOf (searchSegments st)
                     = join_lines (searchSegments st) ++ [LF]).
  { unfold searchContentOf. destruct (searchSegments st) as [|x xs]; [done|].
    rewrite len_cons. pose proof (len_nonneg xs).
    by destruct (Z.gtb_spec (1 + len xs) 0); [|lia]. }
  assert (Hloc : locateSearchBlock original (lineIndexFor original)
                   (searchContentOf (searchSegments st)) (lastProcessedIndex st)
                 = None).
  { unfold locateSearchBlock. rewrite Hexact, Hline, Hanchor.
    rewrite Hcontent at 1. rewrite len_app, len_cons, len_nil.
    pose proof (len_nonneg (join_lines (searchSegments st))).
    by destruct (Z.eqb_spec (len (join_lines (searchSegments st)) + (1 + 0)) 0);
      [lia|]. }
  assert (Hmarker : includes diff SEARCH_MARKER = true).
  { apply includes_line, elem_of_diffLines. rewrite Hlines.
    destruct (processLines_search_needs_marker _ _ _ _ _ _ _ Hrun)
      as [[Hinit|Hinit]|Hin]; [by left|done|done|].
    apply elem_of_app. by left. }
  unfold constructNewFileContent.
  rewrite Hmarker, andb_false_r, Hlines, processLines_app, Hrun.
  cbn [processLines]. rewrite step_separator, onSeparator_not_found by done.
  unfold noMatchMessage. rewrite Hcontent.
  by rewrite trimEnd_snoc_ws.
Qed.

Lemma unmatched_search_block_error_witness :
  let diff :=
    unlines ["<<<<<<< SEARCH"; "foo  "; "======="; "bar"; ">>>>>>> REPLACE"] in
  let original := unlines ["something else"] in
  let pre := [SEARCH_MARKER; str "foo  "] in
  let post := [str "bar"; REPLACE_MARKER; []] in
  let st := addSearchLines (openedState StringBuilder.empty 0 [] 0)
              [str "foo  "] in
  diffLines diff = pre ++ SEPARATOR_MARKER :: post
  ∧ processLines diff original true (lineIndexFor original) pre initialState
    = Continue st
  ∧ searchSegments st ≠ []
  ∧ boyerMooreSearch original (searchContentOf (searchSegments st))
      (lastProcessedIndex st) = -1
  ∧ lineTrimmedFallbackMatch original (searchContentOf (searchSegments st))
      (lastProcessedIndex st) (lineIndexFor original) = None
  ∧ blockAnchorFallbackMatch original (searchContentOf (searchSegments st))
      (lastProcessedIndex st) (lineIndexFor original) = None
  ∧ constructNewFileContent diff original true
    = inr (noMatchMessageFor (str "foo")).
Proof.
  intros diff original pre post st.
  assert (H1 : diffLines diff = pre ++ SEPARATOR_MARKER :: post)
    by (vm_compute; reflexivity).
  assert (H2 : processLines diff original true (lineIndexFor original) pre
                 initialState = Continue st)
    by (vm_compute; reflexivity).
  assert (H3 : searchSegments st ≠ []) by discriminate.
  assert (H4 : boyerMooreSearch original (searchContentOf (searchSegments st))
                 (lastProcessedIndex st) = -1)
    by (vm_compute; reflexivity).
  assert (H5 : lineTrimmedFallbackMatch original
                 (searchContentOf (searchSegments st))
                 (lastProcessedIndex st) (lineIndexFor original) = None)
    by (vm_compute; reflexivity).
  assert (H6 : blockAnchorFallbackMatch original
                 (searchContentOf (searchSegments st))
                 (lastProcessedIndex st) (lineIndexFor original) = None)
    by (vm_compute; reflexivity).
  repeat (split; [assumption|]).
  exact (unmatched_search_block_error diff original true pre post st
           H1 H2 H3 H4 H5 H6).
Defined.

(** C5, as the specification states it, fails: the search body ["foo  "]
    ends with two spaces, and the error reports ["foo"], not the body
    without its final line feed. *)
Lemma no_match_error_trims_more_than_a_newline :
  searchContentOf [str "foo  "] = str "foo  " ++ [LF]
  ∧ constructNewFileContent
      (unlines ["<<<<<<< SEARCH"; "foo  "; "======="; "bar"; ">>>>>>> REPLACE"])
      (unlines ["something else"]) true
    = inr (noMatchMessageFor (str "foo"))
  ∧ constructNewFileContent
      (unlines ["<<<<<<< SEARCH"; "foo  "; "======="; "bar"; ">>>>>>> REPLACE"])
      (unlines ["something else"]) true
    ≠ inr (noMatchMessageFor (str "foo  ")).
Proof.
  split; [|split];
    [vm_compute; reflexivity|vm_compute; reflexivity|vm_compute; discriminate].
Qed.

(* ================================================================= *)
(** ** The ranges the strategies return are not negative *)
(* ================================================================= *)

(** The search loop returns -1 or an offset at or after its start. *)
Lemma bmLoop_result fuel text pattern table offset :
  bmLoop fuel text pattern table offset = -1
  ∨ offset ≤ bmLoop fuel text pattern table offset.
Proof.
  revert offset. induction fuel as [|fuel IH]; intros offset; simpl.
  - by left.
  - destruct (offset <=? len text - len pattern); [|by left].
    destruct (_ <? 0); [right; lia|].
    destruct (IH (offset + Z.max 1
                    (badCharShift table text
                       (offset + matchRightToLeft text pattern offset
                                   (length pattern)) (len pattern))))
      as [->|Hge]; [by left|right; lia].
Qed.

(** The fuel of the search loop never runs out: one more unit changes
    nothing once the fuel exceeds the number of offsets left. *)
Lemma bmLoop_enough_fuel fuel text pattern table offset :
  len text - len pattern - offset < Z.of_nat fuel →
  bmLoop (S fuel) text pattern table offset
  = bmLoop fuel text pattern table offset.
Proof.
  revert offset. induction fuel as [|fuel IH]; intros offset Hfuel.
  - simpl. destruct (Z.leb_spec offset (len text - len pattern)); [lia|done].
  - change (bmLoop (S (S fuel)) text pattern table offset)
      with (if offset <=? len text - len pattern then
              let j := matchRightToLeft text pattern offset (length pattern) in
              if j <? 0 then offset
              else bmLoop (S fuel) text pattern table
                     (offset + Z.max 1 (badCharShift table text (offset + j)
                                          (len pattern)))
            else -1).
    change (bmLoop (S fuel) text pattern table offset)
      with (if offset <=? len text - len pattern then
              let j := matchRightToLeft text pattern offset (length pattern) in
              if j <? 0 then offset
              else bmLoop fuel text pattern table
                     (offset + Z.max 1 (badCharShift table text (offset + j)
                                          (len pattern)))
            else -1).
    destruct (offset <=? len text - len pattern); [|done].
    cbv zeta. destruct (_ <? 0); [done|].
    apply IH. lia.
Qed.

Lemma boyerMooreSearch_result text pattern cursor :
  boyerMooreSearch text pattern cursor = -1
  ∨ cursor ≤ boyerMooreSearch text pattern cursor.
Proof.
  unfold boyerMooreSearch.
  destruct (len pattern =? 0); [right; lia|].
  destruct (len pattern >? len text - cursor); [by left|].
  apply bmLoop_result.
Qed.

Lemma addLineLengths_ge originalLines from count acc :
  acc ≤ addLineLengths originalLines from count acc.
Proof.
  unfold addLineLengths. generalize (seqZ from count). intros ks.
  revert acc. induction ks as [|k ks IH]; intros acc; simpl; [lia|].
  etrans; [|apply IH]. pose proof (len_nonneg (line_at originalLines k)). lia.
Qed.

Lemma lineTrimmedVerify_nonneg originalLines searchLines positions a b :
  lineTrimmedVerify originalLines searchLines positions = Some (a, b) →
  0 ≤ a ∧ a ≤ b.
Proof.
  induction positions as [|pos positions IH]; simpl; [done|].
  destruct (linesMatchAt _ _ _ _); [|done].
  intros [= <- <-]. split; apply addLineLengths_ge.
Qed.

Lemma lineTrimmedDirect_nonneg original search cursor a b :
  lineTrimmedDirect original search cursor = Some (a, b) → 0 ≤ a ∧ a ≤ b.
Proof.
  unfold lineTrimmedDirect.
  destruct (_ || _); [done|]. destruct (_ =? 0); [done|].
  destruct (if _ >? 1 then _ else _); [done|].
  apply lineTrimmedVerify_nonneg.
Qed.

Lemma blockAnchorDirectLoop_nonneg originalLines first last size todo a b :
  blockAnchorDirectLoop originalLines first last size todo = Some (a, b) →
  0 ≤ a ∧ a ≤ b.
Proof.
  induction todo as [|i todo IH]; simpl; [done|].
  destruct (negb _); [done|]. destruct (negb _); [done|].
  intros [= <- <-]. split; apply addLineLengths_ge.
Qed.

Lemma blockAnchorDirect_nonneg original search cursor a b :
  blockAnchorDirect original search cursor = Some (a, b) → 0 ≤ a ∧ a ≤ b.
Proof.
  unfold blockAnchorDirect. destruct (_ <? 3); [done|].
  apply blockAnchorDirectLoop_nonneg.
Qed.

Lemma getOffsetForLine_buildIndex_nonneg content i :
  0 ≤ LineIndex.getOffsetForLine (LineIndex.buildIndex content) i.
Proof.
  unfold LineIndex.getOffsetForLine. destruct (i <? 0); [done|].
  rewrite lineToOffset_buildIndex, list_lookup_fmap.
  destruct (seq _ _ !! _); simpl; [apply len_nonneg|done].
Qed.

Lemma findExactMatchLoop_nonneg content searchLines positions a b :
  LineIndex.findExactMatchLoop (LineIndex.buildIndex content) searchLines
    positions = Some (a, b) →
  0 ≤ a ∧ 0 ≤ b.
Proof.
  induction positions as [|pos positions IH]; simpl; [done|].
  destruct (LineIndex.blockMatchesAt _ _ _ _); [|done].
  intros [= <- <-]. split; [apply getOffsetForLine_buildIndex_nonneg|].
  destruct (_ <? _); [apply getOffsetForLine_buildIndex_nonneg|].
  pose proof (getOffsetForLine_buildIndex_nonneg content
                (len (LineIndex.lines (LineIndex.buildIndex content)) - 1)).
  pose proof (len_nonneg
                (line_at (LineIndex.lines (LineIndex.buildIndex content))
                   (len (LineIndex.lines (LineIndex.buildIndex content)) - 1))).
  lia.
Qed.

Lemma lineTrimmedIndexed_nonneg content search cursor a b :
  lineTrimmedIndexed (LineIndex.buildIndex content) search cursor = Some (a, b) →
  0 ≤ a ∧ 0 ≤ b.
Proof.
  unfold lineTrimmedIndexed. destruct (_ =? 0); [done|].
  apply findExactMatchLoop_nonneg.
Qed.

Lemma blockAnchorIndexedLoop_nonneg content size lastLine positions a b :
  blockAnchorIndexedLoop (LineIndex.buildIndex content) size lastLine positions
  = Some (a, b) →
  0 ≤ a ∧ 0 ≤ b.
Proof.
  induction positions as [|pos positions IH]; simpl; [done|].
  destruct (_ && _); [|done].
  intros [= <- <-]. split; apply getOffsetForLine_buildIndex_nonneg.
Qed.

Lemma blockAnchorIndexed_nonneg content search cursor a b :
  blockAnchorIndexed (LineIndex.buildIndex content) search cursor = Some (a, b) →
  0 ≤ a ∧ 0 ≤ b.
Proof.
  unfold blockAnchorIndexed. destruct (_ <? 3); [done|].
  apply blockAnchorIndexedLoop_nonneg.
Qed.

(** Whatever strategy finds the search content, from a cursor that is not
    negative, the range it returns has no negative bound. *)
Lemma locateSearchBlock_nonneg original search cursor s e :
  0 ≤ cursor →
  locateSearchBlock original (lineIndexFor original) search cursor = Some (s, e) →
  0 ≤ s ∧ 0 ≤ e.
Proof.
  intros Hcursor. unfold locateSearchBlock.
  pose proof (len_nonneg original). pose proof (len_nonneg search).
  destruct (len search =? 0).
  { destruct (len original =? 0); intros [= <- <-]; lia. }
  destruct (Z.eqb_spec (boyerMooreSearch original search cursor) (-1))
    as [_|Hfound]; simpl negb; cbv iota.
  2:{ intros [= <- <-].
      destruct (boyerMooreSearch_result original search cursor); lia. }
  unfold lineTrimmedFallbackMatch, blockAnchorFallbackMatch, lineIndexFor.
  cbv zeta.
  destruct (LineIndex.shouldUseIndex original).
  - destruct (lineTrimmedIndexed _ _ _) as [[a b]|] eqn:E.
    + intros [= <- <-]. by apply lineTrimmedIndexed_nonneg in E.
    + apply blockAnchorIndexed_nonneg.
  - destruct (lineTrimmedDirect _ _ _) as [[a b]|] eqn:E.
    + intros [= <- <-]. apply lineTrimmedDirect_nonneg in E. lia.
    + intros Hb. apply blockAnchorDirect_nonneg in Hb. lia.
Qed.

(* ================================================================= *)
(** ** C1: the returned content is the original with the applied blocks
       spliced in *)
(* ================================================================= *)

(** What the final call returns from a state. *)
Lemma content_finish original st :
  content (finish original true st)
  = StringBuilder.toString (result st)
    ++ slice original (lastProcessedIndex st) (len original).
Proof.
  unfold finish. cbn [andb content].
  destruct (Z.ltb_spec (lastProcessedIndex st) (len original)).
  - by apply toString_appendSlice.
  - by rewrite slice_past_end, app_nil_r.
Qed.

Lemma resultSince_outside original st :
  inReplace st = false →
  resultSince original st (StringBuilder.toString (result st)).
Proof. intros Hr. unfold resultSince. by rewrite Hr, app_nil_r. Qed.

Lemma inReplaceState_parserStateOf st :
  inReplaceState (parserStateOf st) = negb (inSearch st) && inReplace st.
Proof. unfold parserStateOf. by destruct (inSearch st), (inReplace st). Qed.

(** Under the invariant, the parser is in the replace state exactly when
    [inReplace] is set. *)
Lemma runInvariant_inReplaceState st :
  runInvariant st → inReplaceState (parserStateOf st) = inReplace st.
Proof.
  intros (_ & _ & Hmode). rewrite inReplaceState_parserStateOf.
  destruct (inReplace st); [|by rewrite andb_false_r].
  destruct Hmode as (-> & _). done.
Qed.

(** Reduces the projections of a state given by its fields. *)
Ltac state_fields :=
  cbn [result lastProcessedIndex regions resultLength searchSegments
       replaceSegments inSearch inReplace searchMatchIndex searchEndIndex
       replacementStartOffset].








(** The other two conditions of well-formedness are needed as well.  A
    second [=======] in the replace state locates the search content again
    and emits the text before the match a second time. *)
Example separator_in_replace_state_repeats_prefix :
  let diff :=
    unlines ["<<<<<<< SEARCH"; "b"; "======="; "Y"; "======="; "Z";
             ">>>>>>> REPLACE"] in
  let original := unlines ["a"; "b"] in
  ∃ r,
    constructNewFileContent diff original true = inl r
    ∧ content r = unlines ["a"; "Y"; "a"; "Z"]
    ∧ appliedBlocks diff original true = [(2, 4, unlines ["Y"; "Z"])]
    ∧ content r ≠ spliceFrom original 0 (appliedBlocks diff original true).
Proof.
  eexists. split; [vm_compute; reflexivity|].
  split; [vm_compute; reflexivity|].
  split; [vm_compute; reflexivity|].
  vm_compute. discriminate.
Qed.

(** A block left open at the end of the final chunk has emitted the text
    before its match and its replacement lines, and the whole original from
    the cursor on is appended after them. *)
Example unclosed_block_repeats_original :
  let diff := unlines ["<<<<<<< SEARCH"; "b"; "======="] ++ str "Y" in
  let original := unlines ["a"; "b"] in
  ∃ r,
    constructNewFileContent diff original true = inl r
    ∧ content r = unlines ["a"; "Y"; "a"; "b"]
    ∧ appliedBlocks diff original true = []
    ∧ content r ≠ spliceFrom original 0 (appliedBlocks diff original true).
Proof.
  eexists. split; [vm_compute; reflexivity|].
  split; [vm_compute; reflexivity|].
  split; [vm_compute; reflexivity|].
  vm_compute. discriminate.
Qed.

(** The order of the ranges is needed: a block with an empty search body
    after another block matches the whole file, from offset 0.  The lines of
    the diff are well formed, but the second range starts below the end of
    the first; the content keeps the line [a] before the first range, which
    the second range covers, so that its length is not that of the original
    plus the replacements minus the ranges. *)
Example ranges_out_of_order_are_not_spliced :
  let diff :=
    unlines ["<<<<<<< SEARCH"; "b"; "======="; "B"; ">>>>>>> REPLACE";
             "<<<<<<< SEARCH"; "======="; "Z"; ">>>>>>> REPLACE"] in
  let original := unlines ["a"; "b"; "c"] in
  ∃ r,
    constructNewFileContent diff original true = inl r
    ∧ wellFormedFrom Idle (diffLines diff) = true
    ∧ appliedBlocks diff original true = [(2, 4, nl "B"); (0, 6, nl "Z")]
    ∧ rangesInOrder original 0 (appliedBlocks diff original true) = false
    ∧ content r = unlines ["a"; "B"; "Z"]
    ∧ len (content r)
      ≠ len original + spliceGrowth (appliedBlocks diff original true).
Proof.
  eexists. split; [vm_compute; reflexivity|].
  split; [vm_compute; reflexivity|].
  split; [vm_compute; reflexivity|].
  split; [vm_compute; reflexivity|].
  split; [vm_compute; reflexivity|].
  vm_compute. discriminate.
Qed.

(* ================================================================= *)
(** ** The string builder *)
(* ================================================================= *)

(** X1.  The length a string builder reports is the length of the string it
    builds, and every operation keeps it so: [append], [appendLine], [clear],
    and [appendSlice] as long as the slice lies inside the source. *)
Theorem stringBuilder_length_is_kept
    (sb : StringBuilder.t) (s source : jsstring) (start end_ : Z) :
  StringBuilder.getLength sb = len (StringBuilder.toString sb) →
  0 ≤ start → end_ ≤ len source →
  StringBuilder.getLength (StringBuilder.append sb s)
  = len (StringBuilder.toString (StringBuilder.append sb s))
  ∧ StringBuilder.getLength (StringBuilder.appendLine sb s)
    = len (StringBuilder.toString (StringBuilder.appendLine sb s))
  ∧ StringBuilder.getLength (StringBuilder.appendSlice sb source start end_)
    = len (StringBuilder.toString
             (StringBuilder.appendSlice sb source start end_))
  ∧ StringBuilder.getLength (StringBuilder.clear sb)
    = len (StringBuilder.toString (StringBuilder.clear sb)).
Proof.
  intros Hsb Hstart Hend.
  assert (Happend : ∀ sb' t,
            StringBuilder.getLength sb' = len (StringBuilder.toString sb') →
            StringBuilder.getLength (StringBuilder.append sb' t)
            = len (StringBuilder.toString (StringBuilder.append sb' t))).
  { intros sb' t Hsb'. rewrite toString_append, len_app, <- Hsb'.
    unfold StringBuilder.append, StringBuilder.getLength.
    destruct (Z.gtb_spec (len t) 0); [done|].
    pose proof (len_nonneg t). simpl. lia. }
  split; [by apply Happend|]. split; [by apply Happend, Happend|].
  split; [|done].
  destruct (Z.ltb_spec start end_) as [Hlt|Hge].
  - rewrite toString_appendSlice, len_app, len_slice_in_range, <- Hsb by lia.
    unfold StringBuilder.appendSlice, StringBuilder.getLength.
    by destruct (Z.ltb_spec start end_); [|lia].
  - unfold StringBuilder.appendSlice.
    by destruct (Z.ltb_spec start end_); [lia|].
Qed.

Lemma stringBuilder_length_is_kept_witness :
  let sb := StringBuilder.append StringBuilder.empty (str "ab") in
  StringBuilder.getLength sb = len (StringBuilder.toString sb)
  ∧ 0 ≤ 1 ∧ 3 ≤ len (str "hello")
  ∧ StringBuilder.getLength (StringBuilder.appendSlice sb (str "hello") 1 3)
    = len (StringBuilder.toString
             (StringBuilder.appendSlice sb (str "hello") 1 3)).
Proof.
  intros sb.
  assert (H1 : StringBuilder.getLength sb = len (StringBuilder.toString sb))
    by reflexivity.
  assert (H2 : 0 ≤ 1) by lia.
  assert (H3 : 3 ≤ len (str "hello")) by (vm_compute; discriminate).
  split; [exact H1|]. split; [exact H2|]. split; [exact H3|].
  exact (proj1 (proj2 (proj2
           (stringBuilder_length_is_kept sb [] (str "hello") 1 3 H1 H2 H3)))).
Defined.

(** X2.  [appendSlice] counts [end - start] code units whatever the source
    holds: when the slice reaches past the end of the source, the builder
    reports more than the length of the string it builds. *)
Theorem appendSlice_past_end_overcounts
    (sb : StringBuilder.t) (source : jsstring) (start end_ : Z) :
  StringBuilder.getLength sb = len (StringBuilder.toString sb) →
  0 ≤ start → start < end_ → len source < end_ →
  len (StringBuilder.toString (StringBuilder.appendSlice sb source start end_))
  < StringBuilder.getLength (StringBuilder.appendSlice sb source start end_).
Proof.
  intros Hsb Hstart Hlt Hpast.
  rewrite toString_appendSlice, len_app, len_slice_clamped, <- Hsb by lia.
  unfold StringBuilder.appendSlice, StringBuilder.getLength.
  destruct (Z.ltb_spec start end_); [|lia]. simpl.
  pose proof (len_nonneg source). lia.
Qed.

Lemma appendSlice_past_end_overcounts_witness :
  StringBuilder.getLength StringBuilder.empty
  = len (StringBuilder.toString StringBuilder.empty)
  ∧ 0 ≤ 1 ∧ 1 < 9 ∧ len (str "abc") < 9
  ∧ len (StringBuilder.toString
           (StringBuilder.appendSlice StringBuilder.empty (str "abc") 1 9))
    < StringBuilder.getLength
        (StringBuilder.appendSlice StringBuilder.empty (str "abc") 1 9).
Proof.
  assert (H1 : StringBuilder.getLength StringBuilder.empty
               = len (StringBuilder.toString StringBuilder.empty))
    by reflexivity.
  assert (H2 : 0 ≤ 1) by lia.
  assert (H3 : 1 < 9) by lia.
  assert (H4 : len (str "abc") < 9) by (vm_compute; reflexivity).
  repeat (split; [assumption|]).
  exact (appendSlice_past_end_overcounts StringBuilder.empty (str "abc") 1 9
           H1 H2 H3 H4).
Defined.

(* ================================================================= *)
(** ** The repairs of model output *)
(* ================================================================= *)

(** X3.  [removeInvalidChars] removes every replacement character U+FFFD
    and nothing else: what it returns is the text without these code units,
    in the same order. *)
Theorem removeInvalidChars_filters (text : jsstring) :
  removeInvalidChars text = filter (λ c, c ≠ REPLACEMENT_CHARACTER) text
  ∧ REPLACEMENT_CHARACTER ∉ removeInvalidChars text.
Proof.
  assert (Hfilter : removeInvalidChars text
                    = filter (λ c, c ≠ REPLACEMENT_CHARACTER) text).
  { unfold removeInvalidChars, replaceAll.
    induction text as [|c text IH]; [done|].
    cbn [replaceAllFrom startsWith List.length Nat.sub app].
    destruct (N.eqb_spec REPLACEMENT_CHARACTER c) as [<-|Hne].
    - destruct text; simpl andb; cbv iota;
        rewrite filter_cons_False by (by intros ?); exact IH.
    - cbn [andb]. rewrite filter_cons_True by done. by rewrite IH. }
  split; [exact Hfilter|].
  rewrite Hfilter. intros [Hne _]%list_elem_of_filter. done.
Qed.

Lemma indexOf_from_none_startsWith (s p : jsstring) (i : Z) :
  0 ≤ i → indexOf_from s p i = -1 → startsWith s p = false.
Proof.
  intros Hi. destruct s; simpl; destruct (startsWith _ p); try done; lia.
Qed.

Lemma indexOf_from_none_tail (c : N) (s p : jsstring) (i : Z) :
  0 ≤ i → indexOf_from (c :: s) p i = -1 → indexOf_from s p (i + 1) = -1.
Proof. intros Hi. simpl. destruct (startsWith _ p); [lia|done]. Qed.

Lemma replaceAllFrom_absent (s pat rep : jsstring) (i : Z) :
  0 ≤ i → indexOf_from s pat i = -1 → replaceAllFrom s pat rep 0 = s.
Proof.
  revert i. induction s as [|c s IH]; intros i Hi Hnone; [done|].
  cbn [replaceAllFrom].
  rewrite (indexOf_from_none_startsWith _ _ _ Hi Hnone).
  f_equal. apply (IH (i + 1)); [lia|].
  by apply (indexOf_from_none_tail c).
Qed.

(** A pattern that does not occur is not replaced. *)
Lemma replaceAll_absent (s pat rep : jsstring) :
  includes s pat = false → replaceAll s pat rep = s.
Proof.
  unfold includes, indexOf, replaceAll. intros Habsent%negb_false_iff.
  apply Z.eqb_eq in Habsent. by apply (replaceAllFrom_absent _ _ _ 0).
Qed.

(** X4.  A text in which none of the five entities [&gt;], [&lt;],
    [&quot;], [&amp;], [&apos;] occurs is returned by [fixModelHtmlEscaping]
    as it is. *)
Theorem fixModelHtmlEscaping_without_entities (text : jsstring) :
  includes text (str "&gt;") = false →
  includes text (str "&lt;") = false →
  includes text (str "&quot;") = false →
  includes text (str "&amp;") = false →
  includes text (str "&apos;") = false →
  fixModelHtmlEscaping text = text.
Proof.
  intros Hgt Hlt Hquot Hamp Hapos. unfold fixModelHtmlEscaping. cbv zeta.
  by rewrite (replaceAll_absent _ _ _ Hgt), (replaceAll_absent _ _ _ Hlt),
    (replaceAll_absent _ _ _ Hquot), (replaceAll_absent _ _ _ Hamp),
    (replaceAll_absent _ _ _ Hapos).
Qed.

Lemma fixModelHtmlEscaping_without_entities_witness :
  let text := str "if (a < b && c > d) { &nbsp; }" in
  includes text (str "&gt;") = false
  ∧ includes text (str "&lt;") = false
  ∧ includes text (str "&quot;") = false
  ∧ includes text (str "&amp;") = false
  ∧ includes text (str "&apos;") = false
  ∧ fixModelHtmlEscaping text = text.
Proof.
  intros text.
  assert (H1 : includes text (str "&gt;") = false) by (vm_compute; reflexivity).
  assert (H2 : includes text (str "&lt;") = false) by (vm_compute; reflexivity).
  assert (H3 : includes text (str "&quot;") = false)
    by (vm_compute; reflexivity).
  assert (H4 : includes text (str "&amp;") = false) by (vm_compute; reflexivity).
  assert (H5 : includes text (str "&apos;") = false)
    by (vm_compute; reflexivity).
  repeat (split; [assumption|]).
  exact (fixModelHtmlEscaping_without_entities text H1 H2 H3 H4 H5).
Defined.

(** A replacement that is not longer than its pattern never lengthens the
    text. *)
Lemma len_replaceAllFrom (s pat rep : jsstring) (skip : nat) :
  pat ≠ [] → len rep ≤ len pat → (skip ≤ List.length s)%nat →
  len (replaceAllFrom s pat rep skip) ≤ len s - Z.of_nat skip.
Proof.
  intros Hpat Hrep. revert skip.
  assert (Hstarts : ∀ t, startsWith t pat = true →
                         (List.length pat ≤ List.length t)%nat).
  { clear. induction pat as [|x pat IH]; intros t; simpl; [lia|].
    destruct t as [|y t]; [done|]. intros [_ H]%andb_prop.
    apply IH in H. simpl. lia. }
  induction s as [|c s IH]; intros skip Hskip.
  - simpl in *. unfold len. simpl. lia.
  - cbn [replaceAllFrom]. destruct skip as [|skip].
    + destruct (startsWith (c :: s) pat) eqn:E.
      * apply Hstarts in E. simpl in E.
        rewrite len_app, len_cons.
        specialize (IH (List.length pat - 1)%nat ltac:(lia)).
        destruct pat; [done|]. unfold len in *. simpl in *. lia.
      * rewrite !len_cons. specialize (IH 0%nat ltac:(lia)). lia.
    + rewrite len_cons. simpl in Hskip.
      specialize (IH skip ltac:(lia)). lia.
Qed.

(** X5.  [fixModelHtmlEscaping] never returns a text longer than the one
    it was given. *)
Theorem fixModelHtmlEscaping_not_longer (text : jsstring) :
  len (fixModelHtmlEscaping text) ≤ len text.
Proof.
  unfold fixModelHtmlEscaping, replaceAll. cbv zeta.
  assert (Hstep : ∀ s pat rep, pat ≠ [] → len rep ≤ len pat →
                    len (replaceAllFrom s pat rep 0) ≤ len s).
  { intros s pat rep Hpat Hrep.
    pose proof (len_replaceAllFrom s pat rep 0 Hpat Hrep ltac:(lia)). lia. }
  repeat (etrans; [apply Hstep; [discriminate|vm_compute; discriminate]|]).
  lia.
Qed.

(* ================================================================= *)
(** ** Line numbers and offsets *)
(* ================================================================= *)

Lemma split_lines_LF_free (s : jsstring) : Forall (λ l, LF ∉ l) (split_lines s).
Proof.
  induction s as [|c s IH]; simpl.
  - repeat constructor. by intros ?%elem_of_nil.
  - destruct (N.eqb_spec c LF) as [->|Hne].
    + constructor; [by intros ?%elem_of_nil|done].
    + destruct (split_lines s) as [|l ls].
      * repeat constructor. by intros [?|?%elem_of_nil]%elem_of_cons.
      * inversion IH as [|? ? Hl Hls]; subst. constructor; [|done].
        by intros [?|?]%elem_of_cons.
Qed.

Lemma count_newlines_nonneg (s : jsstring) : 0 ≤ count_newlines s.
Proof. unfold count_newlines. apply len_nonneg. Qed.

Lemma count_newlines_split (s : jsstring) :
  count_newlines s + 1 = len (split_lines s).
Proof.
  rewrite <- (join_split s) at 1.
  pose proof (split_lines_LF_free s) as HLF.
  pose proof (split_lines_nonempty s) as Hne.
  induction HLF as [|l ls Hl HLF IH]; [done|].
  destruct ls as [|x xs].
  - simpl. rewrite count_newlines_LF_free by done. reflexivity.
  - change (join_lines (l :: x :: xs)) with (l ++ [LF] ++ join_lines (x :: xs)).
    rewrite !count_newlines_app, count_newlines_LF_free by done.
    change (count_newlines [LF]) with 1.
    rewrite (len_cons l). rewrite <- IH by done. lia.
Qed.

Lemma slice_prefix (s : jsstring) (a : Z) :
  0 ≤ a → slice s 0 a = take (Z.to_nat a) s.
Proof.
  intros Ha. pose proof (len_nonneg s). rewrite slice_nonneg by lia.
  replace (Z.min 0 (len s)) with 0 by lia. rewrite Z.sub_0_r.
  change (Z.to_nat 0) with 0%nat. rewrite drop_0.
  destruct (Z.le_gt_cases a (len s)).
  - by replace (Z.min a (len s)) with a by lia.
  - replace (Z.min a (len s)) with (len s) by lia.
    unfold len in *. rewrite !take_ge by lia. done.
Qed.

(** X6.  The line number of an offset grows with the offset and stays
    below the number of lines: for offsets [0 <= a <= b],
    [getLineNumberFromOffset content a <= getLineNumberFromOffset content b
     < content.split("\n").length]; the offset 0 is on line 0 and an offset
    at or past the end is on the last line. *)
Theorem getLineNumberFromOffset_monotone (content : jsstring) (a b : Z) :
  0 ≤ a → a ≤ b →
  getLineNumberFromOffset content 0 = 0
  ∧ getLineNumberFromOffset content a ≤ getLineNumberFromOffset content b
  ∧ getLineNumberFromOffset content b < len (split_lines content)
  ∧ (len content ≤ b →
     getLineNumberFromOffset content b = len (split_lines content) - 1).
Proof.
  intros Ha Hab. unfold getLineNumberFromOffset.
  rewrite !slice_prefix by lia.
  assert (Hmono : ∀ i j : nat, (i ≤ j)%nat →
            count_newlines (take i content) ≤ count_newlines (take j content)).
  { intros i j Hij. rewrite <- (take_drop i (take j content)), take_take.
    replace (i `min` j)%nat with i by lia. rewrite count_newlines_app.
    pose proof (count_newlines_nonneg (drop i (take j content))). lia. }
  split; [done|]. split; [apply Hmono; lia|].
  pose proof (count_newlines_split content) as Hsplit.
  split.
  - pose proof (Hmono (Z.to_nat b) (length content)) as Hle.
    destruct (Nat.le_gt_cases (Z.to_nat b) (length content)) as [Hin|Hout].
    + specialize (Hle Hin). rewrite firstn_all in Hle. lia.
    + rewrite take_ge by lia. lia.
  - intros Hend. rewrite take_ge by (unfold len in Hend; lia). lia.
Qed.

Lemma getLineNumberFromOffset_monotone_witness :
  let content := unlines ["ab"; "c"; "d"] in
  0 ≤ 2 ∧ 2 ≤ 5
  ∧ getLineNumberFromOffset content 2 ≤ getLineNumberFromOffset content 5
  ∧ getLineNumberFromOffset content 5 < len (split_lines content).
Proof.
  intros content.
  assert (H1 : 0 ≤ 2) by lia. assert (H2 : 2 ≤ 5) by lia.
  pose proof (getLineNumberFromOffset_monotone content 2 5 H1 H2)
    as (_ & H3 & H4 & _).
  split; [exact H1|]. split; [exact H2|]. split; [exact H3|exact H4].
Defined.

(** X7.  Line numbers and offsets agree: the line number
    [getLineNumberFromOffset] gives for the offset the line index stores for
    line [i] is [i], for every line [i] of the content. *)
Theorem line_offset_round_trip (content : jsstring) (i : Z) :
  let idx := LineIndex.buildIndex content in
  0 ≤ i < LineIndex.getLineCount idx →
  getLineNumberFromOffset content (LineIndex.getOffsetForLine idx i) = i.
Proof.
  intros idx Hi. subst idx. rewrite getLineCount_buildIndex in Hi.
  rewrite getOffsetForLine_buildIndex by lia.
  destruct (take_drop_middle_Z (split_lines content) i [] Hi) as (l & Hl & Hcut).
  set (pre := take (Z.to_nat i) (split_lines content)) in *.
  assert (Hcontent : ∃ rest, content = emitLines pre ++ rest).
  { eexists. rewrite <- (join_split content) at 1. rewrite Hcut at 1.
    apply join_lines_cut. }
  destruct Hcontent as [rest Hcontent].
  unfold getLineNumberFromOffset. rewrite Hcontent at 1.
  pose proof (slice_middle [] (emitLines pre) rest) as Hslice.
  cbn [app] in Hslice. rewrite len_nil, Z.add_0_l in Hslice. rewrite Hslice.
  rewrite count_newlines_emitLines.
  - subst pre. unfold len in *. rewrite length_take. lia.
  - subst pre. apply Forall_take, split_lines_LF_free.
Qed.

Lemma line_offset_round_trip_witness :
  let content := unlines ["ab"; "c"] ++ str "d" in
  let idx := LineIndex.buildIndex content in
  (0 ≤ 2 < LineIndex.getLineCount idx)
  ∧ LineIndex.getOffsetForLine idx 2 = 5
  ∧ getLineNumberFromOffset content 5 = 2.
Proof.
  intros content idx.
  assert (H : 0 ≤ 2 < LineIndex.getLineCount idx).
  { vm_compute. split; [discriminate|reflexivity]. }
  split; [exact H|]. split; [vm_compute; reflexivity|].
  exact (line_offset_round_trip content 2 H).
Defined.

(* ================================================================= *)
(** ** A final call without blocks *)
(* ================================================================= *)

Lemma finish_initialState (original : jsstring) :
  finish original true initialState
  = {| content := original; changedRegions := [] |}.
Proof.
  unfold finish. cbn [andb lastProcessedIndex initialState result regions].
  destruct (Z.ltb_spec 0 (len original)) as [Hpos|Hzero].
  - by rewrite toString_appendSlice, slice_all by done.
  - pose proof (len_nonneg original).
    by rewrite (len_zero_nil original) by lia.
Qed.

(** X8.  A final call whose diff has no marker line returns the original
    unchanged, with no change region; in particular the empty diff does. *)
Theorem final_call_without_markers_is_identity (diff original : jsstring) :
  (∀ l, l ∈ split_lines diff → ordinary l) →
  constructNewFileContent diff original true
  = inl {| content := original; changedRegions := [] |}.
Proof.
  intros Hord. unfold constructNewFileContent.
  destruct (true && negb (includes diff SEARCH_MARKER)).
  - by rewrite finish_initialState.
  - rewrite processLines_idle; [by rewrite finish_initialState
                               | |reflexivity|reflexivity].
    apply Forall_forall. intros l Hl. apply Hord. by apply elem_of_diffLines.
Qed.

Lemma final_call_without_markers_is_identity_witness :
  (∀ l, l ∈ split_lines (str "not a <<<<<<< SEARCH line") → ordinary l)
  ∧ constructNewFileContent (str "not a <<<<<<< SEARCH line")
      (unlines ["keep"; "me"]) true
    = inl {| content := unlines ["keep"; "me"]; changedRegions := [] |}.
Proof.
  assert (H : ∀ l, l ∈ split_lines (str "not a <<<<<<< SEARCH line")
                   → ordinary l).
  { intros l Hl. vm_compute in Hl.
    repeat (apply elem_of_cons in Hl as [->|Hl]; [repeat split; discriminate|]).
    by apply elem_of_nil in Hl. }
  split; [exact H|].
  apply (final_call_without_markers_is_identity _ _ H).
Defined.

(* ================================================================= *)
(** ** The line index and the line matchers against a reference search *)
(* ================================================================= *)

Lemma filter_ext_in {A} (P Q : A → Prop)
    `{!∀ x, Decision (P x), !∀ x, Decision (Q x)} (l : list A) :
  (∀ x, x ∈ l → (P x ↔ Q x)) → filter P l = filter Q l.
Proof.
  induction l as [|x l IH]; intros Hext; [done|].
  rewrite !filter_cons, IH by (intros y Hy; apply Hext; by right).
  destruct (decide (P x)) as [HP|HP], (decide (Q x)) as [HQ|HQ]; try done.
  - exfalso. apply HQ, Hext; [left|done].
  - exfalso. apply HP, Hext; [left|done].
Qed.

Lemma firstSuch_unique (P : Z → Prop) (r1 r2 : option Z) :
  firstSuch P r1 → firstSuch P r2 → r1 = r2.
Proof.
  destruct r1 as [p1|], r2 as [p2|]; simpl.
  - intros [H1 L1] [H2 L2]. f_equal.
    destruct (Z.lt_trichotomy p1 p2) as [Hlt|[->|Hlt]]; [|done|].
    + by destruct (L2 p1 Hlt).
    + by destruct (L1 p2 Hlt).
  - intros [H1 _] H2. by destruct (H2 p1).
  - intros H1 [H2 _]. by destruct (H1 p2).
  - done.
Qed.

Lemma firstSuch_iff (P Q : Z → Prop) (r : option Z) :
  (∀ p, P p ↔ Q p) → firstSuch P r → firstSuch Q r.
Proof.
  intros HPQ. destruct r as [p|]; simpl.
  - intros [HP Hleast]. split; [by apply HPQ|].
    intros q Hq HQ. apply (Hleast q Hq). by apply HPQ.
  - intros Hnone q HQ. apply (Hnone q). by apply HPQ.
Qed.

Lemma head_filter_seqZ (P : Z → Prop) `{!∀ p, Decision (P p)} (a n : Z) :
  firstSuch (λ p, a ≤ p < a + n ∧ P p) (head (filter P (seqZ a n))).
Proof.
  remember (Z.to_nat n) as k eqn:Hk. revert a n Hk.
  induction k as [|k IH]; intros a n Hk.
  - rewrite seqZ_nil by lia. simpl. intros q [? _]. lia.
  - rewrite seqZ_cons, filter_cons by lia.
    destruct (decide (P a)) as [Ha|Ha].
    + simpl. split; [split; [lia|done]|]. intros q Hq [? _]. lia.
    + specialize (IH (Z.succ a) (Z.pred n) ltac:(lia)).
      destruct (head (filter P (seqZ (Z.succ a) (Z.pred n)))) as [p|]; simpl in *.
      * destruct IH as [[Hp HP] Hleast]. split; [split; [lia|done]|].
        intros q Hq [Hrange HQ].
        destruct (decide (q = a)) as [->|Hne]; [done|].
        apply (Hleast q Hq). split; [lia|done].
      * intros q [Hrange HQ].
        destruct (decide (q = a)) as [->|Hne]; [done|].
        apply (IH q). split; [lia|done].
Qed.

Lemma trimStart_head (s : jsstring) :
  match trimStart s with [] => True | c :: _ => is_ws c = false end.
Proof.
  induction s as [|c s IH]; simpl; [done|].
  destruct (is_ws c) eqn:E; [done|]. exact E.
Qed.

Lemma trimEnd_cons_keep (c : N) (s : jsstring) :
  is_ws c = false → trimEnd (c :: s) = c :: trimEnd s.
Proof. intros Hc. simpl. rewrite Hc. by destruct (trimEnd s). Qed.

Lemma trimEnd_idemp (s : jsstring) : trimEnd (trimEnd s) = trimEnd s.
Proof.
  induction s as [|c s IH]; [done|]. simpl.
  destruct (trimEnd s) as [|x t] eqn:E.
  - destruct (is_ws c) eqn:Hc; [done|]. simpl. by rewrite Hc.
  - change (trimEnd (c :: x :: t)) with
      (match trimEnd (x :: t) with
       | [] => if is_ws c then [] else [c]
       | u => c :: u
       end).
    by rewrite IH.
Qed.

Lemma trim_idemp (s : jsstring) : trim (trim s) = trim s.
Proof.
  unfold trim. pose proof (trimStart_head s) as Hhead.
  destruct (trimStart s) as [|c t]; [done|].
  rewrite trimEnd_cons_keep by done. simpl trimStart. rewrite Hhead.
  rewrite <- (trimEnd_cons_keep c t) by done. apply trimEnd_idemp.
Qed.

Lemma line_at_lookup (ls : list jsstring) (i : nat) (l : jsstring) :
  ls !! i = Some l → line_at ls (Z.of_nat i) = l.
Proof.
  intros Hl. unfold line_at. destruct (Z.ltb_spec (Z.of_nat i) 0); [lia|].
  by rewrite Nat2Z.id, Hl.
Qed.

Lemma line_at_middle (pre : list jsstring) (l : jsstring) (rest : list jsstring) :
  line_at (pre ++ l :: rest) (len pre) = l.
Proof. apply line_at_lookup. by rewrite list_lookup_middle. Qed.

Lemma pushPosition_lookup m key i key' :
  default [] (LineIndex.pushPosition m key i !! key')
  = default [] (m !! key') ++ (if decide (key = key') then [i] else []).
Proof.
  unfold LineIndex.pushPosition.
  destruct (decide (key = key')) as [<-|Hne].
  - rewrite lookup_insert_eq. simpl. destruct (m !! key) as [ps|] eqn:E.
    + by rewrite E.
    + by rewrite lookup_insert_eq.
  - rewrite lookup_insert_ne by done. rewrite app_nil_r.
    destruct (m !! key); [done|]. by rewrite lookup_insert_ne.
Qed.

(** The positions the loop of [buildIndex] adds for a key: the numbers of
    the lines whose trimmed text is the key, in ascending order. *)
Lemma buildIndexLoop_positions pre rest offset positions offsets key :
  default []
    ((LineIndex.buildIndexLoop rest (len pre) offset positions offsets).1.1
       !! key)
  = default [] (positions !! key)
    ++ filter (λ p, trim (line_at (pre ++ rest) p) = key)
         (seqZ (len pre) (len rest)).
Proof.
  revert pre offset positions offsets.
  induction rest as [|l rest IH]; intros pre offset positions offsets.
  - simpl. by rewrite app_nil_r.
  - cbn [LineIndex.buildIndexLoop].
    replace (len pre + 1) with (len (pre ++ [l]))
      by (rewrite len_app, len_cons, len_nil; lia).
    rewrite IH, pushPosition_lookup, <- !app_assoc. f_equal.
    pose proof (len_nonneg rest).
    rewrite (len_cons l rest), (seqZ_cons (len pre)) by lia.
    rewrite filter_cons, line_at_middle.
    replace (Z.succ (len pre)) with (len (pre ++ [l]))
      by (rewrite len_app, len_cons, len_nil; lia).
    replace (Z.pred (1 + len rest)) with (len rest) by lia.
    cbn [app]. by destruct (decide (trim l = key)).
Qed.

Lemma getPositionsForLine_buildIndex (content lineContent : jsstring) :
  LineIndex.getPositionsForLine (LineIndex.buildIndex content) lineContent
  = filter (λ p, trim (line_at (split_lines content) p) = trim lineContent)
      (seqZ 0 (len (split_lines content))).
Proof.
  unfold LineIndex.getPositionsForLine, LineIndex.buildIndex.
  pose proof (buildIndexLoop_positions [] (split_lines content) 0 ∅ []
                (trim lineContent)) as Hpos.
  destruct (LineIndex.buildIndexLoop _ _ _ _ _) as [[positions offsets] offset].
  cbn [LineIndex.contentToPositions]. simpl in Hpos. exact Hpos.
Qed.

Lemma StronglySorted_filter {A} (R : relation A) (P : A → Prop)
    `{!∀ x, Decision (P x)} (l : list A) :
  StronglySorted R l → StronglySorted R (filter P l).
Proof.
  induction 1 as [|x l Hl IH Hx]; [constructor|].
  rewrite filter_cons. destruct (decide (P x)); [|done].
  constructor; [done|]. apply Forall_forall.
  intros y [_ Hy]%list_elem_of_filter. by eapply Forall_forall in Hx.
Qed.

(** X9.  The positions the index of a content holds for a line are the
    numbers of the lines of the content that equal it after trimming: every
    such line number once, in ascending order, and nothing else (so an
    unknown line has no position). *)
Theorem index_positions_are_the_matching_lines (content lineContent : jsstring) :
  let positions :=
    LineIndex.getPositionsForLine (LineIndex.buildIndex content) lineContent in
  (∀ p, p ∈ positions
        ↔ 0 ≤ p < len (split_lines content)
          ∧ trim (line_at (split_lines content) p) = trim lineContent)
  ∧ NoDup positions
  ∧ StronglySorted Z.lt positions.
Proof.
  intros positions. subst positions. rewrite getPositionsForLine_buildIndex.
  split; [|split].
  - intros p. rewrite list_elem_of_filter, elem_of_seqZ. split.
    + intros [Heq Hrange]. split; [lia|done].
    + intros [Hrange Heq]. split; [done|lia].
  - apply NoDup_filter, NoDup_seqZ.
  - apply StronglySorted_filter.
    generalize (len (split_lines content)), 0.
    intros n a. remember (Z.to_nat n) as k eqn:Hk. revert a n Hk.
    induction k as [|k IH]; intros a n Hk.
    + rewrite seqZ_nil by lia. constructor.
    + rewrite seqZ_cons by lia. constructor; [apply IH; lia|].
      apply Forall_seqZ. intros q Hq. lia.
Qed.

Lemma line_at_lookup_Z (ls : list jsstring) (i : Z) (l : jsstring) :
  0 ≤ i → ls !! Z.to_nat i = Some l → line_at ls i = l.
Proof.
  intros Hi Hl. unfold line_at. destruct (Z.ltb_spec i 0); [lia|].
  by rewrite Hl.
Qed.

Lemma len_pos {A} (l : list A) : l ≠ [] → 0 < len l.
Proof.
  destruct l; [done|]. intros _. rewrite len_cons.
  pose proof (len_nonneg l). lia.
Qed.

Lemma trimmedBlockAt_range lines searchLines pos :
  searchLines ≠ [] →
  trimmedBlockAt lines searchLines pos →
  0 ≤ pos ∧ pos + len searchLines ≤ len lines.
Proof.
  intros Hne%len_pos [Hpos Heq]. split; [done|].
  apply (f_equal length) in Heq.
  rewrite !length_fmap, length_take, length_drop in Heq.
  unfold len in *. lia.
Qed.

(** What [trimmedBlockAt] says line by line. *)
Lemma trimmedBlockAt_line lines searchLines pos j :
  trimmedBlockAt lines searchLines pos → 0 ≤ j < len searchLines →
  trim (line_at lines (pos + j)) = trim (line_at searchLines j).
Proof.
  intros [Hpos Heq] Hj. unfold len in Hj.
  apply (f_equal (.!! Z.to_nat j)) in Heq.
  rewrite !list_lookup_fmap, lookup_take_lt, lookup_drop in Heq by lia.
  destruct (searchLines !! Z.to_nat j) as [s|] eqn:Hs.
  2:{ apply lookup_ge_None in Hs. lia. }
  destruct (lines !! (Z.to_nat pos + Z.to_nat j)%nat) as [x|] eqn:Hx; [|done].
  simpl in Heq. injection Heq as Heq.
  rewrite (line_at_lookup_Z lines (pos + j) x), (line_at_lookup_Z searchLines j s);
    [done|lia|done|lia|].
  by replace (Z.to_nat (pos + j)) with (Z.to_nat pos + Z.to_nat j)%nat by lia.
Qed.

(** The inner loop of [findExactMatch] decides [trimmedBlockAt]. *)
Lemma blockMatchesAt_spec idx rest pos i :
  0 ≤ pos + i →
  LineIndex.blockMatchesAt idx rest pos i = true
  ↔ trim <$> take (length rest)
               (drop (Z.to_nat (pos + i)) (LineIndex.lines idx))
    = trim <$> rest.
Proof.
  revert i. induction rest as [|s rest IH]; intros i Hi.
  - simpl. done.
  - cbn [LineIndex.blockMatchesAt length].
    destruct (Z.leb_spec (len (LineIndex.lines idx)) (pos + i)) as [Hout|Hin];
      rewrite Z.geb_leb.
    + apply Z.leb_le in Hout as Hout'. rewrite Hout'. cbn [orb].
      rewrite drop_ge by (unfold len in Hout; lia). simpl. split; done.
    + apply Z.leb_gt in Hin as Hin'. rewrite Hin'. cbn [orb].
      destruct (LineIndex.lines idx !! Z.to_nat (pos + i)) as [x|] eqn:Hx.
      2:{ apply lookup_ge_None in Hx. unfold len in Hin. lia. }
      rewrite (drop_S _ _ _ Hx), firstn_cons, !fmap_cons.
      rewrite (line_at_lookup_Z _ _ _ Hi Hx).
      destruct (streq (trim x) (trim s)) eqn:E; cbn [negb].
      * apply streq_spec in E. rewrite E.
        rewrite (IH (i + 1)) by lia.
        replace (Z.to_nat (pos + (i + 1))) with (S (Z.to_nat (pos + i))) by lia.
        split; [by intros ->|]. by intros [= ->].
      * split; [done|]. intros [= Heq _].
        apply streq_spec in Heq. congruence.
Qed.

Lemma emitLines_take_S (lines : list jsstring) (k : nat) (l : jsstring) :
  lines !! k = Some l →
  len (emitLines (take (S k) lines))
  = len (emitLines (take k lines)) + len l + 1.
Proof.
  intros Hl. rewrite (take_S_r _ _ l) by done.
  rewrite emitLines_app, len_app.
  change (emitLines [l]) with ((l ++ [LF]) ++ []).
  rewrite !len_app, len_cons, !len_nil. lia.
Qed.

Lemma blockRange_end (lines : list jsstring) (pos size : Z) :
  0 ≤ pos → 0 ≤ size →
  (blockRange lines pos size).2
  = len (emitLines (take (Z.to_nat (pos + size)) lines)).
Proof.
  intros Hpos Hsize. unfold blockRange. cbn [snd].
  replace (Z.to_nat (pos + size)) with (Z.to_nat pos + Z.to_nat size)%nat by lia.
  by rewrite <- take_take_drop, emitLines_app, len_app.
Qed.

(** The offsets [findExactMatch] computes for a block that is there. *)
Lemma findExactMatch_offsets content searchLines pos :
  searchLines ≠ [] →
  trimmedBlockAt (split_lines content) searchLines pos →
  let idx := LineIndex.buildIndex content in
  (LineIndex.getOffsetForLine idx pos,
   if pos + len searchLines <? len (LineIndex.lines idx)
   then LineIndex.getOffsetForLine idx (pos + len searchLines)
   else LineIndex.getOffsetForLine idx (len (LineIndex.lines idx) - 1)
        + len (line_at (LineIndex.lines idx) (len (LineIndex.lines idx) - 1))
        + 1)
  = blockRange (split_lines content) pos (len searchLines).
Proof.
  intros Hne Hblock idx. subst idx. rewrite lines_buildIndex.
  destruct (trimmedBlockAt_range _ _ _ Hne Hblock) as [Hpos Hrange].
  pose proof (len_pos _ Hne) as Hsize.
  set (lines := split_lines content) in *.
  rewrite (surjective_pairing (blockRange lines pos (len searchLines))).
  f_equal.
  - rewrite getOffsetForLine_buildIndex by (fold lines; lia). reflexivity.
  - rewrite blockRange_end by lia.
    destruct (Z.ltb_spec (pos + len searchLines) (len lines)) as [Hlt|Hge].
    + rewrite getOffsetForLine_buildIndex by (fold lines; lia). reflexivity.
    + rewrite getOffsetForLine_buildIndex by (fold lines; lia). fold lines.
      destruct (take_drop_middle_Z lines (len lines - 1) [] ltac:(lia))
        as (l & Hl & _).
      rewrite (line_at_lookup_Z lines (len lines - 1) l) by (lia || done).
      replace (Z.to_nat (pos + len searchLines))
        with (S (Z.to_nat (len lines - 1))) by lia.
      by rewrite (emitLines_take_S _ _ _ Hl).
Qed.

(** The loop of [findExactMatch] returns the range of the first candidate
    position at which the block is. *)
Lemma findExactMatchLoop_first content searchLines positions :
  searchLines ≠ [] → Forall (λ p, 0 ≤ p) positions →
  LineIndex.findExactMatchLoop (LineIndex.buildIndex content) searchLines
    positions
  = pos ← head (filter (trimmedBlockAt (split_lines content) searchLines)
                  positions);
    Some (blockRange (split_lines content) pos (len searchLines)).
Proof.
  intros Hne. induction 1 as [|pos positions Hpos _ IH]; [done|].
  cbn [LineIndex.findExactMatchLoop]. rewrite filter_cons.
  assert (Hdec : LineIndex.blockMatchesAt (LineIndex.buildIndex content)
                   searchLines pos 0 = true
                 ↔ trimmedBlockAt (split_lines content) searchLines pos).
  { rewrite blockMatchesAt_spec by lia. rewrite lines_buildIndex, Z.add_0_r.
    unfold trimmedBlockAt. tauto. }
  destruct (LineIndex.blockMatchesAt _ _ _ _).
  - assert (Hblock : trimmedBlockAt (split_lines content) searchLines pos)
      by by apply Hdec.
    destruct (decide (trimmedBlockAt (split_lines content) searchLines pos));
      [|done].
    cbn [head mbind option_bind]. f_equal.
    by apply findExactMatch_offsets.
  - destruct (decide (trimmedBlockAt (split_lines content) searchLines pos))
      as [Hblock|_]; [|done].
    apply Hdec in Hblock. done.
Qed.

(** The candidate positions of [findPotentialMatches], for a search block
    that is not empty. *)
Lemma findPotentialMatches_buildIndex content searchLines start :
  searchLines ≠ [] →
  let lines := split_lines content in
  LineIndex.findPotentialMatches (LineIndex.buildIndex content) searchLines
    start
  = filter (λ p, start ≤ p
                 ∧ trim (line_at lines p) = trim (line_at searchLines 0)
                 ∧ p + len searchLines - 1 < len lines
                 ∧ trim (line_at lines (p + len searchLines - 1))
                   = trim (line_at searchLines (len searchLines - 1)))
      (seqZ 0 (len lines)).
Proof.
  intros Hne%len_pos lines. unfold LineIndex.findPotentialMatches.
  destruct (Z.eqb_spec (len searchLines) 0) as [?|_]; [lia|].
  rewrite !getPositionsForLine_buildIndex, lines_buildIndex. fold lines.
  rewrite trim_idemp.
  destruct (Z.eqb_spec (len searchLines) 1) as [Hone|_].
  - rewrite list_filter_filter. apply filter_ext_in.
    intros p [_ Hp]%elem_of_seqZ. rewrite Hone.
    replace (p + 1 - 1) with p by lia. replace (1 - 1) with 0 by lia.
    split; [|tauto]. intros (? & ?). repeat split; (done || lia).
  - set (firstLinePositions := filter _ (filter _ _)).
    transitivity
      (filter (λ pos,
                 pos + len searchLines - 1 < len lines
                 ∧ trim (line_at lines (pos + len searchLines - 1))
                   = trim (line_at searchLines (len searchLines - 1)))
         firstLinePositions).
    + destruct (Z.eqb_spec (len firstLinePositions) 0) as [Hnone|_]; [|done].
      by rewrite (len_zero_nil _ Hnone).
    + subst firstLinePositions. rewrite !list_filter_filter.
      apply list_filter_iff. intros p. tauto.
Qed.

Lemma findExactMatch_buildIndex content searchLines start :
  searchLines ≠ [] →
  LineIndex.findExactMatch (LineIndex.buildIndex content) searchLines start
  = firstBlock (trimmedBlockAt (split_lines content) searchLines)
      (split_lines content) start (len searchLines).
Proof.
  intros Hne. unfold LineIndex.findExactMatch, firstBlock.
  rewrite findPotentialMatches_buildIndex by done.
  rewrite findExactMatchLoop_first; [|done|].
  2:{ apply Forall_forall. intros p [_ [? _]%elem_of_seqZ]%list_elem_of_filter.
      lia. }
  rewrite list_filter_filter. f_equal. f_equal.
  apply list_filter_iff. intros p. split; [tauto|].
  intros [Hstart Hblock]. split; [done|]. split; [done|].
  pose proof (len_pos _ Hne) as Hsize.
  destruct (trimmedBlockAt_range _ _ _ Hne Hblock) as [Hpos Hrange].
  pose proof (trimmedBlockAt_line _ _ _ 0 Hblock ltac:(lia)) as Hfirst.
  pose proof (trimmedBlockAt_line _ _ _ (len searchLines - 1) Hblock
                ltac:(lia)) as Hlast.
  rewrite Z.add_0_r in Hfirst.
  replace (p + (len searchLines - 1)) with (p + len searchLines - 1)
    in Hlast by lia.
  repeat split; (done || lia).
Qed.

(** What the reference search returns. *)
Lemma firstBlock_spec (P : Z → Prop) `{!∀ p, Decision (P p)}
    (lines : list jsstring) (start size : Z) :
  (∀ p, P p → 0 ≤ p < len lines) →
  match firstBlock P lines start size with
  | Some r =>
      ∃ pos, start ≤ pos ∧ P pos ∧ (∀ q, start ≤ q < pos → ¬ P q)
             ∧ r = blockRange lines pos size
  | None => ∀ q, start ≤ q → ¬ P q
  end.
Proof.
  intros Hrange. unfold firstBlock.
  pose proof (head_filter_seqZ (λ p, start ≤ p ∧ P p) 0 (len lines)) as Hhead.
  destruct (head _) as [pos|]; simpl in *.
  - destruct Hhead as [(_ & Hstart & HP) Hleast]. exists pos.
    split; [done|]. split; [done|]. split; [|done].
    intros q Hq HQ. apply (Hleast q); [lia|].
    specialize (Hrange q HQ). split; [lia|]. split; [lia|done].
  - intros q Hq HQ. apply (Hhead q).
    specialize (Hrange q HQ). split; [lia|]. done.
Qed.

(** X10.  The candidate positions of [findPotentialMatches], for a search
    block that is not empty, are the line numbers [p >= startLinePos] at
    which the block fits into the file and whose first and last line equal
    the first and last search line after trimming; so no position at which
    the whole block is, is left out. *)
Theorem findPotentialMatches_keeps_every_block content searchLines start p :
  searchLines ≠ [] →
  let lines := split_lines content in
  let candidates :=
    LineIndex.findPotentialMatches (LineIndex.buildIndex content) searchLines
      start in
  (p ∈ candidates
   ↔ 0 ≤ p ∧ start ≤ p ∧ p + len searchLines ≤ len lines
     ∧ trim (line_at lines p) = trim (line_at searchLines 0)
     ∧ trim (line_at lines (p + len searchLines - 1))
       = trim (line_at searchLines (len searchLines - 1)))
  ∧ (start ≤ p → trimmedBlockAt lines searchLines p → p ∈ candidates).
Proof.
  intros Hne lines candidates. subst candidates.
  rewrite findPotentialMatches_buildIndex by done. fold lines.
  pose proof (len_pos _ Hne) as Hsize.
  assert (Hiff : p ∈ filter
            (λ p, start ≤ p
                  ∧ trim (line_at lines p) = trim (line_at searchLines 0)
                  ∧ p + len searchLines - 1 < len lines
                  ∧ trim (line_at lines (p + len searchLines - 1))
                    = trim (line_at searchLines (len searchLines - 1)))
            (seqZ 0 (len lines))
          ↔ 0 ≤ p ∧ start ≤ p ∧ p + len searchLines ≤ len lines
            ∧ trim (line_at lines p) = trim (line_at searchLines 0)
            ∧ trim (line_at lines (p + len searchLines - 1))
              = trim (line_at searchLines (len searchLines - 1))).
  { rewrite list_elem_of_filter, elem_of_seqZ. split.
    - intros [(? & ? & ? & ?) ?]. repeat split; (done || lia).
    - intros (? & ? & ? & ? & ?). repeat split; (done || lia). }
  split; [exact Hiff|].
  intros Hstart Hblock. apply Hiff.
  destruct (trimmedBlockAt_range _ _ _ Hne Hblock) as [Hpos Hrange].
  pose proof (trimmedBlockAt_line _ _ _ 0 Hblock ltac:(lia)) as Hfirst.
  pose proof (trimmedBlockAt_line _ _ _ (len searchLines - 1) Hblock
                ltac:(lia)) as Hlast.
  rewrite Z.add_0_r in Hfirst.
  replace (p + (len searchLines - 1)) with (p + len searchLines - 1)
    in Hlast by lia.
  repeat split; (done || lia).
Qed.

Lemma findPotentialMatches_keeps_every_block_witness :
  let content := unlines ["a"; " b "; "c"; "a"; "b"] in
  let searchLines := [str "a"; str "b"] in
  searchLines ≠ []
  ∧ trimmedBlockAt (split_lines content) searchLines 3
  ∧ 3 ∈ LineIndex.findPotentialMatches (LineIndex.buildIndex content)
          searchLines 1.
Proof.
  intros content searchLines.
  assert (Hne : searchLines ≠ []) by done.
  assert (Hblock : trimmedBlockAt (split_lines content) searchLines 3).
  { split; [lia|vm_compute; reflexivity]. }
  split; [exact Hne|]. split; [exact Hblock|].
  apply (findPotentialMatches_keeps_every_block content searchLines 1 3 Hne);
    [lia|exact Hblock].
Defined.

(** X11.  [findExactMatch] of the index of a content, for a search block
    that is not empty, finds the first line number at or after
    [startLinePos] at which the lines of the content equal the search lines
    after trimming, and returns the offsets of these lines, each counted
    with its line feed; it returns [null] only if there is no such line
    number. *)
Theorem findExactMatch_finds_first_block content searchLines start :
  searchLines ≠ [] →
  let lines := split_lines content in
  match LineIndex.findExactMatch (LineIndex.buildIndex content) searchLines
          start with
  | Some range =>
      ∃ pos, start ≤ pos ∧ trimmedBlockAt lines searchLines pos
             ∧ (∀ q, start ≤ q < pos → ¬ trimmedBlockAt lines searchLines q)
             ∧ range = blockRange lines pos (len searchLines)
  | None => ∀ q, start ≤ q → ¬ trimmedBlockAt lines searchLines q
  end.
Proof.
  intros Hne lines. rewrite findExactMatch_buildIndex by done.
  apply firstBlock_spec. intros p Hp.
  destruct (trimmedBlockAt_range _ _ _ Hne Hp) as [Hpos Hrange].
  pose proof (len_pos _ Hne). lia.
Qed.

Lemma findExactMatch_finds_first_block_witness :
  let content := unlines ["a"; " b "; "c"; "a"; "b"] in
  let searchLines := [str "a"; str "b"] in
  let lines := split_lines content in
  searchLines ≠ []
  ∧ LineIndex.findExactMatch (LineIndex.buildIndex content) searchLines 1
    = Some (8, 12)
  ∧ match LineIndex.findExactMatch (LineIndex.buildIndex content) searchLines
            1 with
    | Some range =>
        ∃ pos, 1 ≤ pos ∧ trimmedBlockAt lines searchLines pos
               ∧ (∀ q, 1 ≤ q < pos → ¬ trimmedBlockAt lines searchLines q)
               ∧ range = blockRange lines pos (len searchLines)
    | None => ∀ q, 1 ≤ q → ¬ trimmedBlockAt lines searchLines q
    end.
Proof.
  intros content searchLines lines.
  assert (Hne : searchLines ≠ []) by done.
  split; [exact Hne|]. split; [vm_compute; reflexivity|].
  exact (findExactMatch_finds_first_block content searchLines 1 Hne).
Defined.

(* ================================================================= *)
(** ** The direct scans against the reference search *)
(* ================================================================= *)

Lemma head_filter_same (P Q : Z → Prop)
    `{!∀ p, Decision (P p), !∀ p, Decision (Q p)} (a n b m : Z) :
  (∀ p, a ≤ p < a + n ∧ P p ↔ b ≤ p < b + m ∧ Q p) →
  head (filter P (seqZ a n)) = head (filter Q (seqZ b m)).
Proof.
  intros Hsame.
  apply (firstSuch_unique (λ p, a ≤ p < a + n ∧ P p));
    [apply head_filter_seqZ|].
  apply (firstSuch_iff (λ p, b ≤ p < b + m ∧ Q p)); [|apply head_filter_seqZ].
  intros p. by rewrite Hsame.
Qed.

(** The map of the direct line-trimmed scan holds, for a key, the numbers
    of the scanned lines whose trimmed text is the key, in ascending order. *)
Lemma buildLineHashMap_lookup originalLines startLineNum searchLen key :
  default [] (buildLineHashMap originalLines startLineNum searchLen !! key)
  = filter (λ p, trim (line_at originalLines p) = key)
      (seqZ startLineNum (len originalLines - searchLen - startLineNum + 1)).
Proof.
  unfold buildLineHashMap.
  generalize (seqZ startLineNum
                (len originalLines - searchLen - startLineNum + 1)).
  intros ks.
  change (filter (λ p, trim (line_at originalLines p) = key) ks)
    with (default [] ((∅ : gmap jsstring (list Z)) !! key)
          ++ filter (λ p, trim (line_at originalLines p) = key) ks).
  generalize (∅ : gmap jsstring (list Z)).
  induction ks as [|k ks IH]; intros m.
  - simpl. by rewrite app_nil_r.
  - cbn [fold_left]. rewrite IH, pushPosition_lookup, filter_cons, <- app_assoc.
    by destruct (decide (trim (line_at originalLines k) = key)).
Qed.

(** The comparison loop of the direct scan decides [trimmedBlockAt] for a
    position at which the block fits into the file. *)
Lemma linesMatchAt_spec originalLines rest pos j :
  0 ≤ pos + j → pos + j + len rest ≤ len originalLines →
  linesMatchAt originalLines rest pos j = true
  ↔ trim <$> take (length rest) (drop (Z.to_nat (pos + j)) originalLines)
    = trim <$> rest.
Proof.
  revert j. induction rest as [|s rest IH]; intros j Hj Hfit.
  - simpl. done.
  - cbn [linesMatchAt length]. rewrite len_cons in Hfit.
    pose proof (len_nonneg rest).
    destruct (originalLines !! Z.to_nat (pos + j)) as [x|] eqn:Hx.
    2:{ apply lookup_ge_None in Hx. unfold len in *. lia. }
    rewrite (drop_S _ _ _ Hx), firstn_cons, !fmap_cons.
    rewrite (line_at_lookup_Z _ _ _ Hj Hx).
    destruct (streq (trim x) (trim s)) eqn:E; cbn [negb].
    + apply streq_spec in E. rewrite E.
      rewrite (IH (j + 1)) by lia.
      replace (Z.to_nat (pos + (j + 1))) with (S (Z.to_nat (pos + j))) by lia.
      split; [by intros ->|]. by intros [= ->].
    + split; [done|]. intros [= Heq _].
      apply streq_spec in Heq. congruence.
Qed.

(** [addLineLengths] adds the length of the lines it visits, each with one
    line feed. *)
Lemma addLineLengths_block (originalLines : list jsstring) (from acc : Z)
    (count : nat) :
  0 ≤ from → from + Z.of_nat count ≤ len originalLines →
  addLineLengths originalLines from (Z.of_nat count) acc
  = acc + len (emitLines (take count (drop (Z.to_nat from) originalLines))).
Proof.
  intros Hfrom. unfold addLineLengths. induction count as [|c IH]; intros Hfit.
  - simpl. rewrite take_0. change (len (emitLines [])) with 0. lia.
  - rewrite seqZ_S, fold_left_app, IH by lia. cbn [fold_left].
    destruct (originalLines !! Z.to_nat (from + Z.of_nat c)) as [l|] eqn:Hl.
    2:{ apply lookup_ge_None in Hl. unfold len in *. lia. }
    rewrite (line_at_lookup_Z originalLines (from + Z.of_nat c) l)
      by (lia || done).
    rewrite (emitLines_take_S _ c l); [lia|].
    rewrite lookup_drop. rewrite <- Hl. f_equal. lia.
Qed.

Lemma blockRange_addLineLengths (originalLines : list jsstring) (pos size : Z) :
  0 ≤ pos → 0 ≤ size → pos + size ≤ len originalLines →
  (addLineLengths originalLines 0 pos 0,
   addLineLengths originalLines pos size (addLineLengths originalLines 0 pos 0))
  = blockRange originalLines pos size.
Proof.
  intros Hpos Hsize Hfit. unfold blockRange.
  assert (Hstart : addLineLengths originalLines 0 pos 0
                   = len (emitLines (take (Z.to_nat pos) originalLines))).
  { rewrite <- (Z2Nat.id pos) at 1 by done.
    apply addLineLengths_prefix. unfold len in *. lia. }
  rewrite Hstart. f_equal.
  rewrite <- (Z2Nat.id size) at 1 by done.
  apply addLineLengths_block; lia.
Qed.

(** The verification loop of the direct line-trimmed scan returns the
    range of the first candidate position at which the block is. *)
Lemma lineTrimmedVerify_first originalLines searchLines positions :
  Forall (λ p, 0 ≤ p ∧ p + len searchLines ≤ len originalLines) positions →
  lineTrimmedVerify originalLines searchLines positions
  = pos ← head (filter (trimmedBlockAt originalLines searchLines) positions);
    Some (blockRange originalLines pos (len searchLines)).
Proof.
  induction 1 as [|pos positions [Hpos Hfit] _ IH]; [done|].
  cbn [lineTrimmedVerify]. rewrite filter_cons.
  assert (Hdec : linesMatchAt originalLines searchLines pos 0 = true
                 ↔ trimmedBlockAt originalLines searchLines pos).
  { rewrite linesMatchAt_spec by lia. rewrite Z.add_0_r.
    unfold trimmedBlockAt. tauto. }
  pose proof (len_nonneg searchLines).
  destruct (linesMatchAt _ _ _ _).
  - destruct (decide (trimmedBlockAt originalLines searchLines pos)) as [_|Hno].
    2:{ destruct Hno. by apply Hdec. }
    cbn [head mbind option_bind]. f_equal.
    by apply blockRange_addLineLengths.
  - destruct (decide (trimmedBlockAt originalLines searchLines pos))
      as [Hblock|_]; [|done].
    apply Hdec in Hblock. done.
Qed.

Lemma directStartLine_nonneg originalLines cursor :
  0 ≤ directStartLine originalLines cursor 0 0 ≤ len originalLines.
Proof.
  destruct (directStartLine_spec originalLines cursor 0 0) as (k & -> & Hk & _).
  unfold len. lia.
Qed.

Lemma len_split_lines_pos (s : jsstring) : 0 < len (split_lines s).
Proof. apply len_pos, split_lines_nonempty. Qed.

Lemma filter_none {A} (P : A → Prop) `{!∀ x, Decision (P x)} (l : list A) :
  (∀ x, x ∈ l → ¬ P x) → filter P l = [].
Proof.
  induction l as [|x l IH]; intros Hno; [done|].
  rewrite filter_cons, IH by (intros y Hy; apply Hno; by right).
  destruct (decide (P x)) as [HP|_]; [|done].
  destruct (Hno x); [left|done].
Qed.

Lemma len_popTrailingEmptyLine_ne (ls : list jsstring) :
  (len (popTrailingEmptyLine ls) =? 0) = false →
  popTrailingEmptyLine ls ≠ [].
Proof. intros Hlen Hnil. by rewrite Hnil in Hlen. Qed.

(** The direct line-trimmed scan against the reference search. *)
Lemma lineTrimmedDirect_reference original search cursor :
  let lines := split_lines original in
  let searchLines := popTrailingEmptyLine (split_lines search) in
  lineTrimmedDirect original search cursor
  = if len searchLines =? 0 then None
    else firstBlock (trimmedBlockAt lines searchLines) lines
           (directStartLine lines cursor 0 0) (len searchLines).
Proof.
  intros lines searchLines. unfold lineTrimmedDirect. fold lines searchLines.
  pose proof (len_split_lines_pos original) as HN. fold lines in HN.
  pose proof (len_split_lines_pos search) as HS.
  destruct (Z.eqb_spec (len (split_lines search)) 0) as [?|_]; [lia|].
  destruct (Z.eqb_spec (len lines) 0) as [?|_]; [lia|]. cbn [orb].
  destruct (len searchLines =? 0) eqn:Hsize; [done|].
  apply len_popTrailingEmptyLine_ne in Hsize as Hne. fold searchLines in Hne.
  pose proof (len_pos _ Hne) as Hn.
  pose proof (directStartLine_nonneg lines cursor) as Hstart.
  set (start := directStartLine lines cursor 0 0) in *.
  rewrite !buildLineHashMap_lookup.
  set (positions := filter _ (seqZ start _)).
  assert (Hrange : Forall (λ p, 0 ≤ p ∧ p + len searchLines ≤ len lines)
                     positions).
  { apply Forall_forall.
    intros p [_ Hp%elem_of_seqZ]%list_elem_of_filter. lia. }
  rewrite (lineTrimmedVerify_first lines searchLines positions Hrange).
  assert (Hhead :
    head (filter (trimmedBlockAt lines searchLines) positions)
    = head (filter (λ p, start ≤ p ∧ trimmedBlockAt lines searchLines p)
              (seqZ 0 (len lines)))).
  { subst positions. rewrite list_filter_filter.
    apply head_filter_same. intros p. split.
    - intros (Hp & Hblock & _). split; [lia|]. split; [lia|done].
    - intros (Hp & Hp' & Hblock).
      destruct (trimmedBlockAt_range _ _ _ Hne Hblock) as [_ Hfit].
      split; [lia|]. split; [done|].
      pose proof (trimmedBlockAt_line _ _ _ 0 Hblock ltac:(lia)) as Hfirst.
      by rewrite Z.add_0_r in Hfirst. }
  unfold firstBlock. rewrite <- Hhead.
  match goal with |- (if ?b then _ else _) = _ => destruct b eqn:Hexit end;
    [|done].
  rewrite filter_none; [done|]. intros p Hp Hblock.
  destruct (Z.gtb_spec (len searchLines) 1) as [Hmany|?]; [|done].
  destruct (Z.eqb_spec (len positions) 0) as [Hnone|_].
  { rewrite (len_zero_nil _ Hnone) in Hp. by apply elem_of_nil in Hp. }
  apply negb_true_iff in Hexit.
  assert (Hex : existsb
            (λ firstPos,
               (firstPos + len searchLines - 1 <? len lines)
               && streq (trim (line_at lines (firstPos + len searchLines - 1)))
                    (trim (line_at searchLines (len searchLines - 1))))
            positions = true); [|congruence].
  apply existsb_exists. exists p. split; [by apply list_elem_of_In|].
  destruct (trimmedBlockAt_range _ _ _ Hne Hblock) as [_ Hfit].
  pose proof (trimmedBlockAt_line _ _ _ (len searchLines - 1) Hblock
                ltac:(lia)) as Hlast.
  replace (p + (len searchLines - 1)) with (p + len searchLines - 1)
    in Hlast by lia.
  apply andb_true_iff. split; [apply Z.ltb_lt; lia|].
  by apply streq_spec.
Qed.

(** The loop of the direct block-anchor scan returns the range of the first
    visited line number at which both anchors are. *)
Lemma blockAnchorDirectLoop_first originalLines first last size todo :
  Forall (λ p, 0 ≤ p ∧ p + size ≤ len originalLines) todo → 0 ≤ size →
  blockAnchorDirectLoop originalLines first last size todo
  = pos ← head (filter (anchoredBlockAt originalLines first last size) todo);
    Some (blockRange originalLines pos size).
Proof.
  intros Htodo Hsize.
  induction Htodo as [|pos todo [Hpos Hfit] _ IH]; [done|].
  cbn [blockAnchorDirectLoop]. rewrite filter_cons.
  destruct (streq (trim (line_at originalLines pos)) first) eqn:Hfirst;
    cbn [negb].
  - apply streq_spec in Hfirst.
    destruct (streq (trim (line_at originalLines (pos + size - 1))) last)
      eqn:Hlast; cbn [negb].
    + apply streq_spec in Hlast.
      destruct (decide (anchoredBlockAt originalLines first last size pos))
        as [_|Hno]; [|by destruct Hno].
      cbn [head mbind option_bind]. f_equal.
      by apply blockRange_addLineLengths.
    + destruct (decide (anchoredBlockAt originalLines first last size pos))
        as [(_ & _ & _ & Heq)|_]; [|done].
      apply streq_spec in Heq. congruence.
  - destruct (decide (anchoredBlockAt originalLines first last size pos))
      as [(_ & _ & Heq & _)|_]; [|done].
    apply streq_spec in Heq. congruence.
Qed.

(** The direct block-anchor scan against the reference search. *)
Lemma blockAnchorDirect_reference original search cursor :
  let lines := split_lines original in
  let searchLines := popTrailingEmptyLine (split_lines search) in
  blockAnchorDirect original search cursor
  = if len (split_lines search) <? 3 then None
    else firstBlock
           (anchoredBlockAt lines (trim (line_at searchLines 0))
              (trim (line_at searchLines (len searchLines - 1)))
              (len searchLines))
           lines (directStartLine lines cursor 0 0) (len searchLines).
Proof.
  intros lines searchLines. unfold blockAnchorDirect. fold lines searchLines.
  destruct (Z.ltb_spec (len (split_lines search)) 3) as [?|Hguard]; [done|].
  pose proof (len_popTrailingEmptyLine (split_lines search)) as Hn.
  fold searchLines in Hn.
  pose proof (directStartLine_nonneg lines cursor) as Hstart.
  set (start := directStartLine lines cursor 0 0) in *.
  rewrite blockAnchorDirectLoop_first; [|apply Forall_forall|lia].
  2:{ intros p Hp%elem_of_seqZ. lia. }
  unfold firstBlock. f_equal.
  apply head_filter_same. intros p. split.
  - intros (Hp & Hblock). split; [lia|]. split; [lia|done].
  - intros (Hp & Hp' & Hblock). split; [|done].
    destruct Hblock as (_ & Hfit & _). lia.
Qed.

(* ================================================================= *)
(** ** The indexed scans against the reference search *)
(* ================================================================= *)

Lemma lineTrimmedIndexed_reference original search cursor :
  let lines := split_lines original in
  let idx := LineIndex.buildIndex original in
  let searchLines := popTrailingEmptyLine (split_lines search) in
  lineTrimmedIndexed idx search cursor
  = if len searchLines =? 0 then None
    else firstBlock (trimmedBlockAt lines searchLines) lines
           (indexedStartLine idx cursor (seqZ 0 (len lines)))
           (len searchLines).
Proof.
  intros lines idx searchLines. unfold lineTrimmedIndexed.
  pose proof (len_split_lines_pos search) as HS.
  destruct (Z.gtb_spec (len (split_lines search)) 0) as [_|?]; [|lia].
  fold searchLines.
  destruct (len searchLines =? 0) eqn:Hsize; [done|].
  apply len_popTrailingEmptyLine_ne in Hsize as Hne.
  subst idx. by rewrite findExactMatch_buildIndex, getLineCount_buildIndex.
Qed.

(** The loop of the indexed block-anchor scan returns the range of the
    first candidate position whose last line is the last anchor. *)
Lemma blockAnchorIndexedLoop_first content size last positions :
  let lines := split_lines content in
  0 < size → Forall (λ p, 0 ≤ p) positions →
  blockAnchorIndexedLoop (LineIndex.buildIndex content) size last positions
  = pos ← head (filter (λ p, p + size ≤ len lines
                            ∧ trim (line_at lines (p + size - 1)) = last)
                  positions);
    Some (blockRange lines pos size).
Proof.
  intros lines Hsize. induction 1 as [|pos positions Hpos _ IH]; [done|].
  cbn [blockAnchorIndexedLoop]. rewrite filter_cons.
  unfold LineIndex.getLineAt. rewrite getLineCount_buildIndex, lines_buildIndex.
  fold lines.
  destruct (Z.ltb_spec (pos + size - 1) (len lines)) as [Hfit|Hout];
    cbn [andb].
  - destruct (streq (trim (line_at lines (pos + size - 1))) last) eqn:Hlast.
    + apply streq_spec in Hlast.
      destruct (decide (pos + size ≤ len lines
                        ∧ trim (line_at lines (pos + size - 1)) = last))
        as [_|Hno]; [|destruct Hno; split; [lia|done]].
      cbn [head mbind option_bind]. f_equal.
      rewrite (surjective_pairing (blockRange lines pos size)).
      rewrite blockRange_end by lia.
      rewrite !getOffsetForLine_buildIndex by (fold lines; lia).
      fold lines. unfold blockRange. cbn [fst].
      by replace (pos + size - 1 + 1) with (pos + size) by lia.
    + destruct (decide (pos + size ≤ len lines
                        ∧ trim (line_at lines (pos + size - 1)) = last))
        as [[_ Heq]|_]; [|done].
      apply streq_spec in Heq. congruence.
  - destruct (decide (pos + size ≤ len lines
                      ∧ trim (line_at lines (pos + size - 1)) = last))
      as [[? _]|_]; [lia|done].
Qed.

Lemma blockAnchorIndexed_reference original search cursor :
  let lines := split_lines original in
  let idx := LineIndex.buildIndex original in
  let searchLines := popTrailingEmptyLine (split_lines search) in
  blockAnchorIndexed idx search cursor
  = if len (split_lines search) <? 3 then None
    else firstBlock
           (anchoredBlockAt lines (trim (line_at searchLines 0))
              (trim (line_at searchLines (len searchLines - 1)))
              (len searchLines))
           lines (indexedStartLine idx cursor (seqZ 0 (len lines)))
           (len searchLines).
Proof.
  intros lines idx searchLines. unfold blockAnchorIndexed.
  destruct (Z.ltb_spec (len (split_lines search)) 3) as [?|Hguard]; [done|].
  destruct (Z.gtb_spec (len (split_lines search)) 0) as [_|?]; [|lia].
  fold searchLines.
  pose proof (len_popTrailingEmptyLine (split_lines search)) as Hn.
  fold searchLines in Hn. subst idx.
  rewrite getPositionsForLine_buildIndex, getLineCount_buildIndex, trim_idemp.
  fold lines.
  rewrite blockAnchorIndexedLoop_first; [|lia|].
  2:{ apply Forall_forall.
      intros p [_ [_ [? _]%elem_of_seqZ]%list_elem_of_filter]%list_elem_of_filter.
      lia. }
  fold lines. unfold firstBlock. f_equal. f_equal.
  rewrite !list_filter_filter. apply filter_ext_in.
  intros p [Hp _]%elem_of_seqZ. unfold anchoredBlockAt. split.
  - intros (([? ?] & ?) & ?). repeat split; (done || lia).
  - intros (? & ? & ? & ? & ?). repeat split; (done || lia).
Qed.

(* ================================================================= *)
(** ** Where the two scans start *)
(* ================================================================= *)

Lemma indexedStartLine_bounds idx cursor a n :
  0 ≤ a → 0 ≤ n →
  0 ≤ indexedStartLine idx cursor (seqZ a n) ≤ a + n.
Proof.
  intros Ha Hn. remember (Z.to_nat n) as k eqn:Hk. revert a n Ha Hn Hk.
  induction k as [|k IH]; intros a n Ha Hn Hk.
  - rewrite seqZ_nil by lia. simpl. lia.
  - rewrite seqZ_cons by lia. cbn [indexedStartLine].
    destruct (LineIndex.getOffsetForLine idx a >=? cursor).
    + destruct (Z.gtb_spec a 0); lia.
    + specialize (IH (Z.succ a) (Z.pred n) ltac:(lia) ltac:(lia) ltac:(lia)).
      lia.
Qed.

Lemma indexedStartLine_le idx cursor a n k :
  0 ≤ a → a ≤ k < a + n → cursor ≤ LineIndex.getOffsetForLine idx k →
  indexedStartLine idx cursor (seqZ a n) ≤ k.
Proof.
  intros Ha Hk Hoff. remember (Z.to_nat n) as c eqn:Hc. revert a n Ha Hk Hc.
  induction c as [|c IH]; intros a n Ha Hk Hc; [lia|].
  rewrite seqZ_cons by lia. cbn [indexedStartLine].
  destruct (Z.geb_spec (LineIndex.getOffsetForLine idx a) cursor) as [_|Hlow].
  - destruct (Z.gtb_spec a 0); lia.
  - destruct (decide (k = a)) as [->|Hne]; [lia|].
    apply IH; lia.
Qed.

(** The indexed scan never starts after the direct scan. *)
Lemma indexedStartLine_le_direct original cursor :
  let lines := split_lines original in
  0 ≤ indexedStartLine (LineIndex.buildIndex original) cursor
        (seqZ 0 (len lines))
    ≤ directStartLine lines cursor 0 0.
Proof.
  intros lines. pose proof (len_nonneg lines) as HN.
  pose proof (indexedStartLine_bounds (LineIndex.buildIndex original) cursor
                0 (len lines) ltac:(lia) HN) as [Hlo Hhi].
  split; [done|].
  destruct (directStartLine_spec lines cursor 0 0) as (k & -> & Hk & Hcur).
  destruct (decide (k < length lines)%nat) as [Hlt|Hge].
  - apply indexedStartLine_le; [lia|unfold len; lia|].
    rewrite getOffsetForLine_buildIndex by (fold lines; unfold len; lia).
    fold lines. specialize (Hcur Hlt).
    replace (Z.to_nat (0 + Z.of_nat k)) with k by lia. lia.
  - unfold len in *. lia.
Qed.

Lemma startLine_at_file_start original cursor :
  cursor ≤ 0 →
  let lines := split_lines original in
  indexedStartLine (LineIndex.buildIndex original) cursor (seqZ 0 (len lines))
  = directStartLine lines cursor 0 0.
Proof.
  intros Hcur lines.
  pose proof (indexedStartLine_le_direct original cursor) as [Hlo Hhi].
  fold lines in Hlo, Hhi.
  assert (Hdirect : directStartLine lines cursor 0 0 = 0); [|lia].
  pose proof (split_lines_nonempty original) as Hne. fold lines in Hne.
  destruct lines as [|l ls]; [done|]. simpl.
  by destruct (Z.ltb_spec 0 cursor); [lia|].
Qed.

(** The reference search from an earlier start finds a block whenever the
    search from a later start does, at the same or an earlier offset. *)
Lemma firstBlock_earlier (P : Z → Prop) `{!∀ p, Decision (P p)}
    (lines : list jsstring) (s1 s2 size : Z) (r2 : Z * Z) :
  s1 ≤ s2 →
  firstBlock P lines s2 size = Some r2 →
  ∃ r1, firstBlock P lines s1 size = Some r1 ∧ r1.1 ≤ r2.1.
Proof.
  intros Hs. unfold firstBlock.
  pose proof (head_filter_seqZ (λ p, s1 ≤ p ∧ P p) 0 (len lines)) as H1.
  pose proof (head_filter_seqZ (λ p, s2 ≤ p ∧ P p) 0 (len lines)) as H2.
  destruct (head (filter (λ p, s2 ≤ p ∧ P p) _)) as [p2|]; [|done].
  simpl in H2. destruct H2 as [(Hr2 & Hs2 & HP2) _].
  intros [= <-].
  destruct (head (filter (λ p, s1 ≤ p ∧ P p) _)) as [p1|]; simpl in H1.
  - destruct H1 as [(Hr1 & Hs1 & HP1) Hleast]. eexists. split; [done|].
    unfold blockRange. cbn [fst].
    apply prefix_length_mono.
    destruct (Z.le_gt_cases p1 p2) as [?|Hgt]; [lia|].
    destruct (Hleast p2 Hgt). split; [lia|]. split; [lia|done].
  - destruct (H1 p2). split; [lia|]. split; [lia|done].
Qed.

(** The start line of the direct scan is the first line that starts at or
    after the cursor. *)
Lemma directStartLine_least rest cursor current start :
  ∃ k : nat,
    directStartLine rest cursor current start = start + Z.of_nat k
    ∧ (k ≤ length rest)%nat
    ∧ ((k < length rest)%nat →
       cursor ≤ current + len (emitLines (take k rest)))
    ∧ (∀ j, (j < k)%nat → current + len (emitLines (take j rest)) < cursor).
Proof.
  revert current start. induction rest as [|l rest IH]; intros current start.
  - exists 0%nat. simpl. repeat split; lia.
  - simpl. destruct (Z.ltb_spec current cursor).
    + destruct (IH (current + (len l + 1)) (start + 1))
        as (k & -> & Hk & Hcur & Hleast).
      exists (S k). split; [lia|]. split; [lia|]. split.
      * intros Hlt. cbn [take].
        rewrite emitLines_cons, !len_app, len_cons, len_nil.
        specialize (Hcur ltac:(lia)). lia.
      * intros [|j] Hj.
        { change (len (emitLines (take 0 (l :: rest)))) with 0. lia. }
        cbn [take]. rewrite emitLines_cons, !len_app, len_cons, len_nil.
        specialize (Hleast j ltac:(lia)). lia.
    + exists 0%nat. split; [lia|]. split; [lia|]. split; [|lia].
      intros _. change (len (emitLines (take 0 (l :: rest)))) with 0. lia.
Qed.

Lemma directStartLine_iff lines cursor q :
  0 ≤ q < len lines →
  directStartLine lines cursor 0 0 ≤ q ↔ cursor ≤ lineStart lines q.
Proof.
  intros Hq. unfold lineStart.
  destruct (directStartLine_least lines cursor 0 0)
    as (k & -> & Hk & Hcur & Hleast).
  unfold len in Hq. split.
  - intros Hle. specialize (Hcur ltac:(lia)).
    pose proof (prefix_length_mono lines k (Z.to_nat q) ltac:(lia)). lia.
  - intros Hcursor.
    destruct (decide (Z.to_nat q < k)%nat) as [Hlt|?]; [|lia].
    specialize (Hleast _ Hlt). lia.
Qed.

(** The reference search from the start line of the direct scan, in terms
    of the cursor. *)
Lemma firstBlock_from_cursor (P : Z → Prop) `{!∀ p, Decision (P p)}
    (lines : list jsstring) (cursor size : Z) :
  (∀ p, P p → 0 ≤ p < len lines) →
  match firstBlock P lines (directStartLine lines cursor 0 0) size with
  | Some range =>
      ∃ pos, (cursor ≤ lineStart lines pos ∧ P pos)
             ∧ (∀ q, q < pos → ¬ (cursor ≤ lineStart lines q ∧ P q))
             ∧ range = blockRange lines pos size
  | None => ∀ q, ¬ (cursor ≤ lineStart lines q ∧ P q)
  end.
Proof.
  intros Hrange.
  pose proof (firstBlock_spec P lines (directStartLine lines cursor 0 0) size
                Hrange) as Hspec.
  destruct (firstBlock _ _ _ _) as [range|].
  - destruct Hspec as (pos & Hstart & HP & Hleast & ->). exists pos.
    split; [|split; [|done]].
    + split; [|done]. by apply directStartLine_iff; [apply Hrange|].
    + intros q Hq [Hcur HQ]. apply (Hleast q); [|done].
      split; [|done]. by apply directStartLine_iff; [apply Hrange|].
  - intros q [Hcur HQ]. apply (Hspec q); [|done].
    by apply directStartLine_iff; [apply Hrange|].
Qed.

(** X12.  Without a line index, [lineTrimmedFallbackMatch] returns the
    range of the first block of lines of the original that starts at or
    after the cursor [startIndex] and whose lines equal the search lines
    (without their trailing empty line) after trimming: the range starts
    where the block's first line starts and covers each line of the block
    with one line feed.  It returns [false] only if there is no search line
    or no such block. *)
Theorem direct_line_match_is_first_block original search cursor :
  let lines := split_lines original in
  let searchLines := popTrailingEmptyLine (split_lines search) in
  let here q :=
    cursor ≤ lineStart lines q ∧ trimmedBlockAt lines searchLines q in
  match lineTrimmedFallbackMatch original search cursor None with
  | Some range =>
      ∃ pos, here pos ∧ (∀ q, q < pos → ¬ here q)
             ∧ range = blockRange lines pos (len searchLines)
  | None => searchLines = [] ∨ ∀ q, ¬ here q
  end.
Proof.
  intros lines searchLines here. cbn [lineTrimmedFallbackMatch].
  rewrite lineTrimmedDirect_reference. fold lines searchLines.
  destruct (Z.eqb_spec (len searchLines) 0) as [Hnil|Hsize].
  { left. by apply len_zero_nil. }
  assert (Hne : searchLines ≠ []) by (by intros Hnil; rewrite Hnil in Hsize).
  pose proof (firstBlock_from_cursor (trimmedBlockAt lines searchLines) lines
                cursor (len searchLines)) as Hspec.
  destruct (firstBlock _ _ _ _) as [range|].
  - apply Hspec. intros p Hp.
    destruct (trimmedBlockAt_range _ _ _ Hne Hp).
    pose proof (len_pos _ Hne). lia.
  - right. apply Hspec. intros p Hp.
    destruct (trimmedBlockAt_range _ _ _ Hne Hp).
    pose proof (len_pos _ Hne). lia.
Qed.

(** X13.  Without a line index, [blockAnchorFallbackMatch] returns [false]
    for a search content of fewer than three lines (counted with a trailing
    empty line); otherwise it returns the range of the first block of lines
    of the original that starts at or after the cursor, has as many lines as
    the search block (without its trailing empty line) and has its first and
    last line equal to the first and last search line after trimming; the
    lines between the anchors are not compared. *)
Theorem direct_anchor_match_is_first_block original search cursor :
  let lines := split_lines original in
  let searchLines := popTrailingEmptyLine (split_lines search) in
  let here q :=
    cursor ≤ lineStart lines q
    ∧ anchoredBlockAt lines (trim (line_at searchLines 0))
        (trim (line_at searchLines (len searchLines - 1)))
        (len searchLines) q in
  match blockAnchorFallbackMatch original search cursor None with
  | Some range =>
      3 ≤ len (split_lines search)
      ∧ ∃ pos, here pos ∧ (∀ q, q < pos → ¬ here q)
               ∧ range = blockRange lines pos (len searchLines)
  | None => len (split_lines search) < 3 ∨ ∀ q, ¬ here q
  end.
Proof.
  intros lines searchLines here. cbn [blockAnchorFallbackMatch].
  rewrite blockAnchorDirect_reference. fold lines searchLines.
  destruct (Z.ltb_spec (len (split_lines search)) 3) as [Hshort|Hguard].
  { by left. }
  pose proof (len_popTrailingEmptyLine (split_lines search)) as Hn.
  fold searchLines in Hn.
  pose proof (firstBlock_from_cursor
                (anchoredBlockAt lines (trim (line_at searchLines 0))
                   (trim (line_at searchLines (len searchLines - 1)))
                   (len searchLines))
                lines cursor (len searchLines)) as Hspec.
  destruct (firstBlock _ _ _ _) as [range|].
  - split; [done|]. apply Hspec. intros p (? & ? & _). lia.
  - right. apply Hspec. intros p (? & ? & _). lia.
Qed.

(** X14.  With the cursor at the start of the file, the line index of the
    original does not change what the two line matchers return, whatever the
    size of the file. *)
Theorem line_index_is_transparent_at_file_start original search cursor :
  cursor ≤ 0 →
  let idx := Some (LineIndex.buildIndex original) in
  lineTrimmedFallbackMatch original search cursor idx
  = lineTrimmedFallbackMatch original search cursor None
  ∧ blockAnchorFallbackMatch original search cursor idx
    = blockAnchorFallbackMatch original search cursor None.
Proof.
  intros Hcursor idx. subst idx.
  cbn [lineTrimmedFallbackMatch blockAnchorFallbackMatch].
  destruct (LineIndex.shouldUseIndex original); [|done].
  rewrite lineTrimmedIndexed_reference, lineTrimmedDirect_reference.
  rewrite blockAnchorIndexed_reference, blockAnchorDirect_reference.
  by rewrite startLine_at_file_start.
Qed.

(** X15.  A line index never loses a match: whenever a line matcher finds
    a range without the index of the original, it finds a range with it,
    and that range starts at the same offset or earlier. *)
Theorem line_index_never_loses_a_match original search cursor a b :
  let idx := Some (LineIndex.buildIndex original) in
  (lineTrimmedFallbackMatch original search cursor None = Some (a, b) →
   ∃ a' b', lineTrimmedFallbackMatch original search cursor idx = Some (a', b')
            ∧ a' ≤ a)
  ∧ (blockAnchorFallbackMatch original search cursor None = Some (a, b) →
     ∃ a' b', blockAnchorFallbackMatch original search cursor idx
              = Some (a', b')
              ∧ a' ≤ a).
Proof.
  intros idx. subst idx.
  cbn [lineTrimmedFallbackMatch blockAnchorFallbackMatch].
  pose proof (indexedStartLine_le_direct original cursor) as [_ Hstart].
  destruct (LineIndex.shouldUseIndex original).
  2:{ split; intros ->; exists a, b; (split; [done|lia]). }
  rewrite lineTrimmedIndexed_reference, lineTrimmedDirect_reference.
  rewrite blockAnchorIndexed_reference, blockAnchorDirect_reference.
  split.
  - destruct (len (popTrailingEmptyLine (split_lines search)) =? 0); [done|].
    intros ([a' b'] & -> & Hle)%(firstBlock_earlier _ _ _ _ _ _ Hstart).
    by exists a', b'.
  - destruct (len (split_lines search) <? 3); [done|].
    intros ([a' b'] & -> & Hle)%(firstBlock_earlier _ _ _ _ _ _ Hstart).
    by exists a', b'.
Qed.

(* ================================================================= *)
(** ** The change regions of a run without malformed blocks *)
(* ================================================================= *)

Lemma slice_app_l (s t : jsstring) (a b : Z) :
  0 ≤ a → 0 ≤ b → b ≤ len s → slice (s ++ t) a b = slice s a b.
Proof.
  intros Ha Hb Hbs. pose proof (len_nonneg t).
  rewrite !slice_nonneg, len_app by lia.
  replace (Z.min b (len s + len t)) with b by lia.
  replace (Z.min b (len s)) with b by lia.
  destruct (Z.le_gt_cases a b) as [Hab|Hba].
  - replace (Z.min a (len s + len t)) with a by lia.
    replace (Z.min a (len s)) with a by lia.
    rewrite drop_app_le by (unfold len in *; lia).
    rewrite take_app_le; [done|]. rewrite length_drop. unfold len in *. lia.
  - replace (Z.to_nat (b - Z.min a (len s + len t))) with 0%nat by lia.
    by replace (Z.to_nat (b - Z.min a (len s))) with 0%nat by lia.
Qed.

Lemma getLineNumberFromOffset_app_l (s t : jsstring) (offset : Z) :
  0 ≤ offset ≤ len s →
  getLineNumberFromOffset (s ++ t) offset = getLineNumberFromOffset s offset.
Proof.
  intros Hoff. unfold getLineNumberFromOffset. by rewrite slice_app_l by lia.
Qed.

(** A region that delimits a text in a result still does when the result
    grows at its end. *)
Lemma regionDelimits_app_l text more region replacement :
  regionDelimits text region replacement →
  regionDelimits (text ++ more) region replacement.
Proof.
  intros (Hstart & Hend & Hin & Hslice & Hsl & Hel).
  pose proof (len_nonneg replacement). pose proof (len_nonneg more).
  repeat split; [done|done|rewrite len_app; lia|..].
  - by rewrite slice_app_l by lia.
  - by rewrite getLineNumberFromOffset_app_l by lia.
  - by rewrite getLineNumberFromOffset_app_l by lia.
Qed.

Lemma StronglySorted_snoc {A} (R : relation A) (l : list A) (y : A) :
  StronglySorted R l → Forall (λ x, R x y) l → StronglySorted R (l ++ [y]).
Proof.
  induction 1 as [|x l Hl IH Hx]; intros Hy.
  - repeat constructor.
  - inversion Hy as [|? ? Hxy Hly]; subst. cbn [app]. constructor; [by apply IH|].
    apply Forall_app. split; [done|]. by constructor.
Qed.

Lemma regionsDelimit_app_l text more rs reps :
  regionsDelimit text rs reps → regionsDelimit (text ++ more) rs reps.
Proof.
  intros [Hrs Hsorted]. split; [|done].
  eapply Forall2_impl; [exact Hrs|]. intros r rep. apply regionDelimits_app_l.
Qed.

(** Recording one more region, for a replacement at the end of the
    result. *)
Lemma regionsDelimit_snoc base middle replacement rs reps region :
  regionsDelimit base rs reps →
  startOffset region = len (base ++ middle) →
  endOffset region = len (base ++ middle ++ replacement) →
  startLine region
  = getLineNumberFromOffset (base ++ middle ++ replacement)
      (startOffset region) →
  endLine region
  = getLineNumberFromOffset (base ++ middle ++ replacement)
      (endOffset region) →
  regionsDelimit (base ++ middle ++ replacement) (rs ++ [region])
    (reps ++ [replacement]).
Proof.
  intros [Hrs Hsorted] Hstart Hend Hsl Hel.
  pose proof (len_nonneg base). pose proof (len_nonneg middle).
  pose proof (len_nonneg replacement).
  rewrite !len_app in *. split.
  - apply Forall2_app.
    + eapply Forall2_impl; [exact Hrs|]. intros r rep.
      apply regionDelimits_app_l.
    + constructor; [|constructor].
      repeat split; [lia|lia|rewrite !len_app; lia| |done|done].
      rewrite Hstart, Hend, app_assoc, <- (len_app base middle).
      apply slice_suffix. rewrite !len_app. lia.
  - apply StronglySorted_snoc; [done|].
    apply Forall_forall. intros r Hr.
    destruct (list_elem_of_lookup_1 _ _ Hr) as [i Hi].
    destruct (Forall2_lookup_l _ _ _ _ _ Hrs Hi) as (rep & _ & Hdel).
    destruct Hdel as (_ & _ & Hin & _). unfold regionBefore. lia.
Qed.

Lemma lineStart_le (lines : list jsstring) (pos : Z) :
  0 ≤ pos < len lines → lineStart lines pos ≤ len (join_lines lines).
Proof.
  intros Hpos. unfold lineStart.
  destruct (take_drop_middle_Z lines pos [] Hpos) as (l & _ & Hcut).
  rewrite Hcut at 2. rewrite join_lines_cut, !len_app.
  pose proof (len_nonneg l).
  pose proof (len_nonneg
    match drop (S (Z.to_nat pos)) lines with
    | [] => []
    | _ :: _ => LF :: join_lines (drop (S (Z.to_nat pos)) lines)
    end).
  lia.
Qed.

Lemma firstBlock_start_le (P : Z → Prop) `{!∀ p, Decision (P p)}
    (original : jsstring) (start size a b : Z) :
  firstBlock P (split_lines original) start size = Some (a, b) →
  a ≤ len original.
Proof.
  unfold firstBlock.
  destruct (head _) as [pos|] eqn:Hhead; [|done].
  apply head_Some_elem_of in Hhead.
  apply list_elem_of_filter in Hhead as [_ Hpos%elem_of_seqZ].
  intros [= <- _]. rewrite <- (join_split original) at 2.
  apply lineStart_le. lia.
Qed.

(** A match starts inside the original. *)
Lemma locateSearchBlock_start_le original search cursor s e :
  locateSearchBlock original (lineIndexFor original) search cursor
  = Some (s, e) →
  s ≤ len original.
Proof.
  unfold locateSearchBlock. pose proof (len_nonneg original).
  destruct (Z.eqb_spec (len search) 0) as [_|Hsearch].
  { destruct (len original =? 0); intros [= <- _]; lia. }
  destruct (Z.eqb_spec (boyerMooreSearch original search cursor) (-1))
    as [_|Hfound]; cbn [negb].
  2:{ intros [= <- _].
      assert (Hne : search ≠ []) by (by intros ->).
      destruct (boyerMooreSearch_sound original search cursor Hne Hfound)
        as (_ & _ & Hin).
      pose proof (len_nonneg search). lia. }
  assert (Hline : ∀ a b,
    lineTrimmedFallbackMatch original search cursor (lineIndexFor original)
    = Some (a, b) → a ≤ len original).
  { intros a b. unfold lineIndexFor, lineTrimmedFallbackMatch.
    destruct (LineIndex.shouldUseIndex original) eqn:Hlarge; cbv zeta;
      rewrite ?Hlarge;
      rewrite ?lineTrimmedIndexed_reference, ?lineTrimmedDirect_reference;
      (destruct (len (popTrailingEmptyLine (split_lines search)) =? 0);
       [done|apply firstBlock_start_le]). }
  assert (Hanchor : ∀ a b,
    blockAnchorFallbackMatch original search cursor (lineIndexFor original)
    = Some (a, b) → a ≤ len original).
  { intros a b. unfold lineIndexFor, blockAnchorFallbackMatch.
    destruct (LineIndex.shouldUseIndex original) eqn:Hlarge; cbv zeta;
      rewrite ?Hlarge;
      rewrite ?blockAnchorIndexed_reference, ?blockAnchorDirect_reference;
      (destruct (len (split_lines search) <? 3);
       [done|apply firstBlock_start_le]). }
  destruct (lineTrimmedFallbackMatch _ _ _ _) as [[a b]|] eqn:Hl.
  - intros [= <- _]. by eapply Hline.
  - by apply Hanchor.
Qed.

Lemma content_finish_extends original isFinal st :
  ∃ rest,
    content (finish original isFinal st)
    = StringBuilder.toString (result st) ++ rest.
Proof.
  destruct isFinal.
  - eexists. apply content_finish.
  - exists []. unfold finish. cbn. by rewrite app_nil_r.
Qed.

(** Applies the induction hypothesis of the loop to the state the loop
    goes on with. *)
Ltac continue_regions IH base reps :=
  match goal with
  | |- context [processLines _ _ _ _ _ ?st] => apply (IH st base reps)
  end.

(** The invariant of the line loop on lines without a malformed block:
    the regions the run returns delimit, in what it returns, the
    replacement texts recorded before and those of the blocks the run
    applies. *)
Lemma processLines_regions diff original isFinal lines :
  ∀ st base reps,
    runInvariant st → resultSince original st base →
    regionsInvariant st base reps →
    noMalformedFrom (parserStateOf st) lines = true →
    let applied :=
      appliedIn diff original isFinal (lineIndexFor original) lines st in
    match processLines diff original isFinal (lineIndexFor original) lines st
    with
    | Continue st' =>
        regionsDelimit (content (finish original isFinal st')) (regions st')
          (reps ++ (snd <$> applied))
    | Return r =>
        regionsDelimit (content r) (changedRegions r) (reps ++ (snd <$> applied))
    | Throw _ => True
    end.
Proof.
  induction lines as [|l lines IH]; intros st base reps Hinv Hbase Hreg Hwf applied;
    subst applied; pose proof (runInvariant_inReplaceState st Hinv) as Hstate;
    destruct Hinv as (Hcursor & Hemitted & Hmode);
    destruct Hreg as (Hlen & Hstart & Hregions);
    unfold resultSince in Hbase; cbn [noMalformedFrom] in Hwf.
  - (* the lines are read *)
    cbn [processLines appliedIn fmap list_fmap]. rewrite app_nil_r.
    destruct (content_finish_extends original isFinal st) as [rest ->].
    rewrite Hbase, <- app_assoc. by apply regionsDelimit_app_l.
  - cbn [processLines appliedIn]. unfold step.
    destruct (streq l SEARCH_MARKER) eqn:Esearch.
    { (* <<<<<<< SEARCH, outside the replace state *)
      apply streq_spec in Esearch as ->.
      change (streq SEARCH_MARKER REPLACE_MARKER) with false.
      cbn [andb app onSearchMarker].
      apply andb_prop in Hwf as [Hrep Hwf].
      rewrite Hstate in Hrep. apply negb_true_iff in Hrep.
      rewrite Hrep in Hmode, Hbase, Hstart |- *.
      destruct Hmode as (Hm & He & Hs & Hsegs).
      rewrite orb_false_r.
      continue_regions IH base reps.
      - repeat split; try done. cbn. by destruct (inSearch st).
      - unfold resultSince. cbn. by destruct (inSearch st).
      - split; [done|]. split; [|done]. cbn. by destruct (inSearch st).
      - done. }
    destruct (streq l SEPARATOR_MARKER) eqn:Esep.
    { (* =======, outside the replace state *)
      apply streq_spec in Esep as ->.
      change (streq SEPARATOR_MARKER REPLACE_MARKER) with false.
      cbn [andb app].
      apply andb_prop in Hwf as [Hrep Hwf].
      rewrite Hstate in Hrep. apply negb_true_iff in Hrep.
      rewrite Hrep in Hmode, Hbase, Hstart.
      destruct Hmode as (Hm & He & Hs & Hsegs).
      rewrite app_nil_r in Hbase.
      unfold onSeparator.
      destruct (locateSearchBlock original (lineIndexFor original)
                  (searchContentOf (searchSegments st))
                  (lastProcessedIndex st)) as [[s e]|] eqn:Hloc; [|done].
      destruct (locateSearchBlock_nonneg _ _ _ _ _ Hcursor Hloc) as [Hs0 He0].
      pose proof (locateSearchBlock_start_le _ _ _ _ _ Hloc) as Hs1.
      continue_regions IH base reps.
      - repeat split; try done; cbn;
          destruct (Z.gtb_spec s (lastProcessedIndex st)); lia.
      - unfold resultSince. cbn. rewrite Hsegs.
        change (emitLines []) with (@nil N). rewrite app_nil_r.
        destruct (Z.gtb_spec s (lastProcessedIndex st)).
        + by rewrite toString_appendSlice, Hbase by lia.
        + by rewrite slice_empty, app_nil_r by lia.
      - unfold regionsInvariant. state_fields. rewrite Hsegs.
        change (len (emitLines [])) with 0.
        split; [|split; [lia|done]].
        destruct (Z.gtb_spec s (lastProcessedIndex st)); [|done].
        rewrite toString_appendSlice, len_app, len_slice_in_range by lia.
        lia.
      - done. }
    destruct (streq l REPLACE_MARKER) eqn:Ereplace.
    { (* >>>>>>> REPLACE, in the replace state: the block is applied *)
      apply streq_spec in Ereplace as ->.
      apply andb_prop in Hwf as [Hrep Hwf].
      rewrite Hstate in Hrep. rewrite Hrep in Hmode, Hbase, Hstart.
      destruct Hmode as (Hsearch & Hm & He & Hs).
      destruct (Z.eqb_spec (searchMatchIndex st) (-1)); [lia|].
      destruct (Z.eqb_spec (replacementStartOffset st) (-1)); [lia|].
      cbn [negb andb].
      rewrite onReplaceMarker_closes by lia.
      set (closed := idleState (result st) (searchEndIndex st)
                       (regions st ++ [regionOf st]) (resultLength st)).
      assert (Hclosed :
        regionsDelimit (StringBuilder.toString (result st))
          (regions st ++ [regionOf st])
          (reps ++ [emitLines (replaceSegments st)])).
      { rewrite Hbase. apply regionsDelimit_snoc; [done|..].
        - cbn [startOffset regionOf]. rewrite Hbase, !len_app in Hlen.
          rewrite len_app. lia.
        - cbn [endOffset regionOf]. by rewrite <- Hbase.
        - cbn [startLine startOffset regionOf]. by rewrite Hbase.
        - cbn [endLine endOffset regionOf]. by rewrite Hbase. }
      destruct (isFinal && negb (includes _ _)).
      - cbn [app fmap list_fmap snd]. rewrite content_finish.
        by apply regionsDelimit_app_l.
      - cbn [app fmap list_fmap snd].
        assert (Hinv' : runInvariant closed) by (repeat split; done).
        assert (Hbase' : resultSince original closed
                           (StringBuilder.toString (result st))).
        { unfold resultSince. cbn. by rewrite app_nil_r. }
        assert (Hreg' : regionsInvariant closed
                          (StringBuilder.toString (result st))
                          (reps ++ [emitLines (replaceSegments st)])).
        { split; [done|]. split; done. }
        pose proof (IH closed _ _ Hinv' Hbase' Hreg' Hwf) as IH'.
        cbv zeta in IH'. rewrite <- app_assoc in IH'. exact IH'. }
    (* an ordinary line *)
    unfold onContentLine. cbn [andb app].
    destruct (inSearch st) eqn:Hsearch.
    { continue_regions IH base reps.
      - repeat split; try done.
      - unfold resultSince. by cbn.
      - done.
      - unfold parserStateOf in *. cbn. by rewrite Hsearch in *. }
    destruct (inReplace st) eqn:Hrep.
    + destruct Hmode as (_ & Hm & He & Hs).
      destruct (Z.eqb_spec (searchMatchIndex st) (-1)); [lia|]. cbn [negb].
      continue_regions IH base reps.
      * repeat split; cbn; rewrite ?Hrep; try done.
        pose proof (len_nonneg l). lia.
      * unfold resultSince. state_fields. cbv iota in Hbase.
        rewrite toString_appendLine, Hbase, emitLines_app.
        change (emitLines [l]) with ((l ++ [LF]) ++ []).
        by rewrite app_nil_r, <- !app_assoc.
      * unfold regionsInvariant. state_fields.
        rewrite toString_appendLine, emitLines_app, !len_app.
        change (emitLines [l]) with ((l ++ [LF]) ++ []).
        rewrite app_nil_r, !len_app, len_cons, len_nil.
        split; [lia|]. split; [lia|done].
      * unfold parserStateOf in *. cbn. by rewrite Hsearch, Hrep in *.
    + continue_regions IH base reps; try done.
      * unfold runInvariant. by rewrite Hrep.
      * unfold resultSince. by rewrite Hrep.
      * unfold regionsInvariant. by rewrite Hrep.
Qed.

Lemma changedRegions_finish original isFinal st :
  changedRegions (finish original isFinal st) = regions st.
Proof. reflexivity. Qed.

(** X16.  The change regions of a call that succeeds on a diff without a
    malformed block, final or not: there is one region for each block the
    call applied, in order; the region's offsets delimit, in the returned
    content, exactly the replacement text of its block (each replacement
    line with its line feed); its line numbers are the line numbers of these
    offsets in the returned content; and the regions are in ascending order
    and do not overlap. *)
Theorem change_regions_delimit_replacements
    (diff original : jsstring) (isFinal : bool) (r : FileChangeResult) :
  noMalformedFrom Idle (diffLines diff) = true →
  constructNewFileContent diff original isFinal = inl r →
  regionsDelimit (content r) (changedRegions r)
    (snd <$> appliedBlocks diff original isFinal).
Proof.
  intros Hwf. unfold constructNewFileContent, appliedBlocks.
  destruct (isFinal && negb (includes diff SEARCH_MARKER)).
  - intros [= <-]. split; constructor.
  - pose proof (processLines_regions diff original isFinal (diffLines diff)
                  initialState [] []) as Hinv.
    cbv zeta in Hinv. cbn [app] in Hinv.
    assert (Hstart : regionsDelimit
              match processLines diff original isFinal (lineIndexFor original)
                      (diffLines diff) initialState with
              | Continue st' => content (finish original isFinal st')
              | Return r' => content r'
              | Throw _ => []
              end
              match processLines diff original isFinal (lineIndexFor original)
                      (diffLines diff) initialState with
              | Continue st' => regions st'
              | Return r' => changedRegions r'
              | Throw _ => []
              end
              (snd <$> appliedIn diff original isFinal (lineIndexFor original)
                         (diffLines diff) initialState)
            ∨ ∃ m, processLines diff original isFinal (lineIndexFor original)
                     (diffLines diff) initialState = Throw m).
    { destruct (processLines diff original isFinal (lineIndexFor original)
                  (diffLines diff) initialState) as [st'|r'|m];
        [left|left|right; by exists m];
        (apply Hinv; [repeat split; done|done| |done]);
        (split; [done|]; split; [done|]; split; constructor). }
    destruct (processLines diff original isFinal (lineIndexFor original)
                (diffLines diff) initialState) as [st'|r'|m];
      intros [= <-]; by destruct Hstart as [?|[? ?]].
Qed.

Lemma change_regions_delimit_replacements_witness :
  let diff :=
    unlines ["<<<<<<< SEARCH"; "const x = 5;"; "======="; "const x = 50;";
             "// new"; ">>>>>>> REPLACE"; "";
             "<<<<<<< SEARCH"; "const z = 15;"; "======="; "const z = 150;"] in
  let original := unlines ["const x = 5;"; "const y = 10;"; "const z = 15;"] in
  let r :=
    {| content := unlines ["const x = 50;"; "// new"; "const y = 10;";
                           "const z = 150;"; ""];
       changedRegions :=
         [ {| startLine := 0; endLine := 2;
              startOffset := 0; endOffset := 21 |} ] |} in
  noMalformedFrom Idle (diffLines diff) = true
  ∧ constructNewFileContent diff original false = inl r
  ∧ regionsDelimit (content r) (changedRegions r)
      (snd <$> appliedBlocks diff original false).
Proof.
  intros diff original r.
  assert (Hwf : noMalformedFrom Idle (diffLines diff) = true)
    by (vm_compute; reflexivity).
  assert (Hrun : constructNewFileContent diff original false = inl r)
    by (vm_compute; reflexivity).
  split; [exact Hwf|]. split; [exact Hrun|].
  exact (change_regions_delimit_replacements diff original false r Hwf Hrun).
Defined.

(* ================================================================= *)
(** ** When the exact-match step is complete *)
(* ================================================================= *)

Lemma buildBadCharTable_spec (pre rest : jsstring) (m : Z) (table : gmap N Z) :
  badCharTableFor (pre ++ rest) m (Z.min (len pre) (m - 1)) table →
  badCharTableFor (pre ++ rest) m (Z.min (len (pre ++ rest)) (m - 1))
    (buildBadCharTable rest m (len pre) table).
Proof.
  revert pre table.
  induction rest as [|c rest IH]; intros pre table Htable.
  - simpl. rewrite app_nil_r in *. done.
  - cbn [buildBadCharTable].
    pose proof (len_nonneg pre). pose proof (len_nonneg rest).
    destruct (Z.ltb_spec (len pre) (m - 1)) as [Hlt|Hge].
    + replace (len pre + 1) with (len (pre ++ [c]))
        by (rewrite len_app, len_cons, len_nil; lia).
      specialize (IH (pre ++ [c]) (<[c := m - 1 - len pre]> table)).
      rewrite <- !app_assoc in IH. cbn [app] in IH.
      apply IH. clear IH. intros c'.
      rewrite len_app, len_cons, len_nil.
      replace (Z.min (len pre + (1 + 0)) (m - 1)) with (len pre + 1) by lia.
      replace (Z.min (len pre) (m - 1)) with (len pre) in Htable by lia.
      destruct (decide (c = c')) as [<-|Hne].
      * rewrite lookup_insert_eq. exists (length pre).
        split; [unfold len; lia|]. split; [by rewrite list_lookup_middle|].
        split; [done|]. intros i' Hi' Hk. unfold len in Hk. lia.
      * rewrite lookup_insert_ne by done. specialize (Htable c').
        destruct (table !! c') as [v|].
        -- destruct Htable as (i & Hi & Hp & Hv & Hlast). exists i.
           split; [lia|]. split; [done|]. split; [done|].
           intros i' Hi' Hk.
           destruct (decide (i' = length pre)) as [->|Hother].
           ++ rewrite list_lookup_middle by done. congruence.
           ++ apply Hlast; [done|]. unfold len in *. lia.
        -- intros i Hi.
           destruct (decide (i = length pre)) as [->|Hother].
           ++ rewrite list_lookup_middle by done. congruence.
           ++ apply Htable. unfold len in *. lia.
    + rewrite len_app, len_cons.
      replace (Z.min (len pre + (1 + len rest)) (m - 1)) with (m - 1) by lia.
      by replace (Z.min (len pre) (m - 1)) with (m - 1) in Htable by lia.
Qed.

(** The inner loop stops at the last index at which pattern and window
    differ. *)
Lemma matchRightToLeft_mismatch text pattern offset jp1 :
  0 ≤ matchRightToLeft text pattern offset jp1 →
  ∃ j : nat,
    matchRightToLeft text pattern offset jp1 = Z.of_nat j ∧ (j < jp1)%nat
    ∧ codeUnitEq (pattern !! j) (char_at text (offset + Z.of_nat j)) = false
    ∧ ∀ k, (j < k < jp1)%nat →
           codeUnitEq (pattern !! k) (char_at text (offset + Z.of_nat k)) = true.
Proof.
  induction jp1 as [|n IH]; simpl; [lia|].
  destruct (codeUnitEq _ _) eqn:E.
  - intros (j & -> & Hj & Hne & Hafter)%IH. exists j.
    split; [done|]. split; [lia|]. split; [done|].
    intros k Hk. destruct (decide (k = n)) as [->|]; [done|].
    apply Hafter. lia.
  - intros _. exists n. split; [done|]. split; [lia|]. split; [done|].
    intros k Hk. lia.
Qed.

(** The code units of an occurrence. *)
Lemma occursAt_char text pattern i (k : nat) p :
  occursAt text pattern i → pattern !! k = Some p →
  char_at text (i + Z.of_nat k) = Some p.
Proof.
  intros (Hi & Heq & _) Hp. unfold char_at.
  destruct (Z.ltb_spec (i + Z.of_nat k) 0); [lia|].
  rewrite <- Heq in Hp.
  rewrite lookup_take_lt, lookup_drop in Hp
    by (apply lookup_lt_Some in Hp; rewrite length_take in Hp; lia).
  by replace (Z.to_nat (i + Z.of_nat k)) with (Z.to_nat i + k)%nat by lia.
Qed.

(** When the last code unit of the pattern occurs nowhere else in it, the
    shift after a mismatch skips no occurrence. *)
Lemma shift_skips_no_occurrence text body c table offset :
  let pattern := body ++ [c] in
  c ∉ body →
  badCharTableFor pattern (len pattern) (len pattern - 1) table →
  0 ≤ matchRightToLeft text pattern offset (length pattern) →
  let j := matchRightToLeft text pattern offset (length pattern) in
  let shift := badCharShift table text (offset + j) (len pattern) in
  ∀ i, offset ≤ i < offset + Z.max 1 shift → ¬ occursAt text pattern i.
Proof.
  intros pattern Hlast Htable Hmis j shift i Hi Hocc. subst j shift.
  destruct (matchRightToLeft_mismatch _ _ _ _ Hmis)
    as (j & Hj & Hlt & Hne & Hafter).
  rewrite Hj in Hi. clear Hj Hmis.
  assert (Hm : length pattern = S (length body)).
  { subst pattern. rewrite length_app. simpl. lia. }
  assert (Hc : pattern !! length body = Some c).
  { subst pattern. by rewrite list_lookup_middle. }
  assert (Hbody : ∀ k p, pattern !! k = Some p → (k < length body)%nat →
                         p ≠ c).
  { intros k p Hp Hk ->. apply Hlast. subst pattern.
    rewrite lookup_app_l in Hp by done. by eapply list_elem_of_lookup_2. }
  destruct (decide (i = offset)) as [->|Hmoved].
  { destruct (pattern !! j) as [p|] eqn:Hp.
    2:{ apply lookup_ge_None in Hp. lia. }
    rewrite (occursAt_char _ _ _ _ _ Hocc Hp) in Hne.
    simpl in Hne. by rewrite N.eqb_refl in Hne. }
  unfold len in Hi, Htable. rewrite Hm in Hi, Htable, Hlt, Hafter.
  replace (Z.of_nat (S (length body)) - 1) with (Z.of_nat (length body))
    in Htable by lia.
  assert (Hshift : badCharShift table text (offset + Z.of_nat j)
                     (Z.of_nat (S (length body)))
                   ≤ Z.of_nat (S (length body))).
  { unfold badCharShift. destruct (char_at _ _) as [x|]; [|lia].
    pose proof (Htable x) as Hspec.
    destruct (table !! x) as [v|]; [|lia].
    destruct Hspec as (i0 & Hi0 & _ & -> & _).
    destruct (_ =? 0); lia. }
  set (k := Z.to_nat (Z.of_nat (length body) - (i - offset))).
  assert (Hk : (k < length body)%nat) by lia.
  destruct (pattern !! k) as [p|] eqn:Hp.
  2:{ apply lookup_ge_None in Hp. lia. }
  assert (Hwindow : char_at text (offset + Z.of_nat (length body)) = Some p).
  { rewrite <- (occursAt_char _ _ _ _ _ Hocc Hp). f_equal. lia. }
  destruct (decide (j = length body)) as [->|Hinner].
  - (* the last code unit differs *)
    unfold badCharShift in Hi. rewrite Hwindow in Hi.
    pose proof (Htable p) as Hspec.
    destruct (table !! p) as [v|].
    + destruct Hspec as (i0 & Hi0 & Hp0 & -> & Hright).
      destruct (Z.eqb_spec (Z.of_nat (S (length body)) - 1 - Z.of_nat i0) 0);
        [lia|].
      apply (Hright k); [lia|lia|done].
    + apply (Hspec k); [lia|done].
  - (* the last code unit matches *)
    pose proof (Hafter (length body) ltac:(lia)) as Hsame.
    rewrite Hc, Hwindow in Hsame.
    simpl in Hsame. apply N.eqb_eq in Hsame as <-.
    apply (Hbody k c); [done|lia|done].
Qed.

(** With enough fuel, the main loop returns an index at or before every
    occurrence from [offset] on. *)
Lemma bmLoop_complete fuel text body c table offset i :
  let pattern := body ++ [c] in
  c ∉ body →
  badCharTableFor pattern (len pattern) (len pattern - 1) table →
  0 ≤ offset →
  len text - len pattern - offset < Z.of_nat fuel →
  offset ≤ i → occursAt text pattern i →
  offset ≤ bmLoop fuel text pattern table offset ≤ i.
Proof.
  intros pattern Hlast Htable. revert offset.
  induction fuel as [|fuel IH]; intros offset Hoffset Hfuel Hi Hocc.
  - destruct Hocc as (_ & _ & Hin). lia.
  - cbn [bmLoop].
    destruct (Z.leb_spec offset (len text - len pattern)) as [_|Hout].
    2:{ destruct Hocc as (_ & _ & Hin). lia. }
    cbv zeta.
    destruct (Z.ltb_spec
                (matchRightToLeft text pattern offset (length pattern)) 0)
      as [_|Hmis]; [lia|].
    pose proof (shift_skips_no_occurrence text body c table offset Hlast
                  Htable Hmis) as Hsafe.
    cbv zeta in Hsafe. fold pattern in Hsafe |- *.
    set (shift := Z.max 1 _) in *.
    assert (Hshift : 1 ≤ shift) by (subst shift; lia).
    destruct (Z.lt_ge_cases i (offset + shift)) as [Hskipped|Hnext].
    { destruct (Hsafe i); [lia|done]. }
    specialize (IH (offset + shift) ltac:(lia) ltac:(lia) ltac:(lia) Hocc).
    lia.
Qed.

Lemma badCharTable_of_pattern (pattern : jsstring) :
  pattern ≠ [] →
  badCharTableFor pattern (len pattern) (len pattern - 1)
    (buildBadCharTable pattern (len pattern) 0 ∅).
Proof.
  intros Hne%len_pos.
  pose proof (buildBadCharTable_spec [] pattern (len pattern) ∅) as Hspec.
  cbn [app] in Hspec. change (len []) with 0 in Hspec.
  replace (Z.min (len pattern) (len pattern - 1)) with (len pattern - 1)
    in Hspec by lia.
  apply Hspec. intros c. rewrite lookup_empty. intros i Hi. lia.
Qed.

Lemma boyerMooreSearch_first text body c startPos :
  let pattern := body ++ [c] in
  let r := boyerMooreSearch text pattern startPos in
  c ∉ body → 0 ≤ startPos →
  (r = -1 ∧ ∀ i, startPos ≤ i → ¬ occursAt text pattern i)
  ∨ (startPos ≤ r ∧ occursAt text pattern r
     ∧ ∀ i, startPos ≤ i < r → ¬ occursAt text pattern i).
Proof.
  intros pattern r Hlast Hstart.
  assert (Hne : pattern ≠ []) by (subst pattern; by destruct body).
  pose proof (len_pos _ Hne) as Hm.
  assert (Hcomplete : ∀ i, startPos ≤ i → occursAt text pattern i →
                           startPos ≤ r ≤ i).
  { intros i Hi Hocc. subst r. unfold boyerMooreSearch.
    destruct (Z.eqb_spec (len pattern) 0); [lia|].
    pose proof Hocc as (_ & _ & Hin).
    destruct (Z.gtb_spec (len pattern) (len text - startPos)); [lia|].
    apply (bmLoop_complete _ text body c); try done;
      [by apply badCharTable_of_pattern|fold pattern; lia]. }
  destruct (decide (r = -1)) as [Hnone|Hfound].
  - left. split; [done|]. intros i Hi Hocc.
    specialize (Hcomplete i Hi Hocc). lia.
  - right.
    pose proof (boyerMooreSearch_sound text pattern startPos Hne Hfound)
      as Hocc.
    fold r in Hocc.
    destruct (boyerMooreSearch_result text pattern startPos) as [?|Hge];
      [done|].
    fold r in Hge. split; [done|]. split; [done|].
    intros i Hi Hearlier. specialize (Hcomplete i ltac:(lia) Hearlier). lia.
Qed.

(** X17.  For a pattern whose last code unit occurs nowhere else in it (a
    single character, or one line with its line feed), [boyerMooreSearch]
    is exact: from a start position that is not negative it returns the
    first index at or after the start at which the pattern occurs in the
    text, and [-1] only if there is no such index. *)
Theorem boyerMooreSearch_exact_for_unique_last_unit text body c startPos :
  c ∉ body → 0 ≤ startPos →
  let pattern := body ++ [c] in
  let r := boyerMooreSearch text pattern startPos in
  (r = -1 ∧ ∀ i, startPos ≤ i → ¬ occursAt text pattern i)
  ∨ (startPos ≤ r ∧ occursAt text pattern r
     ∧ ∀ i, startPos ≤ i < r → ¬ occursAt text pattern i).
Proof. intros Hlast Hstart. by apply boyerMooreSearch_first. Qed.

Lemma boyerMooreSearch_exact_for_unique_last_unit_witness :
  (LF ∉ str "bab") ∧ 0 ≤ 1
  ∧ boyerMooreSearch (unlines ["cabab"; "bab"; "bab"]) (nl "bab") 1 = 2
  ∧ ((boyerMooreSearch (unlines ["cabab"; "bab"; "bab"]) (nl "bab") 1 = -1
      ∧ ∀ i, 1 ≤ i →
             ¬ occursAt (unlines ["cabab"; "bab"; "bab"]) (nl "bab") i)
     ∨ (1 ≤ boyerMooreSearch (unlines ["cabab"; "bab"; "bab"]) (nl "bab") 1
        ∧ occursAt (unlines ["cabab"; "bab"; "bab"]) (nl "bab")
            (boyerMooreSearch (unlines ["cabab"; "bab"; "bab"]) (nl "bab") 1)
        ∧ ∀ i, 1 ≤ i
                 < boyerMooreSearch (unlines ["cabab"; "bab"; "bab"])
                     (nl "bab") 1 →
               ¬ occursAt (unlines ["cabab"; "bab"; "bab"]) (nl "bab") i)).
Proof.
  assert (Hlast : LF ∉ str "bab").
  { intros Hin. vm_compute in Hin.
    repeat (apply elem_of_cons in Hin as [Hin|Hin]; [discriminate|]).
    by apply elem_of_nil in Hin. }
  assert (Hstart : 0 ≤ 1) by lia.
  split; [exact Hlast|]. split; [exact Hstart|].
  split; [vm_compute; reflexivity|].
  exact (boyerMooreSearch_exact_for_unique_last_unit
           (unlines ["cabab"; "bab"; "bab"]) (str "bab") LF 1 Hlast Hstart).
Defined.

(** X18.  A search block of one line that occurs in the original as it
    is, followed by a line feed, at or after the cursor, is located by the
    exact-match step at its first such occurrence; the fallback matchers are
    not consulted. *)
Theorem one_line_block_is_matched_exactly original idx line cursor i :
  LF ∉ line → 0 ≤ cursor → cursor ≤ i →
  occursAt original (line ++ [LF]) i →
  ∃ s, locateSearchBlock original idx (searchContentOf [line]) cursor
       = Some (s, s + (len line + 1))
       ∧ cursor ≤ s ≤ i
       ∧ occursAt original (line ++ [LF]) s
       ∧ ∀ q, cursor ≤ q < s → ¬ occursAt original (line ++ [LF]) q.
Proof.
  intros Hline Hcursor Hi Hocc.
  change (searchContentOf [line]) with (line ++ [LF]).
  unfold locateSearchBlock. rewrite len_app, len_cons, len_nil.
  pose proof (len_nonneg line).
  destruct (Z.eqb_spec (len line + (1 + 0)) 0); [lia|].
  destruct (boyerMooreSearch_first original line LF cursor Hline Hcursor)
    as [[_ Hnone]|(Hge & Hfound & Hleast)].
  { by destruct (Hnone i). }
  set (s := boyerMooreSearch original (line ++ [LF]) cursor) in *.
  destruct (Z.eqb_spec s (-1)) as [?|_]; [lia|]. cbn [negb].
  exists s. split; [do 2 f_equal; lia|]. split; [|done].
  split; [done|].
  destruct (Z.le_gt_cases s i) as [?|Hlater]; [done|].
  destruct (Hleast i); [lia|done].
Qed.

Lemma one_line_block_is_matched_exactly_witness :
  let original := unlines ["let a = 1;"; "let b = 2;"; "let a = 1;"] in
  (LF ∉ str "let a = 1;") ∧ 0 ≤ 5 ∧ 5 ≤ 22
  ∧ occursAt original (str "let a = 1;" ++ [LF]) 22
  ∧ ∃ s, locateSearchBlock original None (searchContentOf [str "let a = 1;"]) 5
         = Some (s, s + (len (str "let a = 1;") + 1))
         ∧ 5 ≤ s ≤ 22
         ∧ occursAt original (str "let a = 1;" ++ [LF]) s
         ∧ ∀ q, 5 ≤ q < s → ¬ occursAt original (str "let a = 1;" ++ [LF]) q.
Proof.
  intros original.
  assert (Hline : LF ∉ str "let a = 1;").
  { intros Hin. vm_compute in Hin.
    repeat (apply elem_of_cons in Hin as [Hin|Hin]; [discriminate|]).
    by apply elem_of_nil in Hin. }
  assert (Hcursor : 0 ≤ 5) by lia.
  assert (Hi : 5 ≤ 22) by lia.
  assert (Hocc : occursAt original (str "let a = 1;" ++ [LF]) 22).
  { split; [lia|]. split; [vm_compute; reflexivity|vm_compute; discriminate]. }
  split; [exact Hline|]. split; [exact Hcursor|]. split; [exact Hi|].
  split; [exact Hocc|].
  exact (one_line_block_is_matched_exactly original None (str "let a = 1;")
           5 22 Hline Hcursor Hi Hocc).
Defined.

(* ================================================================= *)
(** ** The search lines of a block, and when a call fails *)
(* ================================================================= *)

Lemma split_lines_join_LF (segs : list jsstring) :
  segs ≠ [] → Forall (λ l, LF ∉ l) segs →
  split_lines (join_lines segs ++ [LF]) = segs ++ [[]].
Proof.
  intros Hne Hall. induction Hall as [|l ls Hl Hall IH]; [done|].
  destruct ls as [|x xs].
  - cbn [join_lines app]. by rewrite split_lines_app_LF.
  - change (join_lines (l :: x :: xs)) with (l ++ LF :: join_lines (x :: xs)).
    rewrite <- app_assoc. cbn [app].
    rewrite split_lines_app_LF by done. f_equal. by apply IH.
Qed.

Lemma split_lines_searchContentOf (segs : list jsstring) :
  segs ≠ [] → Forall (λ l, LF ∉ l) segs →
  split_lines (searchContentOf segs) = segs ++ [[]].
Proof.
  intros Hne Hall. unfold searchContentOf.
  pose proof (len_pos _ Hne).
  destruct (Z.gtb_spec (len segs) 0); [|lia].
  by apply split_lines_join_LF.
Qed.

Lemma popTrailingEmptyLine_snoc (segs : list jsstring) :
  popTrailingEmptyLine (segs ++ [[]]) = segs.
Proof.
  unfold popTrailingEmptyLine, pop. by rewrite last_snoc, removelast_last.
Qed.

(** X19.  The line matchers see the search lines of the block: splitting
    the search content the processor builds from the search lines of a diff
    (lines without a line feed, at least one) and dropping the trailing
    empty line gives these lines back; before the drop there is one line
    more, which is the count the three-line guard of the block-anchor
    matcher tests. *)
Theorem matchers_see_the_search_lines (segs : list jsstring) :
  segs ≠ [] → Forall (λ l, LF ∉ l) segs →
  popTrailingEmptyLine (split_lines (searchContentOf segs)) = segs
  ∧ len (split_lines (searchContentOf segs)) = len segs + 1.
Proof.
  intros Hne Hall. rewrite split_lines_searchContentOf by done.
  split; [apply popTrailingEmptyLine_snoc|].
  rewrite len_app, len_cons, len_nil. lia.
Qed.

Lemma matchers_see_the_search_lines_witness :
  let segs := [str "  if (x) {"; str ""; str "}"] in
  segs ≠ [] ∧ Forall (λ l, LF ∉ l) segs
  ∧ popTrailingEmptyLine (split_lines (searchContentOf segs)) = segs
  ∧ len (split_lines (searchContentOf segs)) = len segs + 1.
Proof.
  intros segs.
  assert (Hne : segs ≠ []) by done.
  assert (Hall : Forall (λ l, LF ∉ l) segs).
  { repeat constructor; intros Hin; vm_compute in Hin;
      repeat (apply elem_of_cons in Hin as [Hin|Hin]; [discriminate|]);
      by apply elem_of_nil in Hin. }
  split; [exact Hne|]. split; [exact Hall|].
  exact (matchers_see_the_search_lines segs Hne Hall).
Defined.

(** The reference search finds nothing from a later start when it finds
    nothing from an earlier one. *)
Lemma firstBlock_none_later (P : Z → Prop) `{!∀ p, Decision (P p)}
    (lines : list jsstring) (s1 s2 size : Z) :
  s1 ≤ s2 → firstBlock P lines s1 size = None →
  firstBlock P lines s2 size = None.
Proof.
  intros Hs Hnone.
  destruct (firstBlock P lines s2 size) as [r2|] eqn:Hsome; [|done].
  destruct (firstBlock_earlier P lines s1 s2 size r2 Hs Hsome) as (r1 & Hr1 & _).
  congruence.
Qed.

(** When no strategy locates a search block, no block of whole lines at or
    after the cursor equals its lines after trimming. *)
Lemma locateSearchBlock_none original segs cursor :
  Forall (λ l, LF ∉ l) segs →
  locateSearchBlock original (lineIndexFor original) (searchContentOf segs)
    cursor = None →
  segs ≠ []
  ∧ ∀ q, cursor ≤ lineStart (split_lines original) q →
         ¬ trimmedBlockAt (split_lines original) segs q.
Proof.
  intros Hall Hloc.
  assert (Hne : segs ≠ []).
  { intros ->. unfold locateSearchBlock in Hloc. cbn in Hloc.
    by destruct (len original =? 0). }
  split; [done|].
  unfold locateSearchBlock in Hloc.
  destruct (len (searchContentOf segs) =? 0).
  { by destruct (len original =? 0). }
  destruct (negb _); [done|].
  destruct (lineTrimmedFallbackMatch _ _ _ _) as [?|] eqn:Hline; [done|].
  clear Hloc.
  assert (Hdirect :
    firstBlock (trimmedBlockAt (split_lines original) segs)
      (split_lines original)
      (directStartLine (split_lines original) cursor 0 0) (len segs) = None).
  { unfold lineIndexFor, lineTrimmedFallbackMatch in Hline. cbv zeta in Hline.
    destruct (LineIndex.shouldUseIndex original) eqn:Hlarge;
      rewrite ?Hlarge in Hline;
      rewrite ?lineTrimmedIndexed_reference, ?lineTrimmedDirect_reference
        in Hline;
      rewrite (proj1 (matchers_see_the_search_lines segs Hne Hall)) in Hline;
      (destruct (Z.eqb_spec (len segs) 0) as [Hz|_];
       [by apply len_zero_nil in Hz|]); [|done].
    eapply firstBlock_none_later; [|exact Hline].
    apply indexedStartLine_le_direct. }
  pose proof (firstBlock_from_cursor
                (trimmedBlockAt (split_lines original) segs)
                (split_lines original) cursor (len segs)) as Hspec.
  rewrite Hdirect in Hspec. intros q Hq Hblock.
  apply (Hspec ltac:(intros p Hp;
                     destruct (trimmedBlockAt_range _ _ _ Hne Hp);
                     pose proof (len_pos _ Hne); lia) q).
  by split.
Qed.

(** The line loop throws only at a [=======] whose search block no
    strategy locates, after it has run over the lines before. *)
Lemma processLines_throws diff original isFinal idx lines st0 message :
  processLines diff original isFinal idx lines st0 = Throw message →
  ∃ pre rest st,
    lines = pre ++ SEPARATOR_MARKER :: rest
    ∧ processLines diff original isFinal idx pre st0 = Continue st
    ∧ locateSearchBlock original idx (searchContentOf (searchSegments st))
        (lastProcessedIndex st) = None
    ∧ message = noMatchMessage (searchContentOf (searchSegments st)).
Proof.
  revert st0. induction lines as [|l lines IH]; intros st0; [done|].
  cbn [processLines].
  destruct (step diff original isFinal idx st0 l) as [st1|r|m] eqn:Hstep.
  - intros (pre & rest & st & -> & Hrun & Hloc & ->)%IH.
    exists (l :: pre), rest, st. split; [done|]. split; [|done].
    cbn [processLines]. by rewrite Hstep.
  - done.
  - intros [= <-]. unfold step in Hstep.
    destruct (streq l SEARCH_MARKER); [done|].
    destruct (streq l SEPARATOR_MARKER) eqn:Hsep.
    + apply streq_spec in Hsep as ->. unfold onSeparator in Hstep.
      destruct (locateSearchBlock original idx
                  (searchContentOf (searchSegments st0))
                  (lastProcessedIndex st0)) as [[s e]|] eqn:Hloc; [done|].
      injection Hstep as <-. by exists [], lines, st0.
    + destruct (streq l REPLACE_MARKER).
      * unfold onReplaceMarker in Hstep. cbv zeta in Hstep.
        destruct isFinal; [destruct (negb (includes _ _))|]; done.
      * unfold onContentLine in Hstep.
        destruct (inSearch st0); [done|]. by destruct (inReplace st0).
Qed.

(** The search lines the loop holds are lines it has read. *)
Lemma processLines_searchSegments diff original isFinal idx
    (P : jsstring → Prop) lines st0 st :
  Forall P lines → Forall P (searchSegments st0) →
  processLines diff original isFinal idx lines st0 = Continue st →
  Forall P (searchSegments st).
Proof.
  intros Hlines. revert st0.
  induction Hlines as [|l lines Hl Hlines IH]; intros st0 Hsegs.
  { by intros [= <-]. }
  cbn [processLines]. unfold step.
  destruct (streq l SEARCH_MARKER).
  { cbn [onSearchMarker]. apply IH. cbn.
    destruct (inSearch st0 || inReplace st0); [constructor|done]. }
  destruct (streq l SEPARATOR_MARKER).
  { unfold onSeparator.
    destruct (locateSearchBlock _ _ _ _) as [[s e]|]; [|done].
    apply IH. by cbn. }
  destruct (streq l REPLACE_MARKER).
  { unfold onReplaceMarker. cbv zeta.
    destruct isFinal; [destruct (negb (includes _ _)); [done|]|];
      apply IH; cbn; constructor. }
  unfold onContentLine.
  destruct (inSearch st0).
  { apply IH. cbn. apply Forall_app. split; [done|]. by constructor. }
  destruct (inReplace st0); apply IH; by cbn.
Qed.

(** The cursor moves at [>>>>>>> REPLACE] lines only. *)
Lemma processLines_cursor diff original isFinal idx lines st0 st :
  REPLACE_MARKER ∉ lines →
  processLines diff original isFinal idx lines st0 = Continue st →
  lastProcessedIndex st = lastProcessedIndex st0.
Proof.
  revert st0. induction lines as [|l lines IH]; intros st0 Hno.
  { by intros [= <-]. }
  apply not_elem_of_cons in Hno as [Hl Hno].
  cbn [processLines]. unfold step.
  destruct (streq l SEARCH_MARKER).
  { cbn [onSearchMarker]. by intros ->%IH. }
  destruct (streq l SEPARATOR_MARKER).
  { unfold onSeparator.
    destruct (locateSearchBlock _ _ _ _) as [[s e]|]; [|done].
    by intros ->%IH. }
  destruct (streq l REPLACE_MARKER) eqn:Hrep.
  { apply streq_spec in Hrep. congruence. }
  unfold onContentLine.
  destruct (inSearch st0); [by intros ->%IH|].
  destruct (inReplace st0); by intros ->%IH.
Qed.

Lemma diffLines_LF_free (diff : jsstring) :
  Forall (λ l, l ∈ split_lines diff ∧ LF ∉ l) (diffLines diff).
Proof.
  apply Forall_forall. intros l Hl%elem_of_diffLines. split; [done|].
  pose proof (split_lines_LF_free diff) as Hfree.
  by eapply Forall_forall in Hfree.
Qed.

(** X20.  A call fails in one way only: at a [=======] line, after the
    lines before it have been processed, with the no-match message of the
    search lines held then; these are lines of the diff, there is at least
    one, and after trimming they equal no block of whole lines of the
    original that starts at or after the cursor reached then.  The cursor
    is 0 as long as no [>>>>>>> REPLACE] line has been read. *)
Theorem a_call_fails_only_for_an_unmatched_block
    (diff original : jsstring) (isFinal : bool) (message : jsstring) :
  constructNewFileContent diff original isFinal = inr message →
  ∃ pre rest st,
    diffLines diff = pre ++ SEPARATOR_MARKER :: rest
    ∧ processLines diff original isFinal (lineIndexFor original) pre
        initialState = Continue st
    ∧ searchSegments st ≠ []
    ∧ Forall (λ l, l ∈ split_lines diff) (searchSegments st)
    ∧ message = noMatchMessage (searchContentOf (searchSegments st))
    ∧ (∀ q, lastProcessedIndex st ≤ lineStart (split_lines original) q →
            ¬ trimmedBlockAt (split_lines original) (searchSegments st) q)
    ∧ (REPLACE_MARKER ∉ pre → lastProcessedIndex st = 0).
Proof.
  unfold constructNewFileContent.
  destruct (isFinal && negb (includes diff SEARCH_MARKER)); [done|].
  destruct (processLines diff original isFinal (lineIndexFor original)
              (diffLines diff) initialState) as [st|r|m] eqn:Hrun;
    [done|done|].
  intros [= <-].
  destruct (processLines_throws _ _ _ _ _ _ _ Hrun)
    as (pre & rest & st & Hlines & Hpre & Hloc & ->).
  pose proof (diffLines_LF_free diff) as Hall.
  rewrite Hlines in Hall. apply Forall_app in Hall as [Hall _].
  pose proof (processLines_searchSegments _ _ _ _ _ _ initialState _ Hall
                (Forall_nil_2 _) Hpre) as Hsegs.
  assert (Hfree : Forall (λ l, LF ∉ l) (searchSegments st)).
  { eapply Forall_impl; [exact Hsegs|]. by intros l [_ ?]. }
  destruct (locateSearchBlock_none original _ _ Hfree Hloc) as [Hne Hnone].
  exists pre, rest, st. split; [done|]. split; [done|]. split; [done|].
  split; [|split; [done|split; [exact Hnone|]]].
  - eapply Forall_impl; [exact Hsegs|]. by intros l [? _].
  - intros Hno. by rewrite (processLines_cursor _ _ _ _ _ _ _ Hno Hpre).
Qed.

Lemma a_call_fails_only_for_an_unmatched_block_witness :
  let diff :=
    unlines ["<<<<<<< SEARCH"; "let c = 3;"; "======="; "let c = 4;";
             ">>>>>>> REPLACE"] in
  let original := unlines ["let a = 1;"; "let b = 2;"] in
  let message := noMatchMessage (searchContentOf [str "let c = 3;"]) in
  constructNewFileContent diff original true = inr message
  ∧ ∃ pre rest st,
      diffLines diff = pre ++ SEPARATOR_MARKER :: rest
      ∧ processLines diff original true (lineIndexFor original) pre
          initialState = Continue st
      ∧ searchSegments st ≠ []
      ∧ Forall (λ l, l ∈ split_lines diff) (searchSegments st)
      ∧ message = noMatchMessage (searchContentOf (searchSegments st))
      ∧ (∀ q, lastProcessedIndex st ≤ lineStart (split_lines original) q →
              ¬ trimmedBlockAt (split_lines original) (searchSegments st) q)
      ∧ (REPLACE_MARKER ∉ pre → lastProcessedIndex st = 0).
Proof.
  intros diff original message.
  assert (Hrun : constructNewFileContent diff original true = inr message)
    by (vm_compute; reflexivity).
  split; [exact Hrun|].
  exact (a_call_fails_only_for_an_unmatched_block diff original true _ Hrun).
Defined.

(* ================================================================= *)
(** ** Edge cases of the line index and the line matchers *)
(* ================================================================= *)

(** X21.  The accessors of the index of a content: [getLineAt] returns
    line [i] of the content for [0 <= i < n] ([n] the line count) and the
    empty string for every other line number; [getOffsetForLine] is 0 for
    line 0 and for every line number below 0 or above [n]; and for
    [0 <= i < n] the offset of line [i + 1] is the offset of line [i] plus
    the length of line [i] plus one. *)
Theorem index_accessors (content : jsstring) (i : Z) :
  let idx := LineIndex.buildIndex content in
  let n := LineIndex.getLineCount idx in
  LineIndex.getOffsetForLine idx 0 = 0
  ∧ (0 ≤ i < n →
     split_lines content !! Z.to_nat i = Some (LineIndex.getLineAt idx i)
     ∧ LineIndex.getOffsetForLine idx (i + 1)
       = LineIndex.getOffsetForLine idx i
         + len (LineIndex.getLineAt idx i) + 1)
  ∧ (i < 0 ∨ n ≤ i → LineIndex.getLineAt idx i = [])
  ∧ (i < 0 ∨ n < i → LineIndex.getOffsetForLine idx i = 0).
Proof.
  intros idx n. subst idx n. rewrite getLineCount_buildIndex.
  unfold LineIndex.getLineAt. rewrite lines_buildIndex.
  pose proof (len_nonneg (split_lines content)) as Hn.
  split; [|split; [|split]].
  - by rewrite getOffsetForLine_buildIndex by lia.
  - intros Hi.
    destruct (take_drop_middle_Z (split_lines content) i [] Hi)
      as (l & Hl & _).
    rewrite (line_at_lookup_Z (split_lines content) i l) by (lia || done).
    split; [done|].
    rewrite !getOffsetForLine_buildIndex by lia.
    replace (Z.to_nat (i + 1)) with (S (Z.to_nat i)) by lia.
    by rewrite (emitLines_take_S _ _ _ Hl).
  - intros Hout. unfold line_at.
    destruct (Z.ltb_spec i 0); [done|].
    rewrite (proj2 (lookup_ge_None _ _)); [done|]. unfold len in *. lia.
  - intros Hout. unfold LineIndex.getOffsetForLine.
    destruct (Z.ltb_spec i 0); [done|].
    rewrite (proj2 (lookup_ge_None _ _)); [done|].
    rewrite lineToOffset_buildIndex, length_fmap, length_seq.
    unfold len in *. lia.
Qed.

(** X22.  [findExactMatch] with no search line returns the empty range at
    offset 0, whatever the start line. *)
Theorem findExactMatch_of_no_line (content : jsstring) (start : Z) :
  LineIndex.findExactMatch (LineIndex.buildIndex content) [] start
  = Some (0, 0).
Proof.
  unfold LineIndex.findExactMatch, LineIndex.findPotentialMatches.
  change (len (@nil jsstring) =? 0) with true. cbv iota.
  cbn [LineIndex.findExactMatchLoop LineIndex.blockMatchesAt].
  rewrite lines_buildIndex. change (0 + len (@nil jsstring)) with 0.
  pose proof (len_split_lines_pos content).
  destruct (Z.ltb_spec 0 (len (split_lines content))); [|lia].
  by rewrite getOffsetForLine_buildIndex by lia.
Qed.

(** X23.  Both line matchers return [false] for the empty search content,
    with any line index or none. *)
Theorem line_matchers_reject_empty_search
    (original : jsstring) (cursor : Z) (idx : option LineIndex.t) :
  lineTrimmedFallbackMatch original [] cursor idx = None
  ∧ blockAnchorFallbackMatch original [] cursor idx = None.
Proof.
  unfold lineTrimmedFallbackMatch, blockAnchorFallbackMatch.
  assert (Hdirect : lineTrimmedDirect original [] cursor = None).
  { unfold lineTrimmedDirect. pose proof (len_split_lines_pos original).
    cbn [split_lines].
    destruct (Z.eqb_spec (len (split_lines original)) 0); [lia|]. done. }
  destruct idx as [idx|]; [|done].
  by destruct (LineIndex.shouldUseIndex original).
Qed.
(* ================================================================= *)
(** ** C3 and C9: the matchers with a line index *)
(* ================================================================= *)

Lemma largeOriginal_uses_index :
  LineIndex.shouldUseIndex largeOriginal = true.
Proof. vm_compute. reflexivity. Qed.

Lemma lineIndexFor_largeOriginal :
  lineIndexFor largeOriginal = Some (LineIndex.buildIndex largeOriginal).
Proof.
  unfold lineIndexFor. rewrite largeOriginal_uses_index. reflexivity.
Qed.

Lemma lineTrimmed_indexed_large :
  lineTrimmedFallbackMatch largeOriginal (unlines [" a"]) 2
    (Some (LineIndex.buildIndex largeOriginal)) = Some (0, 2).
Proof. vm_compute. reflexivity. Qed.

Lemma lineTrimmed_direct_large :
  lineTrimmedFallbackMatch largeOriginal (unlines [" a"]) 2 None = None.
Proof. vm_compute. reflexivity. Qed.

Lemma blockAnchor_indexed_large :
  blockAnchorFallbackMatch largeOriginal (unlines ["a"; "x"; "c"]) 2
    (Some (LineIndex.buildIndex largeOriginal)) = Some (0, 6).
Proof. vm_compute. reflexivity. Qed.

Lemma blockAnchor_direct_large :
  blockAnchorFallbackMatch largeOriginal (unlines ["a"; "x"; "c"]) 2 None = None.
Proof. vm_compute. reflexivity. Qed.

(** C3.  With a line index the matchers can return a range that starts
    below the cursor: the indexed scan starts one line before the first
    line at or after the cursor.  With the cursor at offset 2 (the start of
    the second line) both matchers return a range that starts at 0. *)
Theorem indexed_match_starts_below_cursor :
  ∃ startL endL startB endB,
    lineTrimmedFallbackMatch largeOriginal (unlines [" a"]) 2
      (lineIndexFor largeOriginal) = Some (startL, endL)
    ∧ startL < 2
    ∧ blockAnchorFallbackMatch largeOriginal (unlines ["a"; "x"; "c"]) 2
        (lineIndexFor largeOriginal) = Some (startB, endB)
    ∧ startB < 2.
Proof.
  exists 0, 2, 0, 6. rewrite lineIndexFor_largeOriginal.
  split; [exact lineTrimmed_indexed_large|].
  split; [lia|].
  split; [exact blockAnchor_indexed_large|lia].
Qed.

(** C9.  The indexed path and the direct path are not the same function:
    on the same content, search content and cursor the indexed matchers
    find a match where the direct ones find none. *)
Theorem indexed_and_direct_paths_differ :
  lineTrimmedFallbackMatch largeOriginal (unlines [" a"]) 2
    (Some (LineIndex.buildIndex largeOriginal))
  ≠ lineTrimmedFallbackMatch largeOriginal (unlines [" a"]) 2 None
  ∧ blockAnchorFallbackMatch largeOriginal (unlines ["a"; "x"; "c"]) 2
      (Some (LineIndex.buildIndex largeOriginal))
    ≠ blockAnchorFallbackMatch largeOriginal (unlines ["a"; "x"; "c"]) 2 None.
Proof.
  rewrite lineTrimmed_indexed_large, lineTrimmed_direct_large,
    blockAnchor_indexed_large, blockAnchor_direct_large.
  split; discriminate.
Qed.

(* ================================================================= *)
(** ** The line index at work, on a file above the size threshold *)
(* ================================================================= *)

(** X14 on a file above the threshold, where the index is read: with the
    cursor at 0 the indexed scans return what the direct scans return. *)
Lemma line_index_is_transparent_at_file_start_witness :
  LineIndex.shouldUseIndex largeOriginal = true
  ∧ 0 ≤ 0
  ∧ lineTrimmedFallbackMatch largeOriginal (unlines [" b"]) 0
      (Some (LineIndex.buildIndex largeOriginal)) = Some (2, 4)
  ∧ blockAnchorFallbackMatch largeOriginal (unlines ["a"; "x"; "c"]) 0
      (Some (LineIndex.buildIndex largeOriginal)) = Some (0, 6)
  ∧ lineTrimmedFallbackMatch largeOriginal (unlines [" b"]) 0
      (Some (LineIndex.buildIndex largeOriginal))
    = lineTrimmedFallbackMatch largeOriginal (unlines [" b"]) 0 None
  ∧ blockAnchorFallbackMatch largeOriginal (unlines ["a"; "x"; "c"]) 0
      (Some (LineIndex.buildIndex largeOriginal))
    = blockAnchorFallbackMatch largeOriginal (unlines ["a"; "x"; "c"]) 0 None.
Proof.
  assert (Hcursor : 0 ≤ 0) by lia.
  split; [exact largeOriginal_uses_index|]. split; [exact Hcursor|].
  split; [vm_compute; reflexivity|]. split; [vm_compute; reflexivity|].
  split.
  - exact (proj1 (line_index_is_transparent_at_file_start largeOriginal
                    (unlines [" b"]) 0 Hcursor)).
  - exact (proj2 (line_index_is_transparent_at_file_start largeOriginal
                    (unlines ["a"; "x"; "c"]) 0 Hcursor)).
Defined.

(** X15 on a file above the threshold, where the index is read: the match
    the direct scan finds from the cursor at offset 4, the indexed scan
    finds too. *)
Lemma line_index_never_loses_a_match_witness :
  LineIndex.shouldUseIndex largeOriginal = true
  ∧ lineTrimmedFallbackMatch largeOriginal (unlines [" c"]) 4 None
    = Some (4, 6)
  ∧ lineTrimmedFallbackMatch largeOriginal (unlines [" c"]) 4
      (Some (LineIndex.buildIndex largeOriginal)) = Some (4, 6)
  ∧ ∃ a' b',
      lineTrimmedFallbackMatch largeOriginal (unlines [" c"]) 4
        (Some (LineIndex.buildIndex largeOriginal)) = Some (a', b')
      ∧ a' ≤ 4.
Proof.
  assert (Hdirect :
    lineTrimmedFallbackMatch largeOriginal (unlines [" c"]) 4 None
    = Some (4, 6)) by (vm_compute; reflexivity).
  split; [exact largeOriginal_uses_index|]. split; [exact Hdirect|].
  split; [vm_compute; reflexivity|].
  exact (proj1 (line_index_never_loses_a_match largeOriginal
                  (unlines [" c"]) 4 4 6) Hdirect).
Defined.
